(** * Shift scheduler: the assignment engine of [ShiftSchedulerApp.tsx]

    A shallow embedding of [generateSchedule] (the strict fill pass and the
    optional hard-fill pass), of its helpers, of the edits by hand
    [assignManual] and [removeFromShift], of [counters], of the filter of
    the assignment menu and of [escapeCSV], followed by the properties
    proved about them.

    Conventions of the embedding.
    - A JavaScript number that holds a count, a day number or a seed is an
      integer below 2^53 and is modelled as [Z]; the weights, which are
      genuine binary64 values, are modelled by Rocq's primitive floats
      (the same IEEE 754 binary64 arithmetic, round to nearest even).
    - A JavaScript object used as a dictionary keyed by employee id is a
      [gmap string _]; a [Set] of day numbers is a [gset Z].
    - The mutable tracking state of one run is threaded explicitly.
    - The date string [YYYY-MM-DD] built by [ymd] is kept as the triple it
      renders (see [Date]).
    - Input is well typed: the numeric parameters and [desiredShifts] are
      integers, a preference is one of the three labels, the year is one
      that [Date] represents, and no employee id is the name of a property
      of [Object.prototype]. *)

From Stdlib Require Import ZArith List Bool Floats Lia.
From stdpp Require Import gmap strings list.

Local Open Scope Z_scope.

(** ** JavaScript numbers *)

Module JS.

(** The binary64 value of an integer (an integer literal or an integer
    valued number flowing into float arithmetic), rounded to nearest
    even when it has more than 53 significant bits. *)
Definition num (z : Z) : float :=
  SF2Prim (binary_normalize prec emax z 0 false).

(** The integer part of a finite float, towards minus infinity for
    [floorZ] and plus infinity for [ceilZ]; [None] for NaN and the
    infinities. *)
Definition floorZ (x : float) : option Z :=
  match Prim2SF x with
  | S754_zero _ => Some 0
  | S754_finite s m e =>
      let v := if s then Z.neg m else Z.pos m in
      Some (if 0 <=? e then v * 2 ^ e else v / 2 ^ (- e))
  | _ => None
  end.

Definition ceilZ (x : float) : option Z :=
  match Prim2SF x with
  | S754_zero _ => Some 0
  | S754_finite s m e =>
      let v := if s then Z.neg m else Z.pos m in
      Some (if 0 <=? e then v * 2 ^ e else - ((- v) / 2 ^ (- e)))
  | _ => None
  end.

(** [Math.floor] and [Math.ceil]: NaN and the infinities are returned
    unchanged (a result that is zero is returned as +0; only comparisons
    are made on it). *)
Definition floor (x : float) : float :=
  match floorZ x with Some z => num z | None => x end.

Definition ceil (x : float) : float :=
  match ceilZ x with Some z => num z | None => x end.

(** [Math.max] and [Math.min] on two numbers: NaN when either is NaN. *)
Definition max (x y : float) : float :=
  if PrimFloat.is_nan x || PrimFloat.is_nan y then PrimFloat.nan
  else if PrimFloat.ltb x y then y
  else if PrimFloat.ltb y x then x
  else if PrimFloat.get_sign x then y else x.

Definition min (x y : float) : float :=
  if PrimFloat.is_nan x || PrimFloat.is_nan y then PrimFloat.nan
  else if PrimFloat.ltb x y then x
  else if PrimFloat.ltb y x then y
  else if PrimFloat.get_sign x then x else y.

Definition isFinite (x : float) : bool := PrimFloat.is_finite x.

(** Rounding of an integer to the nearest binary64 value (ties to even),
    as an integer: the identity below 2^53. *)
Definition round53 (z : Z) : Z :=
  let a := Z.abs z in
  if a <? 2 ^ 53 then z
  else
    let k := Z.log2 a - 52 in
    let q := a / 2 ^ k in
    let r := a mod 2 ^ k in
    let h := 2 ^ (k - 1) in
    let q' := if (h <? r) || ((r =? h) && Z.odd q) then q + 1 else q in
    Z.sgn z * (q' * 2 ^ k).

(** The remainder operator [%] on integers: the sign of the dividend. *)
Definition rem (a b : Z) : Z := Z.rem a b.

End JS.

(** ** Calendar *)

(** [new Date(y, m0, d)] for integer arguments, as a day count from
    1970-01-01: the month index is normalised into the year, a year in
    0..99 means 1900 + y, and the day number may overflow the month. *)
Definition jsYear (y : Z) : Z := if (0 <=? y) && (y <=? 99) then 1900 + y else y.

(** Days from 1970-01-01 to the first day of civil month [m] (1..12) of
    year [y], proleptic Gregorian calendar. *)
Definition daysFromCivil (y m : Z) : Z :=
  let y' := if m <=? 2 then y - 1 else y in
  let era := y' / 400 in
  let yoe := y' - era * 400 in
  let mp := (m + 9) mod 12 in
  let doy := (153 * mp + 2) / 5 in
  let doe := yoe * 365 + yoe / 4 - yoe / 100 + doy in
  era * 146097 + doe - 719468.

Definition dateIndex (y m0 d : Z) : Z :=
  let y' := jsYear y + m0 / 12 in
  let m := m0 mod 12 + 1 in
  daysFromCivil y' m + (d - 1).

(** [new Date(y, m0 + 1, 0).getDate()] *)
Definition daysInMonth (y m0 : Z) : Z :=
  dateIndex y (m0 + 1) 1 - dateIndex y m0 1.

(** [new Date(y, m0, 1).getDay()], 0 = Sunday. *)
Definition getDay (y m0 d : Z) : Z := (dateIndex y m0 d + 4) mod 7.

(** The string [`${y}-${pad2(m0 + 1)}-${pad2(day)}`], kept as its three
    numbers: within one run the year and the month are fixed and [pad2] is
    injective, so two such strings are equal exactly when the triples are. *)
Record Date := mkDate { dY : Z; dM : Z; dD : Z }.

#[global] Instance Date_eq_dec : EqDecision Date.
Proof. solve_decision. Defined.

Definition ymd (y m0 d : Z) : Date :=
  let dim := daysInMonth y m0 in
  let day := Z.min dim (Z.max 1 d) in
  mkDate y (m0 + 1) day.

(** ** Data model *)

Inductive Preference := Day | Night | Neither.

(** The shift names ["day"] and ["night"]. *)
Inductive Shift := day | night.

#[global] Instance Preference_eq_dec : EqDecision Preference.
Proof. solve_decision. Defined.

#[global] Instance Shift_eq_dec : EqDecision Shift.
Proof. solve_decision. Defined.

(** The fields of an employee object that the engine reads. *)
Module Employee.
Record t := mk {
  id : string;
  preference : Preference;
  desiredShifts : Z;
  isReserve : bool
}.
End Employee.

(** The argument of [generateSchedule].  [weeklyCap], [maxStreak],
    [spreadEnabled], [useReservesAuto] and [hardFill] have defaults in the
    source (5, 5, true, false, false); a caller of the model passes them.
    [seedIn] is the optional seed. *)
Record Params := mkParams {
  employees : list Employee.t;
  year : Z;
  monthIndex0 : Z;
  daySlots : Z;
  nightSlots : Z;
  enforceNoMorningAfterNight : bool;
  weeklyCap : Z;
  maxStreak : Z;
  spreadEnabled : bool;
  useReservesAuto : bool;
  seedIn : option Z;
  hardFill : bool
}.

(** The violations reported by the eligibility evaluator and by the
    diagnostics, one constructor per message text:
    "already on other shift today", [`>${maxStreak}-day streak`],
    "morning after night", [`weekly cap ${weeklyCap}`],
    [`${maxStreak}-day consecutive limit reached`] and
    "hard ceiling (others under target)". *)
Inductive Reason :=
| AlreadyOnOtherShift
| StreakOver (n : Z)
| MorningAfterNight
| WeeklyCapReached (n : Z)
| ConsecutiveLimit (n : Z)
| HardCeiling.

#[global] Instance Reason_eq_dec : EqDecision Reason.
Proof. solve_decision. Defined.

(** The relaxation mode [{ ignoreWeeklyCap, ignoreStreak }]. *)
Record Relax := mkRelax { ignoreWeeklyCap : bool; ignoreStreak : bool }.

Definition noRelax : Relax := mkRelax false false.

(** One row of the output table.  An issue is the summary
    "Insufficient eligible staff: ..." kept as its (reason, count) pairs. *)
Record Row := mkRow {
  date : Date;
  dayIds : list string;
  nightIds : list string;
  dayMissing : Z;
  nightMissing : Z;
  dayIssues : list (list (Reason * Z));
  nightIssues : list (list (Reason * Z))
}.

Record Meta := mkMeta {
  totalDemand : Z;
  sumDesiredPrimaries : Z;
  allowReservesInNormal : bool
}.

Record Schedule := mkSchedule { days : list Row; meta : Meta }.

(** The tracking state of one run ([assignedCount], [lastNightOn],
    [lastWorkedOn], [streak], [workedOnDay], [weekCount]) and the state of
    the generator ([seed]). *)
Record State := mkState {
  assignedCount : gmap string Z;
  lastNightOn : gmap string Date;
  lastWorkedOn : gmap string Date;
  streak : gmap string Z;
  workedOnDay : gmap string (gset Z);
  weekCount : gmap string (list Z);
  seed : Z
}.

(** ** Utilities *)

Set Warnings "-inexact-float".

(** The tracking state with the generator moved to state [s]. *)
Definition setSeed (st : State) (s : Z) : State :=
  mkState (assignedCount st) (lastNightOn st) (lastWorkedOn st) (streak st)
          (workedOnDay st) (weekCount st) s.

(** [rng]: one step of the generator.  The arithmetic is binary64 on
    integers: exact below 2^53, rounded above (which can only happen for
    the first draw of a seed outside 32 bits). *)
Definition rng (st : State) : float * State :=
  let s := JS.rem (JS.round53 (JS.round53 (seed st * 1664525) + 1013904223)) 4294967296 in
  ((JS.num s / JS.num 4294967296)%float, setSeed st s).

(** The cumulative subtraction of [randomPickWeighted]. *)
Fixpoint pickLoop {A} (r : float) (items : list A) (weights : list float) : option A :=
  match items, weights with
  | x :: items', w :: weights' =>
      let r' := (r - w)%float in
      if (r' <=? 0)%float then Some x else pickLoop r' items' weights'
  | _, _ => None
  end.

Definition randomPickWeighted {A} (items : list A) (weights : list float) (st : State)
  : option A * State :=
  let total := fold_left PrimFloat.add weights (JS.num 0) in
  if negb (JS.isFinite total) || (total <=? 0)%float then (None, st)
  else
    let '(u, st') := rng st in
    let r := (u * total)%float in
    match pickLoop r items weights with
    | Some x => (Some x, st')
    | None => (last items, st')
    end.

(** [Array.prototype.sort] with a comparator: the stable sort. *)
Fixpoint sortInsert {A} (cmp : A -> A -> Z) (x : A) (l : list A) : list A :=
  match l with
  | [] => [x]
  | y :: l' => if cmp x y <=? 0 then x :: y :: l' else y :: sortInsert cmp x l'
  end.

Definition jsSort {A} (cmp : A -> A -> Z) (l : list A) : list A :=
  fold_right (sortInsert cmp) [] l.

(** [ids.includes(id)] *)
Definition includes (ids : list string) (i : string) : bool := bool_decide (i ∈ ids).

(** ** The generator *)

Section Generator.

Context (p : Params).

Definition desiredOf (e : Employee.t) : Z := Z.max 0 (Employee.desiredShifts e).

Definition dInM : Z := daysInMonth (year p) (monthIndex0 p).

Definition primaries : list Employee.t :=
  List.filter (fun e => negb (Employee.isReserve e)) (employees p).

Definition reserves : list Employee.t :=
  List.filter (fun e => Employee.isReserve e) (employees p).

(** Demand against the primaries' desired shifts: [totalDemand],
    [sumDesiredPrimaries] and [allowReservesInNormal] of the source. *)
Definition totalDemandOf : Z := dInM * (Z.max 0 (daySlots p) + Z.max 0 (nightSlots p)).

Definition sumDesiredPrimariesOf : Z :=
  fold_left (fun s e => s + desiredOf e) primaries 0.

Definition allowReserves : bool :=
  useReservesAuto p && (totalDemandOf <=? sumDesiredPrimariesOf).

(** Spread buckets. *)
Definition firstWeekday : Z := getDay (year p) (monthIndex0 p) 1.

Definition weeksInMonth : Z := - ((- (firstWeekday + dInM)) / 7).

Definition dayToWeekIdx (dayNum : Z) : Z := (firstWeekday + (dayNum - 1)) / 7.

(** The tracking objects as created at the start of a run. *)
Definition initState (seed0 : Z) : State :=
  let ids := map Employee.id (employees p) in
  mkState
    (list_to_map (map (fun i => (i, 0)) ids))
    ∅
    ∅
    (list_to_map (map (fun i => (i, 0)) ids))
    (list_to_map (map (fun i => (i, (∅ : gset Z))) ids))
    (list_to_map (map (fun i => (i, replicate (Z.to_nat weeksInMonth) 0)) ids))
    seed0.

(** [assignedCount[id] || 0] and [streak[id] || 0] *)
Definition count (st : State) (i : string) : Z := default 0 (assignedCount st !! i).

Definition streakOf (st : State) (i : string) : Z := default 0 (streak st !! i).

Definition workedDays (st : State) (i : string) : gset Z := default ∅ (workedOnDay st !! i).

(** The loop of [windowCount]: [n] iterations from day [d] on. *)
Fixpoint countFrom (set : gset Z) (d : Z) (n : nat) : Z :=
  match n with
  | O => 0
  | S n' => (if bool_decide (d ∈ set) then 1 else 0) + countFrom set (d + 1) n'
  end.

Definition windowCount (st : State) (i : string) (dayNum window : Z) : Z :=
  let lo := Z.max 1 (dayNum - (window - 1)) in
  countFrom (workedDays st i) lo (Z.to_nat (dayNum - 1 - lo + 1)).

Definition updateOnAssign (st : State) (i : string) (dt : Date) (dayNum : Z) (shiftName : Shift)
  : State :=
  let newStreak :=
    match lastWorkedOn st !! i with
    | None => 1
    | Some prev =>
        let prevIdx := dateIndex (dY prev) (dM prev - 1) (dD prev) in
        let todayIdx := dateIndex (year p) (monthIndex0 p) dayNum in
        let diffDays := todayIdx - prevIdx in
        if diffDays =? 1 then streakOf st i + 1 else 1
    end in
  mkState
    (<[i := count st i + 1]> (assignedCount st))
    (match shiftName with night => <[i := dt]> (lastNightOn st) | day => lastNightOn st end)
    (<[i := dt]> (lastWorkedOn st))
    (<[i := newStreak]> (streak st))
    (<[i := {[dayNum]} ∪ workedDays st i]> (workedOnDay st))
    (<[i := alter Z.succ (Z.to_nat (dayToWeekIdx dayNum)) (default [] (weekCount st !! i))]>
       (weekCount st))
    (seed st).

Definition prefWeight (e : Employee.t) (shiftName : Shift) : float :=
  if bool_decide (Employee.preference e = Neither) then 0.8%float
  else if bool_decide (shiftName = day)
       then (if bool_decide (Employee.preference e = Day) then 1.0%float else 0.0%float)
       else (if bool_decide (Employee.preference e = Night) then 1.0%float else 0.0%float).

Definition fairness (st : State) (e : Employee.t) : float :=
  (1 / JS.num (1 + count st (Employee.id e)))%float.

Definition workedYday (st : State) (i : string) (dayNum : Z) : bool :=
  bool_decide (dayNum - 1 ∈ workedDays st i).

Definition restBias (st : State) (e : Employee.t) (dayNum : Z) : float :=
  (if workedYday st (Employee.id e) dayNum then 0.5 else 1.0)%float.

Definition spreadBias (st : State) (e : Employee.t) (dayNum : Z) : float :=
  if negb (spreadEnabled p) then 1.0%float
  else
    let w := dayToWeekIdx dayNum in
    let desired := desiredOf e in
    if desired =? 0 then 1.0%float
    else
      let targetPerWeek := (JS.num desired / JS.num (Z.max 1 weeksInMonth))%float in
      let current :=
        default 0 (default [] (weekCount st !! Employee.id e) !! Z.to_nat w) in
      if (JS.num current <? JS.floor targetPerWeek)%float then 1.2%float
      else if (JS.ceil targetPerWeek <? JS.num current)%float then 0.7%float
      else 1.0%float.

(** Bias for consecutive shifts. *)
Definition consecutiveBias (st : State) (e : Employee.t) : float :=
  let currentStreak := streakOf st (Employee.id e) in
  let desired := desiredOf e in
  let assigned := count st (Employee.id e) in
  if currentStreak =? 0 then 1.2%float
  else if (1 <=? currentStreak) && (currentStreak <? maxStreak p) then 1.1%float
  else if maxStreak p <=? currentStreak then 0.0%float
  else
    let remaining := Z.max 0 (desired - assigned) in
    if (remaining <=? 2) && (1 <=? currentStreak) then 1.3%float else 1.0%float.

Definition desiredBias (st : State) (e : Employee.t) : float :=
  let desired := desiredOf e in
  let cnt := count st (Employee.id e) in
  if desired =? 0 then 0.9%float
  else
    let remain := Z.max 0 (desired - cnt) in
    if 0 <? remain then
      (1.6 + JS.min 1.2 (JS.num remain / JS.max 2 (JS.num desired * 0.5)))%float
    else if cnt =? desired then 0.5%float else 0.25%float.

Definition eligibilityReasons (st : State) (cand : Employee.t) (shiftName : Shift)
    (dayNum : Z) (dayAlreadyPicked : list string) (relax : Relax) : list Reason :=
  let i := Employee.id cand in
  (if includes dayAlreadyPicked i then [AlreadyOnOtherShift] else [])
  ++ (if negb (ignoreStreak relax) && (maxStreak p <=? streakOf st i)
      then [StreakOver (maxStreak p)] else [])
  ++ (if bool_decide (shiftName = day) && enforceNoMorningAfterNight p
         && bool_decide (lastNightOn st !! i = Some (ymd (year p) (monthIndex0 p) (dayNum - 1)))
      then [MorningAfterNight] else [])
  ++ (if negb (ignoreWeeklyCap relax) && (weeklyCap p <=? windowCount st i dayNum 7)
      then [WeeklyCapReached (weeklyCap p)] else [])
  ++ (if maxStreak p <=? streakOf st i then [ConsecutiveLimit (maxStreak p)] else []).

Definition eligible (st : State) (cand : Employee.t) (shiftName : Shift)
    (dayNum : Z) (dayAlreadyPicked : list string) (relax : Relax) : bool :=
  Nat.eqb (length (eligibilityReasons st cand shiftName dayNum dayAlreadyPicked relax)) 0.

Definition weightFor (st : State) (e : Employee.t) (shiftName : Shift) (dayNum : Z)
    (underTargetExistsGlobally : bool) : float * State :=
  if underTargetExistsGlobally && (desiredOf e <=? count st (Employee.id e))
  then (JS.num 0, st)
  else
    let '(u, st') := rng st in
    (JS.max (JS.num 0)
       (prefWeight e shiftName * desiredBias st e * fairness st e * restBias st e dayNum
        * spreadBias st e dayNum * consecutiveBias st e * (0.95 + u * 0.1))%float,
     st').

(** [available.map((e) => weightFor(e, ...))]: the draws are made from left
    to right. *)
Fixpoint weightsFor (st : State) (available : list Employee.t) (shiftName : Shift)
    (dayNum : Z) (under : bool) : list float * State :=
  match available with
  | [] => ([], st)
  | e :: rest =>
      let '(w, st1) := weightFor st e shiftName dayNum under in
      let '(ws, st2) := weightsFor st1 rest shiftName dayNum under in
      (w :: ws, st2)
  end.

Definition withoutId (i : string) (l : list Employee.t) : list Employee.t :=
  List.filter (fun e => bool_decide (Employee.id e ≠ i)) l.

(** The [while] loop of [tryPool].  Every iteration that does not leave the
    loop removes the drawn candidate from [available], so [length available]
    iterations are enough ([tryPoolLoop_fuel]). *)
Fixpoint tryPoolLoop (fuel : nat) (needed : Z) (shiftName : Shift) (dayNum : Z) (dt : Date)
    (under : bool) (st : State) (picks dayAlreadyPicked : list string)
    (available : list Employee.t) : State * list string * list string :=
  match fuel with
  | O => (st, picks, dayAlreadyPicked)
  | S fuel' =>
      if (Z.of_nat (length picks) <? needed) && (0 <? Z.of_nat (length available)) then
        let '(weights, st1) := weightsFor st available shiftName dayNum under in
        let '(picked, st2) := randomPickWeighted available weights st1 in
        match picked with
        | None => (st2, picks, dayAlreadyPicked)
        | Some pk =>
            let i := Employee.id pk in
            if under && (desiredOf pk <=? count st2 i) then
              tryPoolLoop fuel' needed shiftName dayNum dt under st2 picks dayAlreadyPicked
                (withoutId i available)
            else
              tryPoolLoop fuel' needed shiftName dayNum dt under
                (updateOnAssign st2 i dt dayNum shiftName)
                (picks ++ [i]) (dayAlreadyPicked ++ [i]) (withoutId i available)
        end
      else (st, picks, dayAlreadyPicked)
  end.

Definition underTargetExists (st : State) (pool : list Employee.t) (shiftName : Shift)
    (dayNum : Z) (dayAlreadyPicked : list string) : bool :=
  existsb (fun e => (count st (Employee.id e) <? desiredOf e)
                    && eligible st e shiftName dayNum dayAlreadyPicked noRelax) pool.

Definition tryPool (needed : Z) (shiftName : Shift) (dayNum : Z) (dt : Date)
    (primaryPool reservePool pool : list Employee.t)
    (s : State * list string * list string) : State * list string * list string :=
  let '(st, picks, dayAlreadyPicked) := s in
  let allAllowed := if allowReserves then primaryPool ++ reservePool else primaryPool in
  let under := underTargetExists st allAllowed shiftName dayNum dayAlreadyPicked in
  let available :=
    List.filter (fun e => eligible st e shiftName dayNum dayAlreadyPicked noRelax) pool in
  tryPoolLoop (length available) needed shiftName dayNum dt under st picks dayAlreadyPicked
    available.

(** [reasonCounts[r] = (reasonCounts[r] || 0) + 1], keys in insertion order. *)
Fixpoint bump (r : Reason) (l : list (Reason * Z)) : list (Reason * Z) :=
  match l with
  | [] => [(r, 1)]
  | (r', n) :: l' => if bool_decide (r' = r) then (r', n + 1) :: l' else (r', n) :: bump r l'
  end.

Definition diagnostics (st : State) (pools : list Employee.t) (shiftName : Shift)
    (dayNum : Z) (dayAlreadyPicked : list string) : list (list (Reason * Z)) :=
  let reasonCounts :=
    fold_left
      (fun acc cand =>
         let rs := eligibilityReasons st cand shiftName dayNum dayAlreadyPicked noRelax in
         let underExists := underTargetExists st pools shiftName dayNum dayAlreadyPicked in
         let rs' :=
           if underExists && (desiredOf cand <=? count st (Employee.id cand))
           then rs ++ [HardCeiling] else rs in
         fold_left (fun acc' r => bump r acc') rs' acc)
      pools [] in
  match reasonCounts with [] => [] | _ => [reasonCounts] end.

Record ShiftResult := mkShiftResult {
  picks : list string;
  missing : Z;
  issues : list (list (Reason * Z))
}.

Definition pickShift (st : State) (needed : Z) (shiftName : Shift) (dayNum : Z) (dt : Date)
    (primaryPool reservePool : list Employee.t) (dayAlreadyPicked : list string)
  : ShiftResult * State :=
  let s1 := tryPool needed shiftName dayNum dt primaryPool reservePool primaryPool
              (st, [], dayAlreadyPicked) in
  let s2 :=
    if allowReserves && (Z.of_nat (length (snd (fst s1))) <? needed)
    then tryPool needed shiftName dayNum dt primaryPool reservePool reservePool s1
    else s1 in
  let '(st2, picks2, dap2) := s2 in
  let issues2 :=
    if Z.of_nat (length picks2) <? needed then
      diagnostics st2 (if allowReserves then primaryPool ++ reservePool else primaryPool)
        shiftName dayNum dap2
    else [] in
  (mkShiftResult picks2 (Z.max 0 (needed - Z.of_nat (length picks2))) issues2, st2).

(** The body of the loop over the days of pass 1. *)
Definition strictDay (s : State * list Row) (dayNum : Z) : State * list Row :=
  let '(st, rows) := s in
  let dt := ymd (year p) (monthIndex0 p) dayNum in
  let '(dayRes, st1) := pickShift st (Z.max 0 (daySlots p)) day dayNum dt primaries reserves [] in
  let '(nightRes, st2) :=
    pickShift st1 (Z.max 0 (nightSlots p)) night dayNum dt primaries reserves (picks dayRes) in
  (st2,
   rows ++ [mkRow dt (picks dayRes) (picks nightRes) (missing dayRes) (missing nightRes)
                  (issues dayRes) (issues nightRes)]).

Definition dayNumbers : list Z := map Z.of_nat (seq 1 (Z.to_nat dInM)).

(** Pass 1: the strict fill. *)
Definition strictPass (st : State) : State * list Row :=
  fold_left strictDay dayNumbers (st, []).


(** Pass 2: the hard fill. *)

(** The comparator of [pickStage]: the neediest first (by remaining desired
    shifts), then the least assigned. *)
Definition neediest (st : State) (a b : Employee.t) : Z :=
  let ra := desiredOf a - count st (Employee.id a) in
  let rb := desiredOf b - count st (Employee.id b) in
  if negb (rb =? ra) then rb - ra
  else count st (Employee.id a) - count st (Employee.id b).

(** [pickStage(relax)]: [None] when it returns [false]; otherwise the new
    tracking state and the list [already] after the push. *)
Definition pickStage (shiftName : Shift) (dayNum : Z) (dt : Date)
    (other : list string) (relax : Relax) (st : State) (already : list string)
  : option (State * list string) :=
  let pools := primaries ++ reserves in
  let under :=
    List.filter (fun e => count st (Employee.id e) <? desiredOf e) pools in
  let order :=
    List.filter
      (fun e => negb (includes already (Employee.id e))
                && negb (includes other (Employee.id e))
                && eligible st e shiftName dayNum (already ++ other) relax)
      (match under with [] => pools | _ => under end) in
  match jsSort (neediest st) order with
  | [] => None
  | chosen :: _ =>
      Some (updateOnAssign st (Employee.id chosen) dt dayNum shiftName,
            already ++ [Employee.id chosen])
  end.

(** The gradual relaxation of [fillSlot]: the stages are tried in order
    and the first that picks someone wins; when all three fail, nothing
    changes. *)
Definition relaxStages (shiftName : Shift) (dayNum : Z) (dt : Date)
    (other : list string) (st : State) (already : list string) : State * list string :=
  let stage := pickStage shiftName dayNum dt other in
  match stage noRelax st already with
  | Some r => r
  | None =>
      match stage (mkRelax true false) st already with
      | Some r => r
      | None =>
          match stage (mkRelax true true) st already with
          | Some r => r
          | None => (st, already)
          end
      end
  end.

Definition fillSlot (st : State) (row : Row) (dayIdx : nat) (shiftName : Shift)
  : State * Row :=
  let dt := date row in
  let dayNum := Z.of_nat dayIdx + 1 in
  let already := match shiftName with day => dayIds row | night => nightIds row end in
  let other := match shiftName with day => nightIds row | night => dayIds row end in
  let '(st', already') := relaxStages shiftName dayNum dt other st already in
  (st',
   match shiftName with
   | day =>
       mkRow (date row) already' (nightIds row)
         (Z.max 0 (daySlots p - Z.of_nat (length already'))) (nightMissing row)
         (dayIssues row) (nightIssues row)
   | night =>
       mkRow (date row) (dayIds row) already'
         (dayMissing row) (Z.max 0 (nightSlots p - Z.of_nat (length already')))
         (dayIssues row) (nightIssues row)
   end).

Definition missingOf (row : Row) (shiftName : Shift) : Z :=
  match shiftName with day => dayMissing row | night => nightMissing row end.

(** [while (row.dayMissing > 0) fillSlot(idx, "day")] and its night twin.
    The loop has no bound of its own: [None] says that [fuel] iterations
    did not end it. *)
Fixpoint fillWhile (fuel : nat) (dayIdx : nat) (shiftName : Shift) (st : State) (row : Row)
  : option (State * Row) :=
  if 0 <? missingOf row shiftName then
    match fuel with
    | O => None
    | S fuel' =>
        let '(st', row') := fillSlot st row dayIdx shiftName in
        fillWhile fuel' dayIdx shiftName st' row'
    end
  else Some (st, row).

(** [days.forEach((row, idx) => ...)] from index [dayIdx] on. *)
Fixpoint hardFillRows (fuel : nat) (dayIdx : nat) (st : State) (rows : list Row)
  : option (State * list Row) :=
  match rows with
  | [] => Some (st, [])
  | row :: rest =>
      match fillWhile fuel dayIdx day st row with
      | None => None
      | Some (st1, row1) =>
          match fillWhile fuel dayIdx night st1 row1 with
          | None => None
          | Some (st2, row2) =>
              match hardFillRows fuel (S dayIdx) st2 rest with
              | None => None
              | Some (st3, rest') => Some (st3, row2 :: rest')
              end
          end
      end
  end.

(** [generateSchedule(params)].  [entropy] is the value of
    [Math.floor(Math.random() * 4294967296)], read only when no seed is
    given; [fuel] bounds the iterations of each [while] loop of pass 2, and
    the result is [None] when one of them does not end within it. *)
Definition generateSchedule (fuel : nat) (entropy : Z) : option Schedule :=
  let seed0 := match seedIn p with Some s => s | None => entropy end in
  let '(st, rows) := strictPass (initState seed0) in
  let m := mkMeta totalDemandOf sumDesiredPrimariesOf allowReserves in
  if hardFill p then
    match hardFillRows fuel 0 st rows with
    | Some (_, rows') => Some (mkSchedule rows' m)
    | None => None
    end
  else Some (mkSchedule rows m).

End Generator.

(** ** Manual override *)

Definition idsOf (shiftName : Shift) (row : Row) : list string :=
  match shiftName with day => dayIds row | night => nightIds row end.

Definition otherShift (shiftName : Shift) : Shift :=
  match shiftName with day => night | night => day end.

(** The function mapped over [prev.days] by [assignManual]. *)
Definition assignManualRow (dt : Date) (shiftName : Shift) (employeeId : string) (row : Row)
  : Row :=
  if bool_decide (date row ≠ dt) then row
  else if includes (idsOf (otherShift shiftName) row) employeeId then row
  else
    let nextIds := idsOf shiftName row ++ [employeeId] in
    let nextMissing := Z.max 0 (missingOf row shiftName - 1) in
    match shiftName with
    | day =>
        mkRow (date row) nextIds (nightIds row) nextMissing (nightMissing row)
          (dayIssues row) (nightIssues row)
    | night =>
        mkRow (date row) (dayIds row) nextIds (dayMissing row) nextMissing
          (dayIssues row) (nightIssues row)
    end.

Definition assignManual (dt : Date) (shiftName : Shift) (employeeId : string) (prev : Schedule)
  : Schedule :=
  mkSchedule (map (assignManualRow dt shiftName employeeId) (days prev)) (meta prev).

(** ** Properties stated by the specification, as predicates *)

(** No employee of the night list of a row is on the day list of the next
    row. *)
Definition noMorningAfterNight (rows : list Row) : Prop :=
  ∀ (k : nat) (r1 r2 : Row) (i : string),
    rows !! k = Some r1 → rows !! S k = Some r2 → i ∈ nightIds r1 → i ∉ dayIds r2.

(** The trailing window as the specification words it: the days worked
    among [d-7 .. d-1]. *)
Definition trailingSevenCount (st : State) (i : string) (dayNum : Z) : Z :=
  Z.of_nat (size (filter (λ d, dayNum - 7 ≤ d ≤ dayNum - 1) (workedDays st i))).

(** The window the code counts: the days worked among
    [max(1, d-6) .. d-1]. *)
Definition trailingSixCount (st : State) (i : string) (dayNum : Z) : Z :=
  Z.of_nat (size (filter (λ d, Z.max 1 (dayNum - 6) ≤ d ≤ dayNum - 1) (workedDays st i))).

(** The linear congruential recurrence of the specification. *)
Definition lcgNext (s : Z) : Z := (s * 1664525 + 1013904223) mod 2 ^ 32.

(** The state of the tracker after [i] has been assigned the day shift on
    each of the days [1 .. n] of the month. *)
Fixpoint workedFirstDays (p : Params) (i : string) (n : nat) : State :=
  match n with
  | O => initState p 0
  | S n' =>
      updateOnAssign p (workedFirstDays p i n') i
        (ymd (year p) (monthIndex0 p) (Z.of_nat n)) (Z.of_nat n) day
  end.

(** The state of the generator after [n] draws. *)
Definition afterDraws (n : nat) (st : State) : State :=
  Nat.iter n (λ s, snd (rng s)) st.

(** A row whose day list and night list share no id. *)
Definition rowDisjoint (row : Row) : Prop := dayIds row ## nightIds row.

(** The invariant of the loop over the days: the rows built so far respect
    the rule, and the nights of the last row are the recorded ones. *)
Definition strictInv (p : Params) (s : State * list Row) : Prop :=
  noMorningAfterNight (snd s)
  ∧ ∀ r, last (snd s) = Some r →
      ∀ i, i ∈ nightIds r →
        lastNightOn (fst s) !! i
        = Some (ymd (year p) (monthIndex0 p) (Z.of_nat (length (snd s)))).

(** ** Configurations used below (all for January 2025) *)

Definition january2025 (emps : list Employee.t) (daySeats nightSeats cap streakMax : Z)
    (s : Z) (hard : bool) : Params :=
  mkParams emps 2025 0 daySeats nightSeats true cap streakMax true false (Some s) hard.

(** One employee for one day seat and one night seat, hard fill on. *)
Definition soloStaff : Params :=
  january2025 [Employee.mk "a" Neither 10 false] 1 1 5 5 42 true.

(** A day specialist and a night specialist under a weekly cap of 3, hard
    fill on. *)
Definition twoSpecialists : Params :=
  january2025 [Employee.mk "D1" Day 31 false; Employee.mk "N1" Night 32 false] 1 1 3 5 42 true.

(** A night specialist listed before a flexible employee, one day seat;
    the third draw of seed 1869465083 is 0. *)
Definition nightFirst : Params :=
  january2025 [Employee.mk "N" Night 10 false; Employee.mk "X" Neither 10 false]
    1 0 5 5 1869465083 false.

(** An employee who wants no shift next to one who wants a hundred. *)
Definition zeroAndHundred : Params :=
  january2025 [Employee.mk "A" Neither 0 false; Employee.mk "B" Neither 100 false]
    1 1 5 5 42 false.

(** A weekly cap of 1. *)
Definition capOne : Params :=
  january2025 [Employee.mk "a" Neither 10 false] 1 0 1 5 42 false.

(** An employee who wants two shifts. *)
Definition shortTarget : Params :=
  january2025 [Employee.mk "a" Neither 2 false] 1 0 5 5 42 false.

(** The self-test roster of the source (test A) with hard fill off. *)
Definition selfTestA : Params :=
  january2025
    [Employee.mk "e1" Day 10 false; Employee.mk "e2" Night 10 false;
     Employee.mk "e3" Neither 10 false; Employee.mk "r1" Neither 0 true]
    1 1 5 5 42 false.

(** The roster of test C of the source: the desired shifts fall short of
    the demand. *)
Definition selfTestC : Params :=
  january2025 [Employee.mk "e1" Day 2 false; Employee.mk "e2" Night 2 false] 1 1 5 5 7 false.

(** A roster of four with a weekly cap of 3 and hard fill on: every seat of
    the month ends up filled. *)
Definition fourStaff : Params :=
  january2025
    [Employee.mk "D1" Day 31 false; Employee.mk "D0" Day 0 false;
     Employee.mk "N1" Night 31 false; Employee.mk "N0" Night 0 false]
    1 1 3 5 42 true.

(** ** Further parts of the program *)

(** *** Removal by hand *)

(** The function mapped over [prev.days] by [removeFromShift]. *)
Definition removeFromShiftRow (dt : Date) (shiftName : Shift) (employeeId : string) (row : Row)
  : Row :=
  if bool_decide (date row ≠ dt) then row
  else
    let nextIds := List.filter (fun i => bool_decide (i ≠ employeeId)) (idsOf shiftName row) in
    let nextMissing := Z.max 0 (missingOf row shiftName + 1) in
    match shiftName with
    | day =>
        mkRow (date row) nextIds (nightIds row) nextMissing (nightMissing row)
          (dayIssues row) (nightIssues row)
    | night =>
        mkRow (date row) (dayIds row) nextIds (dayMissing row) nextMissing
          (dayIssues row) (nightIssues row)
    end.

Definition removeFromShift (dt : Date) (shiftName : Shift) (employeeId : string)
    (prev : Schedule) : Schedule :=
  mkSchedule (map (removeFromShiftRow dt shiftName employeeId) (days prev)) (meta prev).

(** *** The counters shown beside the table *)

(** One entry of [counters] (the display name, which is copied from the
    employee, is left out). *)
Record Counter := mkCounter {
  cId : string;
  cDesired : Z;
  cDay : Z;
  cNight : Z;
  cTotal : Z;
  cDelta : Z;
  cIsReserve : bool
}.

(** The object [map] of [counters]: per id, the desired count and the two
    tallies.  A later employee with the same id replaces an earlier one. *)
Definition counterMap (emps : list Employee.t) : gmap string (Z * Z * Z) :=
  fold_left (λ m e, <[Employee.id e := (Employee.desiredShifts e, 0, 0)]> m) emps ∅.

(** [if (map[id]) map[id].day++] and its night twin. *)
Definition tallyDay (m : gmap string (Z * Z * Z)) (i : string) : gmap string (Z * Z * Z) :=
  match m !! i with
  | Some (des, d, n) => <[i := (des, d + 1, n)]> m
  | None => m
  end.

Definition tallyNight (m : gmap string (Z * Z * Z)) (i : string) : gmap string (Z * Z * Z) :=
  match m !! i with
  | Some (des, d, n) => <[i := (des, d, n + 1)]> m
  | None => m
  end.

Definition tallyRow (m : gmap string (Z * Z * Z)) (r : Row) : gmap string (Z * Z * Z) :=
  fold_left tallyNight (nightIds r) (fold_left tallyDay (dayIds r) m).

Definition counters (emps : list Employee.t) (rows : list Row) : list Counter :=
  let m := fold_left tallyRow rows (counterMap emps) in
  map (λ e,
         let '(des, d, n) :=
           default (Employee.desiredShifts e, 0, 0) (m !! Employee.id e) in
         mkCounter (Employee.id e) des d n (d + n) (d + n - des) (Employee.isReserve e))
      emps.

(** *** The menu of the manual assignment *)

(** [assignments.days.find(d => d.date === date)] *)
Definition findRow (rows : list Row) (dt : Date) : option Row :=
  List.find (λ r, bool_decide (date r = dt)) rows.

Section AssignMenu.

(** Whether [e.name.trim()] is non-empty.  The display name is not among
    the fields of [Employee.t], so the test is a parameter. *)
Context (hasName : Employee.t → bool).

(** [availableEmployees]: the employees offered by the menu of a shift. *)
Definition availableEmployees (emps : list Employee.t) (rows : list Row) (dt : Date)
    (shiftName : Shift) : list Employee.t :=
  List.filter
    (λ e,
       if negb (hasName e) then false
       else
         match findRow rows dt with
         | None => true
         | Some r =>
             if includes (idsOf shiftName r) (Employee.id e)
                || includes (idsOf (otherShift shiftName) r) (Employee.id e)
             then false else true
         end)
    emps.

End AssignMenu.

(** *** The CSV export *)

Module CSV.

Definition quote : Ascii.ascii := Ascii.ascii_of_nat 34.
Definition comma : Ascii.ascii := Ascii.ascii_of_nat 44.
Definition newline : Ascii.ascii := Ascii.ascii_of_nat 10.

(** [str.includes(c)] for a one-character string [c]. *)
Fixpoint includesChar (c : Ascii.ascii) (s : string) : bool :=
  match s with
  | EmptyString => false
  | String x s' => Ascii.eqb x c || includesChar c s'
  end.

(** [str.replace] of every quote (the pattern is global) by two quotes. *)
Fixpoint doubleQuotes (s : string) : string :=
  match s with
  | EmptyString => EmptyString
  | String x s' =>
      if Ascii.eqb x quote then String quote (String quote (doubleQuotes s'))
      else String x (doubleQuotes s')
  end.

(** [escapeCSV] of [exportToCSV]. *)
Definition escapeCSV (s : string) : string :=
  if includesChar comma s || includesChar quote s || includesChar newline s
  then String quote (doubleQuotes s +:+ String quote EmptyString)
  else s.

(** How a reader of the file takes a field back: the text of a field that
    does not start with a quote is the field; otherwise it is what follows
    the quote up to the first quote that is not doubled, each doubled quote
    read as one. *)
Fixpoint readQuoted (s : string) : string :=
  match s with
  | EmptyString => EmptyString
  | String x s' =>
      if Ascii.eqb x quote then
        match s' with
        | String y s'' => if Ascii.eqb y quote then String quote (readQuoted s'') else EmptyString
        | EmptyString => EmptyString
        end
      else String x (readQuoted s')
  end.

Definition readField (s : string) : string :=
  match s with
  | String x s' => if Ascii.eqb x quote then readQuoted s' else s
  | EmptyString => EmptyString
  end.

End CSV.

(** ** Notions used by the further properties *)

(** The values the tracker holds for one employee. *)
Definition entry (st : State) (i : string) :=
  (assignedCount st !! i, lastNightOn st !! i, lastWorkedOn st !! i,
   streak st !! i, workedOnDay st !! i, weekCount st !! i).

(** The pool the strict pass may draw from. *)
Definition allowedPool (p : Params) : list Employee.t :=
  if allowReserves p then primaries p ++ reserves p else primaries p.

(** A row as every pass leaves it: nobody twice, no seat beyond the
    configured ones, missing counts that match the lists, ids of the given
    roster. *)
Definition rowSound (p : Params) (roster : list Employee.t) (row : Row) : Prop :=
  NoDup (dayIds row ++ nightIds row)
  ∧ Z.of_nat (length (dayIds row)) ≤ Z.max 0 (daySlots p)
  ∧ Z.of_nat (length (nightIds row)) ≤ Z.max 0 (nightSlots p)
  ∧ dayMissing row = Z.max 0 (daySlots p - Z.of_nat (length (dayIds row)))
  ∧ nightMissing row = Z.max 0 (nightSlots p - Z.of_nat (length (nightIds row)))
  ∧ ∀ i, i ∈ dayIds row ++ nightIds row → ∃ e, e ∈ roster ∧ Employee.id e = i.

(** Whether [i] is listed in the row, on either shift. *)
Definition worksOn (i : string) (row : Row) : bool :=
  includes (dayIds row ++ nightIds row) i.

(** The number of rows in which [i] is listed. *)
Definition appearances (i : string) (rows : list Row) : Z :=
  Z.of_nat (length (List.filter (worksOn i) rows)).



(** The seats configured for a shift. *)
Definition slotsOf (p : Params) (shiftName : Shift) : Z :=
  match shiftName with day => daySlots p | night => nightSlots p end.

(** [r'] is [r] with ids appended: same date, same diagnostics, and the
    lists of [r] are the beginnings of the lists of [r']. *)
Definition rowExtends (r r' : Row) : Prop :=
  date r' = date r
  ∧ dayIds r `prefix_of` dayIds r' ∧ nightIds r `prefix_of` nightIds r'
  ∧ dayIssues r' = dayIssues r ∧ nightIssues r' = nightIssues r.

(** The same parameters with the hard-fill option set to [b]. *)
Definition withHardFill (p : Params) (b : bool) : Params :=
  mkParams (employees p) (year p) (monthIndex0 p) (daySlots p) (nightSlots p)
    (enforceNoMorningAfterNight p) (weeklyCap p) (maxStreak p) (spreadEnabled p)
    (useReservesAuto p) (seedIn p) b.

(** The seed a run starts from. *)
Definition seedOf (p : Params) (entropy : Z) : Z :=
  match seedIn p with Some s => s | None => entropy end.

(** *** The calendar, as the Gregorian rules word it *)

(** A leap year: divisible by 4, and not by 100 unless by 400. *)
Definition isLeap (y : Z) : bool :=
  (y mod 4 =? 0) && (negb (y mod 100 =? 0) || (y mod 400 =? 0)).

(** The number of days of month [m] (0 = January) of year [y]. *)
Definition gregorianLength (y m : Z) : Z :=
  if m =? 1 then (if isLeap y then 29 else 28)
  else if (m =? 3) || (m =? 5) || (m =? 8) || (m =? 10) then 30 else 31.

(** Days from the first of March of year 0 to the first of March of year
    [y]: the part of [daysFromCivil] that depends on the year. *)
Definition yearStart (y : Z) : Z :=
  let era := y / 400 in
  let yoe := y - era * 400 in
  era * 146097 + (yoe * 365 + yoe / 4 - yoe / 100).

(** A row whose missing counts are the seats its lists leave open. *)
Definition missingConsistent (p : Params) (row : Row) : Prop :=
  dayMissing row = Z.max 0 (daySlots p - Z.of_nat (length (dayIds row)))
  ∧ nightMissing row = Z.max 0 (nightSlots p - Z.of_nat (length (nightIds row))).

(** The number of times [i] occurs in a list of ids, and the number of
    rows that list [i] on a given shift. *)
Definition occurrences (i : string) (l : list string) : Z :=
  Z.of_nat (length (List.filter (λ j, bool_decide (j = i)) l)).

Definition shiftAppearances (sh : Shift) (i : string) (rows : list Row) : Z :=
  Z.of_nat (length (List.filter (λ r, includes (idsOf sh r) i) rows)).

(** The seats of a table, filled or reported missing. *)
Definition seatsOf (rows : list Row) : Z :=
  fold_right
    (λ r s, Z.of_nat (length (dayIds r)) + dayMissing r
            + Z.of_nat (length (nightIds r)) + nightMissing r + s)
    0 rows.

(** *** The diagnostics of a blank seat *)

(** The reasons that the diagnostics count for one candidate: the
    violations of the evaluator, and the hard ceiling when it excludes the
    candidate. *)
Definition blockers (p : Params) (st : State) (pools : list Employee.t) (shiftName : Shift)
    (dayNum : Z) (dayAlreadyPicked : list string) (cand : Employee.t) : list Reason :=
  let rs := eligibilityReasons p st cand shiftName dayNum dayAlreadyPicked noRelax in
  if underTargetExists p st pools shiftName dayNum dayAlreadyPicked
     && (desiredOf cand <=? count st (Employee.id cand))
  then rs ++ [HardCeiling] else rs.

(** The count a summary holds for a reason (0 when it does not mention
    it). *)
Fixpoint countOf (r : Reason) (l : list (Reason * Z)) : Z :=
  match l with
  | [] => 0
  | (r', n) :: l' => if bool_decide (r' = r) then n else countOf r l'
  end.

(** * Properties *)

(** ** The model on the calendar and on the self-tests of the source *)

Example daysInMonth_2025 :
  map (daysInMonth 2025) [0; 1; 2; 3; 4; 5; 6; 7; 8; 9; 10; 11]
  = [31; 28; 31; 30; 31; 30; 31; 31; 30; 31; 30; 31].
Proof. reflexivity. Qed.

Example daysInMonth_february :
  daysInMonth 2024 1 = 29 ∧ daysInMonth 2000 1 = 29 ∧ daysInMonth 2100 1 = 28.
Proof. repeat split. Qed.

Example getDay_january_2025 : getDay 2025 0 1 = 3 ∧ getDay 1970 0 1 = 4.
Proof. split; reflexivity. Qed.

Example floor_and_ceil :
  JS.floor (JS.num 10 / JS.num 4)%float = 2%float
  ∧ JS.ceil (JS.num 10 / JS.num 4)%float = 3%float.
Proof. split; vm_compute; reflexivity. Qed.

(** Test A: a row per day, day and night lists with different people. *)
Example selfTest_A :
  ∃ out, generateSchedule selfTestA 0 0 = Some out
    ∧ Z.of_nat (length (days out)) = daysInMonth 2025 0
    ∧ forallb (λ r, forallb (λ i, negb (includes (nightIds r) i)) (dayIds r)) (days out) = true.
Proof.
  remember (generateSchedule selfTestA 0 0) as g eqn:E. vm_compute in E. subst g.
  eexists. split; [reflexivity|]. split; vm_compute; reflexivity.
Qed.

(** Test C: blanks appear when the desired shifts fall short of demand. *)
Example selfTest_C :
  ∃ out, generateSchedule selfTestC 0 0 = Some out
    ∧ existsb (λ r, (0 <? dayMissing r) || (0 <? nightMissing r)) (days out) = true.
Proof.
  remember (generateSchedule selfTestC 0 0) as g eqn:E. vm_compute in E. subst g.
  eexists. split; [reflexivity|]. vm_compute. reflexivity.
Qed.

(** ** Lists, picks and the generator state *)

Section ListFacts.

Context {A : Type}.

Lemma elem_of_List_filter (f : A → bool) (l : list A) (x : A) :
  x ∈ List.filter f l ↔ x ∈ l ∧ f x = true.
Proof. rewrite !list_elem_of_In. apply filter_In. Qed.

Lemma pickLoop_elem_of (r : float) (items : list A) (ws : list float) (x : A) :
  pickLoop r items ws = Some x → x ∈ items.
Proof.
  revert r ws. induction items as [|y items IH]; intros r ws; simpl; [discriminate|].
  destruct ws as [|w ws]; [discriminate|].
  destruct (PrimFloat.leb _ _).
  - intros [= ->]. left.
  - intros H. right. eauto.
Qed.

(** Whatever the weights and the draw, the candidate returned by
    [randomPickWeighted] is one of the items. *)
Lemma randomPickWeighted_elem_of (items : list A) (ws : list float) (st st' : State) (x : A) :
  randomPickWeighted items ws st = (Some x, st') → x ∈ items.
Proof.
  unfold randomPickWeighted.
  destruct (_ || _); [discriminate|].
  destruct (rng st) as [u st1].
  destruct (pickLoop _ items ws) as [y|] eqn:E.
  - intros [= -> _]. eapply pickLoop_elem_of; exact E.
  - intros [= H _]. apply last_Some in H as [l' ->].
    apply elem_of_app. right. left.
Qed.

Lemma randomPickWeighted_tracking (items : list A) (ws : list float) (st : State) :
  ∃ s, snd (randomPickWeighted items ws st) = setSeed st s.
Proof.
  unfold randomPickWeighted. destruct (_ || _); simpl.
  - exists (seed st). by destruct st.
  - destruct (pickLoop _ items ws); eexists; reflexivity.
Qed.

Lemma sortInsert_elem_of (cmp : A → A → Z) (a x : A) (l : list A) :
  x ∈ sortInsert cmp a l ↔ x = a ∨ x ∈ l.
Proof.
  induction l as [|y l IH]; simpl.
  - rewrite list_elem_of_singleton, elem_of_nil. tauto.
  - destruct (cmp a y <=? 0); rewrite !elem_of_cons, ?IH; tauto.
Qed.

(** The sort is a rearrangement: it has the elements of its argument. *)
Lemma jsSort_elem_of (cmp : A → A → Z) (x : A) (l : list A) :
  x ∈ jsSort cmp l ↔ x ∈ l.
Proof.
  unfold jsSort. induction l as [|y l IH]; simpl; [done|].
  rewrite sortInsert_elem_of, elem_of_cons, IH. tauto.
Qed.

End ListFacts.

Lemma includes_true ids i : includes ids i = true ↔ i ∈ ids.
Proof. unfold includes. apply bool_decide_eq_true. Qed.

Lemma includes_false ids i : includes ids i = false ↔ i ∉ ids.
Proof. unfold includes. apply bool_decide_eq_false. Qed.

Lemma withoutId_elem_of i e l : e ∈ withoutId i l ↔ e ∈ l ∧ Employee.id e ≠ i.
Proof.
  unfold withoutId. rewrite elem_of_List_filter. by rewrite bool_decide_eq_true.
Qed.

Lemma withoutId_length_lt i e l :
  e ∈ l → Employee.id e = i → (length (withoutId i l) < length l)%nat.
Proof.
  intros Hin Hid. induction l as [|y l IH]; [by apply elem_of_nil in Hin|].
  unfold withoutId in *. simpl.
  pose proof (List.filter_length_le (λ e0, bool_decide (Employee.id e0 ≠ i)) l) as Hle.
  apply elem_of_cons in Hin as [<- | Hin].
  - rewrite bool_decide_eq_false_2 by (intros H; by apply H). lia.
  - specialize (IH Hin). destruct (bool_decide _); simpl; lia.
Qed.

(** Drawing weights and picking only advance the generator. *)
Lemma setSeed_setSeed st a b : setSeed (setSeed st a) b = setSeed st b.
Proof. reflexivity. Qed.

Lemma count_setSeed st s i : count (setSeed st s) i = count st i.
Proof. reflexivity. Qed.

Lemma weightFor_tracking p st e sh dn u :
  ∃ s, snd (weightFor p st e sh dn u) = setSeed st s.
Proof.
  unfold weightFor. destruct (u && _); simpl.
  - exists (seed st). by destruct st.
  - eexists. reflexivity.
Qed.

Lemma weightsFor_tracking p l :
  ∀ st sh dn u, ∃ s, snd (weightsFor p st l sh dn u) = setSeed st s.
Proof.
  induction l as [|e l IH]; intros st sh dn u; simpl.
  - exists (seed st). by destruct st.
  - destruct (weightFor_tracking p st e sh dn u) as [s1 H1].
    destruct (weightFor p st e sh dn u) as [w st1]. simpl in H1. subst st1.
    destruct (IH (setSeed st s1) sh dn u) as [s2 H2].
    destruct (weightsFor p (setSeed st s1) l sh dn u) as [ws st2]. simpl in *. subst st2.
    by exists s2.
Qed.

Lemma count_updateOnAssign p st i dt dn sh j :
  count (updateOnAssign p st i dt dn sh) j = count st j + (if decide (j = i) then 1 else 0).
Proof.
  unfold count at 1. simpl.
  destruct (decide (j = i)) as [-> | Hne].
  - by rewrite lookup_insert_eq.
  - rewrite lookup_insert_ne by done. unfold count. lia.
Qed.

(** ** The eligibility evaluator *)

Lemma eligible_true p st cand sh dn dap relax :
  eligible p st cand sh dn dap relax = true ↔
  eligibilityReasons p st cand sh dn dap relax = [].
Proof.
  unfold eligible. destruct (eligibilityReasons _ _ _ _ _ _ _); simpl; split; congruence.
Qed.

Lemma eligible_not_picked p st cand sh dn dap relax :
  eligible p st cand sh dn dap relax = true → Employee.id cand ∉ dap.
Proof.
  rewrite eligible_true. unfold eligibilityReasons. intros E.
  apply app_eq_nil in E as [E _].
  apply includes_false. destruct (includes dap (Employee.id cand)); [discriminate | reflexivity].
Qed.

(** The last check of the evaluator is not guarded by the relaxation mode. *)
Lemma eligible_at_limit p st cand sh dn dap relax :
  maxStreak p ≤ streakOf st (Employee.id cand) →
  eligible p st cand sh dn dap relax = false.
Proof.
  intros H. apply not_true_is_false. rewrite eligible_true.
  unfold eligibilityReasons.
  apply Z.leb_le in H. rewrite H.
  intros E. repeat (apply app_eq_nil in E; destruct E as [_ E]). discriminate.
Qed.

(** ** The loop of [tryPool] *)

(** X19.  [length available] iterations are enough: more fuel changes
    nothing. *)
Lemma tryPoolLoop_fuel p needed sh dn dt under :
  ∀ n m st picks dap available,
    (length available ≤ n)%nat → (length available ≤ m)%nat →
    tryPoolLoop p n needed sh dn dt under st picks dap available
    = tryPoolLoop p m needed sh dn dt under st picks dap available.
Proof.
  induction n as [|n IH]; intros m st picks dap available Hn Hm.
  - destruct available; [|simpl in Hn; lia].
    destruct m; [reflexivity|]. simpl. by rewrite andb_false_r.
  - destruct m as [|m].
    { destruct available; [|simpl in Hm; lia]. simpl. by rewrite andb_false_r. }
    simpl. destruct (_ && _); [|reflexivity].
    destruct (weightsFor _ _ _ _ _ _) as [ws st1].
    destruct (randomPickWeighted _ _ _) as [[pk|] st2] eqn:Epick; [|reflexivity].
    apply randomPickWeighted_elem_of in Epick.
    pose proof (withoutId_length_lt (Employee.id pk) pk available Epick eq_refl).
    destruct (_ && _); apply IH; lia.
Qed.

(** The picks of one run of the loop are ids of available candidates, and
    they are appended both to [picks] and to [dayAlreadyPicked]. *)
Lemma tryPoolLoop_picks p fuel needed sh dn dt under :
  ∀ st picks dap available st' picks' dap',
    tryPoolLoop p fuel needed sh dn dt under st picks dap available = (st', picks', dap') →
    ∃ new, picks' = picks ++ new ∧ dap' = dap ++ new
           ∧ ∀ i, i ∈ new → ∃ e, e ∈ available ∧ Employee.id e = i.
Proof.
  induction fuel as [|fuel IH]; intros st picks dap available st' picks' dap'; simpl.
  - intros [= <- <- <-]. exists []. rewrite !app_nil_r. repeat split.
    intros i Hi. by apply elem_of_nil in Hi.
  - destruct (_ && _).
    2:{ intros [= <- <- <-]. exists []. rewrite !app_nil_r. repeat split.
        intros i Hi. by apply elem_of_nil in Hi. }
    destruct (weightsFor _ _ _ _ _ _) as [ws st1].
    destruct (randomPickWeighted _ _ _) as [[pk|] st2] eqn:Epick.
    2:{ intros [= <- <- <-]. exists []. rewrite !app_nil_r. repeat split.
        intros i Hi. by apply elem_of_nil in Hi. }
    apply randomPickWeighted_elem_of in Epick.
    destruct (_ && _).
    + intros H. apply IH in H as (new & -> & -> & Hnew).
      exists new. repeat split; [done..|].
      intros i Hi. destruct (Hnew i Hi) as (e & He & <-).
      apply withoutId_elem_of in He as [He _]. eauto.
    + intros H. apply IH in H as (new & -> & -> & Hnew).
      exists (Employee.id pk :: new). rewrite <- !app_assoc. repeat split; [done..|].
      intros i [-> | Hi]%elem_of_cons; [eauto|].
      destruct (Hnew i Hi) as (e & He & <-).
      apply withoutId_elem_of in He as [He _]. eauto.
Qed.

(** While an under-target eligible candidate exists, the loop only accepts
    candidates below their desired count, each id at most once. *)
Lemma tryPoolLoop_ceiling p fuel needed sh dn dt :
  ∀ st picks dap available st' picks' dap',
    tryPoolLoop p fuel needed sh dn dt true st picks dap available = (st', picks', dap') →
    ∃ new, picks' = picks ++ new
      ∧ (∀ i, i ∈ new → ∃ e, e ∈ available ∧ Employee.id e = i ∧ count st i < desiredOf e)
      ∧ (∀ i, count st' i = count st i + (if decide (i ∈ new) then 1 else 0)).
Proof.
  assert (Hnone : ∀ (st : State) (picks : list string) (available : list Employee.t),
    ∃ new : list string, picks = picks ++ new
      ∧ (∀ i, i ∈ new → ∃ e, e ∈ available ∧ Employee.id e = i ∧ count st i < desiredOf e)
      ∧ (∀ i, count st i = count st i + (if decide (i ∈ new) then 1 else 0))).
  { intros st picks available. exists []. rewrite app_nil_r. split; [done|]. split.
    - intros i Hi. by apply elem_of_nil in Hi.
    - intros i. rewrite decide_False by apply not_elem_of_nil. lia. }
  induction fuel as [|fuel IH]; intros st picks dap available st' picks' dap'; simpl.
  - intros [= <- <- <-]. apply Hnone.
  - destruct (_ && _); [|intros [= <- <- <-]; apply Hnone].
    destruct (weightsFor_tracking p available st sh dn true) as [s1 H1].
    destruct (weightsFor p st available sh dn true) as [ws st1]. simpl in H1. subst st1.
    destruct (randomPickWeighted_tracking available ws (setSeed st s1)) as [s2 H2].
    destruct (randomPickWeighted available ws (setSeed st s1)) as [[pk|] st2] eqn:Epick;
      simpl in H2; subst st2.
    2:{ intros [= <- <- <-]. rewrite setSeed_setSeed.
        destruct (Hnone st picks available) as (new & Hp & Hn & Hc).
        exists new. split; [done|]. split; [done|]. intros i. rewrite count_setSeed. apply Hc. }
    apply randomPickWeighted_elem_of in Epick.
    rewrite setSeed_setSeed, count_setSeed.
    destruct (desiredOf pk <=? count st (Employee.id pk)) eqn:Ec; simpl.
    + intros H. apply IH in H as (new & -> & Hnew & Hcnt).
      exists new. split; [done|]. split.
      * intros i Hi. destruct (Hnew i Hi) as (e & He & <- & Hlt).
        apply withoutId_elem_of in He as [He _]. eauto.
      * intros i. by rewrite Hcnt.
    + intros H. apply IH in H as (new & -> & Hnew & Hcnt).
      exists (Employee.id pk :: new). rewrite <- app_assoc. split; [done|].
      assert (Hfresh : Employee.id pk ∉ new).
      { intros Hi. destruct (Hnew _ Hi) as (e & He & Hid & _).
        apply withoutId_elem_of in He as [_ He]. done. }
      split.
      * intros i [-> | Hi]%elem_of_cons.
        { exists pk. split; [done|]. split; [done|]. lia. }
        destruct (Hnew i Hi) as (e & He & <- & Hlt).
        apply withoutId_elem_of in He as [He Hne].
        exists e. split; [done|]. split; [done|].
        rewrite count_updateOnAssign, count_setSeed in Hlt.
        rewrite decide_False in Hlt by done. lia.
      * intros i. rewrite Hcnt, count_updateOnAssign, count_setSeed.
        destruct (decide (i = Employee.id pk)) as [-> | Hne].
        { rewrite decide_False by done. rewrite decide_True by left. lia. }
        destruct (decide (i ∈ new)) as [Hi | Hi].
        { rewrite decide_True by (by right). lia. }
        rewrite decide_False; [lia|]. intros [? | ?]%elem_of_cons; done.
Qed.

(** ** Disjoint day and night lists *)

Lemma tryPool_picks p needed sh dn dt prim res pool st picks dap st' picks' dap' :
  tryPool p needed sh dn dt prim res pool (st, picks, dap) = (st', picks', dap') →
  ∃ new, picks' = picks ++ new ∧ dap' = dap ++ new ∧ new ## dap.
Proof.
  unfold tryPool. intros H.
  apply tryPoolLoop_picks in H as (new & -> & -> & Hnew).
  exists new. repeat split; [done..|].
  intros i Hi Hdap. destruct (Hnew i Hi) as (e & He & <-).
  apply elem_of_List_filter in He as [_ He].
  by apply eligible_not_picked in He.
Qed.

(** Nobody picked for a shift was already picked that day. *)
Lemma pickShift_picks p st needed sh dn dt prim res dap r st' :
  pickShift p st needed sh dn dt prim res dap = (r, st') → picks r ## dap.
Proof.
  unfold pickShift.
  destruct (tryPool p needed sh dn dt prim res prim (st, [], dap)) as [[st1 picks1] dap1] eqn:E1.
  apply tryPool_picks in E1 as (new1 & -> & -> & Hd1). cbn [fst snd].
  destruct (allowReserves p && _).
  - destruct (tryPool p needed sh dn dt prim res res (st1, [] ++ new1, dap ++ new1))
      as [[st2 picks2] dap2] eqn:E2.
    apply tryPool_picks in E2 as (new2 & -> & -> & Hd2).
    intros [= <- _]. simpl. intros i Hi Hdap.
    apply elem_of_app in Hi as [Hi | Hi]; [by apply (Hd1 i) |].
    apply (Hd2 i Hi). apply elem_of_app. by left.
  - intros [= <- _]. simpl. done.
Qed.

Lemma strictDay_disjoint p st rows dn st' rows' :
  strictDay p (st, rows) dn = (st', rows') →
  Forall rowDisjoint rows → Forall rowDisjoint rows'.
Proof.
  unfold strictDay.
  destruct (pickShift p st _ day dn _ _ _ []) as [dayRes st1].
  destruct (pickShift p st1 _ night dn _ _ _ (picks dayRes)) as [nightRes st2] eqn:E.
  apply pickShift_picks in E.
  intros [= <- <-] H. apply Forall_app. split; [done|].
  apply Forall_singleton. unfold rowDisjoint. simpl.
  intros i Hd Hn. by apply (E i).
Qed.

Lemma strictPass_from_disjoint p l :
  ∀ s rows' st', fold_left (strictDay p) l s = (st', rows') →
    Forall rowDisjoint (snd s) → Forall rowDisjoint rows'.
Proof.
  induction l as [|dn l IH]; simpl; intros s rows' st'.
  - by intros ->.
  - intros H Hs. destruct s as [st rows].
    destruct (strictDay p (st, rows) dn) as [st1 rows1] eqn:E.
    eapply IH; [exact H|]. simpl. eapply strictDay_disjoint; eauto.
Qed.

Lemma strictPass_disjoint p st st' rows :
  strictPass p st = (st', rows) → Forall rowDisjoint rows.
Proof.
  unfold strictPass. intros H. eapply strictPass_from_disjoint; [exact H|]. constructor.
Qed.

(** A stage that picks someone appends one id that is on neither list of
    the row. *)
Lemma pickStage_appends p sh dn dt other relax st already st' already' :
  pickStage p sh dn dt other relax st already = Some (st', already') →
  ∃ i, already' = already ++ [i] ∧ (i ∉ other) ∧ (i ∉ already).
Proof.
  unfold pickStage.
  destruct (jsSort _ _) as [|chosen rest] eqn:E; [discriminate|].
  intros [= <- <-]. exists (Employee.id chosen). split; [done|].
  match type of E with
  | jsSort ?c ?l = _ =>
      assert (Hin : chosen ∈ l) by (apply (jsSort_elem_of c); rewrite E; left)
  end.
  apply elem_of_List_filter in Hin as [_ Hin].
  apply andb_true_iff in Hin as [Hin _]. apply andb_true_iff in Hin as [Ha Ho].
  apply negb_true_iff in Ha, Ho. by rewrite includes_false in Ha, Ho.
Qed.

Lemma relaxStages_appends p sh dn dt other st already st' already' :
  relaxStages p sh dn dt other st already = (st', already') →
  already' = already ∨ ∃ i, already' = already ++ [i] ∧ (i ∉ other) ∧ (i ∉ already).
Proof.
  unfold relaxStages.
  destruct (pickStage p sh dn dt other noRelax st already) as [[? ?]|] eqn:E1.
  { intros [= <- <-]. right. eapply pickStage_appends; exact E1. }
  destruct (pickStage p sh dn dt other (mkRelax true false) st already) as [[? ?]|] eqn:E2.
  { intros [= <- <-]. right. eapply pickStage_appends; exact E2. }
  destruct (pickStage p sh dn dt other (mkRelax true true) st already) as [[? ?]|] eqn:E3.
  { intros [= <- <-]. right. eapply pickStage_appends; exact E3. }
  intros [= <- <-]. by left.
Qed.

Lemma fillSlot_disjoint p st row idx sh st' row' :
  fillSlot p st row idx sh = (st', row') → rowDisjoint row → rowDisjoint row'.
Proof.
  unfold fillSlot, rowDisjoint.
  destruct (relaxStages p sh _ _ _ st _) as [st1 al1] eqn:E.
  apply relaxStages_appends in E.
  intros [= <- <-] Hd.
  destruct sh; simpl; destruct E as [-> | (i & -> & Hi & _)]; try done.
  - intros j Hj Hn. apply elem_of_app in Hj as [Hj | Hj]; [by apply (Hd j)|].
    apply list_elem_of_singleton in Hj as ->. done.
  - intros j Hj Hn. apply elem_of_app in Hn as [Hn | Hn]; [by apply (Hd j)|].
    apply list_elem_of_singleton in Hn as ->. done.
Qed.

Lemma fillWhile_disjoint p fuel idx sh :
  ∀ st row st' row', fillWhile p fuel idx sh st row = Some (st', row') →
    rowDisjoint row → rowDisjoint row'.
Proof.
  induction fuel as [|fuel IH]; intros st row st' row'; simpl.
  - destruct (0 <? _); [discriminate|]. by intros [= <- <-].
  - destruct (0 <? _); [|by intros [= <- <-]].
    destruct (fillSlot p st row idx sh) as [st1 row1] eqn:E.
    intros H Hd. eapply IH; [exact H|]. eapply fillSlot_disjoint; eauto.
Qed.

Lemma hardFillRows_disjoint p fuel rows :
  ∀ idx st st' rows', hardFillRows p fuel idx st rows = Some (st', rows') →
    Forall rowDisjoint rows → Forall rowDisjoint rows'.
Proof.
  induction rows as [|row rest IH]; intros idx st st' rows'; simpl.
  - by intros [= <- <-].
  - destruct (fillWhile p fuel idx day st row) as [[st1 row1]|] eqn:E1; [|discriminate].
    destruct (fillWhile p fuel idx night st1 row1) as [[st2 row2]|] eqn:E2; [|discriminate].
    destruct (hardFillRows p fuel (S idx) st2 rest) as [[st3 rest']|] eqn:E3; [|discriminate].
    intros [= <- <-] Hd. apply Forall_cons in Hd as [Hrow Hrest].
    apply Forall_cons. split.
    + eapply fillWhile_disjoint; [exact E2|]. eapply fillWhile_disjoint; eauto.
    + eapply IH; eauto.
Qed.

(** ** The [while] loops of the hard fill *)

Lemma fillWhile_done p fuel idx sh st row :
  missingOf row sh ≤ 0 → fillWhile p fuel idx sh st row = Some (st, row).
Proof.
  intros H. destruct fuel; simpl; destruct (0 <? missingOf row sh) eqn:E; try reflexivity; lia.
Qed.

(** A call of [fillSlot] that changes nothing while a seat is missing is
    repeated for ever. *)
Lemma fillWhile_stuck p idx sh st row fuel :
  0 < missingOf row sh → fillSlot p st row idx sh = (st, row) →
  fillWhile p fuel idx sh st row = None.
Proof.
  intros Hm Hs. induction fuel as [|fuel IH]; simpl.
  - destruct (0 <? missingOf row sh) eqn:E; [reflexivity | lia].
  - destruct (0 <? missingOf row sh) eqn:E; [| lia].
    rewrite Hs. exact IH.
Qed.

(** ** The strict pass and the morning after a night *)

Lemma lastNightOn_updateOnAssign_day p st i dt dn :
  lastNightOn (updateOnAssign p st i dt dn day) = lastNightOn st.
Proof. reflexivity. Qed.

Lemma lastNightOn_updateOnAssign_night p st i dt dn :
  lastNightOn (updateOnAssign p st i dt dn night) = <[i := dt]> (lastNightOn st).
Proof. reflexivity. Qed.

(** Filling a day shift leaves the recorded nights as they were. *)
Lemma tryPoolLoop_day_lastNightOn p fuel needed dn dt under :
  ∀ st picks dap available st' picks' dap',
    tryPoolLoop p fuel needed day dn dt under st picks dap available = (st', picks', dap') →
    lastNightOn st' = lastNightOn st.
Proof.
  induction fuel as [|fuel IH]; intros st picks dap available st' picks' dap'; simpl.
  - by intros [= <- <- <-].
  - destruct (_ && _); [|by intros [= <- <- <-]].
    destruct (weightsFor_tracking p available st day dn under) as [s1 H1].
    destruct (weightsFor p st available day dn under) as [ws st1]. simpl in H1. subst st1.
    destruct (randomPickWeighted_tracking available ws (setSeed st s1)) as [s2 H2].
    destruct (randomPickWeighted available ws (setSeed st s1)) as [[pk|] st2];
      simpl in H2; subst st2; [|by intros [= <- <- <-]].
    destruct (_ && _); intros H; apply IH in H; rewrite H; reflexivity.
Qed.

(** Filling a night shift records the date for everyone it picks, and
    keeps the records that already carry that date. *)
Lemma tryPoolLoop_night_lastNightOn p fuel needed dn dt under :
  ∀ st picks dap available st' picks' dap',
    tryPoolLoop p fuel needed night dn dt under st picks dap available = (st', picks', dap') →
    ∃ new, picks' = picks ++ new
      ∧ (∀ i, i ∈ new → lastNightOn st' !! i = Some dt)
      ∧ (∀ i, lastNightOn st !! i = Some dt → lastNightOn st' !! i = Some dt).
Proof.
  induction fuel as [|fuel IH]; intros st picks dap available st' picks' dap'; simpl.
  - intros [= <- <- <-]. exists []. rewrite app_nil_r. repeat split; [|done].
    intros i Hi. by apply elem_of_nil in Hi.
  - destruct (_ && _).
    2:{ intros [= <- <- <-]. exists []. rewrite app_nil_r. repeat split; [|done].
        intros i Hi. by apply elem_of_nil in Hi. }
    destruct (weightsFor_tracking p available st night dn under) as [s1 H1].
    destruct (weightsFor p st available night dn under) as [ws st1]. simpl in H1. subst st1.
    destruct (randomPickWeighted_tracking available ws (setSeed st s1)) as [s2 H2].
    destruct (randomPickWeighted available ws (setSeed st s1)) as [[pk|] st2];
      simpl in H2; subst st2.
    2:{ intros [= <- <- <-]. exists []. rewrite app_nil_r. repeat split; [|done].
        intros i Hi. by apply elem_of_nil in Hi. }
    destruct (_ && _); intros H; apply IH in H as (new & -> & Hnew & Hkeep).
    + exists new. repeat split; [done|]. intros i Hi. by apply Hkeep.
    + exists (Employee.id pk :: new). rewrite <- app_assoc. repeat split.
      * intros i [-> | Hi]%elem_of_cons; [|by apply Hnew].
        apply Hkeep. rewrite lastNightOn_updateOnAssign_night. apply lookup_insert_eq.
      * intros i Hi. apply Hkeep. rewrite lastNightOn_updateOnAssign_night.
        destruct (decide (i = Employee.id pk)) as [-> |];
          [apply lookup_insert_eq | by rewrite lookup_insert_ne].
Qed.

Lemma eligible_day_not_after_night p st cand dn dap relax :
  enforceNoMorningAfterNight p = true →
  eligible p st cand day dn dap relax = true →
  lastNightOn st !! Employee.id cand ≠ Some (ymd (year p) (monthIndex0 p) (dn - 1)).
Proof.
  intros He. rewrite eligible_true. unfold eligibilityReasons. intros E Hl.
  apply app_eq_nil in E as [_ E]. apply app_eq_nil in E as [_ E].
  apply app_eq_nil in E as [E _].
  rewrite He, bool_decide_eq_true_2, bool_decide_eq_true_2 in E by done. discriminate.
Qed.

Lemma tryPool_day p needed dn dt prim res pool st picks dap st' picks' dap' :
  tryPool p needed day dn dt prim res pool (st, picks, dap) = (st', picks', dap') →
  lastNightOn st' = lastNightOn st
  ∧ ∃ new, picks' = picks ++ new
      ∧ (enforceNoMorningAfterNight p = true →
         ∀ i, i ∈ new → lastNightOn st !! i ≠ Some (ymd (year p) (monthIndex0 p) (dn - 1))).
Proof.
  unfold tryPool. intros H. split; [eapply tryPoolLoop_day_lastNightOn; exact H|].
  apply tryPoolLoop_picks in H as (new & -> & _ & Hnew).
  exists new. split; [done|]. intros He i Hi.
  destruct (Hnew i Hi) as (e & Hin & <-).
  apply elem_of_List_filter in Hin as [_ Hin].
  eapply eligible_day_not_after_night; eauto.
Qed.

Lemma pickShift_day p st needed dn dt prim res dap r st' :
  pickShift p st needed day dn dt prim res dap = (r, st') →
  lastNightOn st' = lastNightOn st
  ∧ (enforceNoMorningAfterNight p = true →
     ∀ i, i ∈ picks r → lastNightOn st !! i ≠ Some (ymd (year p) (monthIndex0 p) (dn - 1))).
Proof.
  unfold pickShift.
  destruct (tryPool p needed day dn dt prim res prim (st, [], dap)) as [[st1 picks1] dap1] eqn:E1.
  apply tryPool_day in E1 as (Hl1 & new1 & -> & Hn1). cbn [fst snd].
  destruct (allowReserves p && _).
  - destruct (tryPool p needed day dn dt prim res res (st1, [] ++ new1, dap1))
      as [[st2 picks2] dap2] eqn:E2.
    apply tryPool_day in E2 as (Hl2 & new2 & -> & Hn2).
    intros [= <- <-]. split; [congruence|]. simpl. intros He i Hi.
    apply elem_of_app in Hi as [Hi | Hi]; [by apply Hn1|].
    rewrite <- Hl1. by apply Hn2.
  - intros [= <- <-]. split; [done|]. simpl. intros He i Hi. by apply Hn1.
Qed.

Lemma tryPool_night p needed dn dt prim res pool st picks dap st' picks' dap' :
  tryPool p needed night dn dt prim res pool (st, picks, dap) = (st', picks', dap') →
  ∃ new, picks' = picks ++ new
    ∧ (∀ i, i ∈ new → lastNightOn st' !! i = Some dt)
    ∧ (∀ i, lastNightOn st !! i = Some dt → lastNightOn st' !! i = Some dt).
Proof. unfold tryPool. apply tryPoolLoop_night_lastNightOn. Qed.

Lemma pickShift_night p st needed dn dt prim res dap r st' :
  pickShift p st needed night dn dt prim res dap = (r, st') →
  ∀ i, i ∈ picks r → lastNightOn st' !! i = Some dt.
Proof.
  unfold pickShift.
  destruct (tryPool p needed night dn dt prim res prim (st, [], dap)) as [[st1 picks1] dap1] eqn:E1.
  apply tryPool_night in E1 as (new1 & -> & Hn1 & _). cbn [fst snd].
  destruct (allowReserves p && _).
  - destruct (tryPool p needed night dn dt prim res res (st1, [] ++ new1, dap1))
      as [[st2 picks2] dap2] eqn:E2.
    apply tryPool_night in E2 as (new2 & -> & Hn2 & Hk2).
    intros [= <- <-]. simpl. intros i Hi.
    apply elem_of_app in Hi as [Hi | Hi]; [apply Hk2; by apply Hn1 | by apply Hn2].
  - intros [= <- <-]. simpl. intros i Hi. by apply Hn1.
Qed.

Lemma strictDay_inv p st rows :
  enforceNoMorningAfterNight p = true →
  strictInv p (st, rows) →
  strictInv p (strictDay p (st, rows) (Z.of_nat (S (length rows)))).
Proof.
  intros He [Hno Hlast]. unfold strictDay. simpl in Hno, Hlast.
  destruct (pickShift p st _ day _ _ _ _ []) as [dayRes st1] eqn:Ed.
  destruct (pickShift p st1 _ night _ _ _ _ (picks dayRes)) as [nightRes st2] eqn:En.
  apply pickShift_day in Ed as [Hl Hd]. specialize (Hd He).
  pose proof (pickShift_night _ _ _ _ _ _ _ _ _ _ En) as Hn.
  split; simpl.
  - intros j r1 r2 i H1 H2 Hin.
    destruct (decide (S j < length rows)%nat) as [Hlt | Hge].
    + rewrite lookup_app_l in H1, H2 by lia. exact (Hno j r1 r2 i H1 H2 Hin).
    + assert (Hj : S j = length rows).
      { apply lookup_lt_Some in H2. rewrite length_app in H2. simpl in H2. lia. }
      rewrite lookup_app_l in H1 by lia.
      rewrite lookup_app_r, Hj, Nat.sub_diag in H2 by lia. injection H2 as <-. simpl.
      assert (Hr1 : last rows = Some r1).
      { rewrite last_lookup. rewrite <- Hj. exact H1. }
      intros Hday. apply (Hd i Hday).
      rewrite (Hlast r1 Hr1 i Hin). do 2 f_equal. lia.
  - intros r Hr i Hi. rewrite last_snoc in Hr. injection Hr as <-. simpl in Hi.
    rewrite length_app. simpl.
    rewrite (Hn i Hi). do 2 f_equal. lia.
Qed.

Lemma strictPass_inv p :
  enforceNoMorningAfterNight p = true →
  ∀ n s, strictInv p s →
    strictInv p (fold_left (strictDay p) (map Z.of_nat (seq (S (length (snd s))) n)) s).
Proof.
  intros He. induction n as [|n IH]; intros [st rows] Hs; simpl; [done|].
  simpl in IH.
  pose proof (strictDay_inv p st rows He Hs) as Hs'.
  assert (Hlen : length (snd (strictDay p (st, rows) (Z.of_nat (S (length rows)))))
                 = S (length rows)).
  { unfold strictDay. destruct (pickShift _ _ _ day _ _ _ _ _) as [? ?].
    destruct (pickShift _ _ _ night _ _ _ _ _) as [? ?]. simpl.
    rewrite length_app. simpl. lia. }
  specialize (IH _ Hs'). rewrite Hlen in IH. exact IH.
Qed.

(** X11.  Without hard fill the rule holds in every returned table: the
    strict pass fills the days in order, so the recorded night is the
    latest one. *)
Theorem strict_pass_no_morning_after_night (p : Params) (fuel : nat) (entropy : Z)
    (out : Schedule) :
  enforceNoMorningAfterNight p = true →
  hardFill p = false →
  generateSchedule p fuel entropy = Some out →
  noMorningAfterNight (days out).
Proof.
  intros He Hh. unfold generateSchedule. rewrite Hh.
  destruct (strictPass p _) as [st rows] eqn:E. intros [= <-]. simpl.
  unfold strictPass, dayNumbers in E.
  pose proof (strictPass_inv p He (Z.to_nat (dInM p))
                (initState p match seedIn p with Some s => s | None => entropy end, [])) as H.
  simpl in H. rewrite E in H. apply H.
  split; simpl; [|done].
  intros j r1 r2 i H1. by rewrite lookup_nil in H1.
Qed.

(** ** The rule under hard fill, and the returned tables *)

(** C1 (the code departs from the claim).  With the no-morning-after-night
    rule enabled and hard fill on, the run of [twoSpecialists] returns a
    table in which N1 is on the night list of January 3 and on the day list
    of January 4: the hard fill compares the candidate's last recorded night
    (January 31, left by the strict pass) with the previous day, and never
    looks at the next day when it fills a night seat. *)
Theorem hardFill_assigns_morning_after_night :
  enforceNoMorningAfterNight twoSpecialists = true
  ∧ hardFill twoSpecialists = true
  ∧ ∃ out r3 r4,
      generateSchedule twoSpecialists 1 0 = Some out
      ∧ days out !! 2%nat = Some r3 ∧ days out !! 3%nat = Some r4
      ∧ "N1" ∈ nightIds r3 ∧ "N1" ∈ dayIds r4
      ∧ ¬ noMorningAfterNight (days out).
Proof.
  split; [reflexivity|]. split; [reflexivity|].
  remember (generateSchedule twoSpecialists 1 0) as g eqn:E.
  vm_compute in E. subst g.
  eexists _, _, _. split; [reflexivity|].
  split; [reflexivity|]. split; [reflexivity|].
  split; [apply list_elem_of_here|]. split; [apply list_elem_of_here|].
  intros Hno. eapply (Hno 2%nat _ _ "N1"); [reflexivity | reflexivity | | ];
    apply list_elem_of_here.
Qed.

(** C2.  In every table returned by [generateSchedule], with or without
    hard fill, the day list and the night list of every row share no
    employee id. *)
Theorem day_and_night_lists_disjoint (p : Params) (fuel : nat) (entropy : Z) (out : Schedule) :
  generateSchedule p fuel entropy = Some out →
  Forall (λ row, dayIds row ## nightIds row) (days out).
Proof.
  unfold generateSchedule.
  destruct (strictPass p _) as [st rows] eqn:E.
  apply strictPass_disjoint in E.
  destruct (hardFill p).
  - destruct (hardFillRows p fuel 0 st rows) as [[st' rows']|] eqn:E2; [|discriminate].
    intros [= <-]. simpl. eapply hardFillRows_disjoint; eauto.
  - by intros [= <-].
Qed.

(** C2, at a run with hard fill on that fills all 62 seats of the month. *)
Lemma day_and_night_lists_disjoint_witness :
  ∃ out, generateSchedule fourStaff 1 0 = Some out
         ∧ length (days out) = 31%nat
         ∧ Forall (λ row, dayIds row ## nightIds row) (days out).
Proof.
  pose proof (day_and_night_lists_disjoint fourStaff 1 0) as H.
  remember (generateSchedule fourStaff 1 0) as g eqn:E.
  vm_compute in E. subst g.
  eexists. split; [reflexivity|]. split; [reflexivity|].
  apply H. reflexivity.
Defined.

(** C3 (the code departs from the claim).  One employee cannot take both
    seats of a day: the night seat of January 1 stays open after the three
    stages, [fillSlot] leaves the row as it was, and the loop
    [while (row.nightMissing > 0)] calls it again without end.  No amount
    of fuel makes the run of [soloStaff] return. *)
Theorem hardFill_unfillable_seat_never_returns :
  ∀ (fuel : nat) (entropy : Z), generateSchedule soloStaff fuel entropy = None.
Proof.
  intros fuel entropy. unfold generateSchedule.
  change (seedIn soloStaff) with (Some 42).
  remember (strictPass soloStaff (initState soloStaff 42)) as r eqn:E.
  vm_compute in E. subst r.
  change (hardFill soloStaff) with true. cbv iota beta.
  match goal with |- context [hardFillRows _ _ _ ?st (?row :: ?rest)] =>
    assert (Hd : fillWhile soloStaff fuel 0 day st row = Some (st, row))
      by (apply fillWhile_done; vm_compute; discriminate);
    assert (Hn : fillWhile soloStaff fuel 0 night st row = None)
      by (apply fillWhile_stuck; [vm_compute; reflexivity | vm_compute; reflexivity])
  end.
  cbn [hardFillRows]. rewrite Hd, Hn. reflexivity.
Qed.

(** ** The hard ceiling *)

(** C4, as amended.  The ceiling is kept attempt by attempt: when [tryPool]
    starts while some employee of the allowed pool is under its desired
    count and eligible for the seat, everyone that attempt assigns was
    below the desired count when assigned, is counted once more and does
    not exceed it; nobody else's count changes. *)
Theorem hard_ceiling_per_pool_attempt (p : Params) (needed : Z) (sh : Shift)
    (dayNum : Z) (dt : Date) (primaryPool reservePool pool : list Employee.t)
    (st : State) (picks dap : list string) (st' : State) (picks' dap' : list string) :
  tryPool p needed sh dayNum dt primaryPool reservePool pool (st, picks, dap)
    = (st', picks', dap') →
  underTargetExists p st (if allowReserves p then primaryPool ++ reservePool else primaryPool)
    sh dayNum dap = true →
  ∃ new, picks' = picks ++ new
    ∧ (∀ i, i ∈ new →
         ∃ e, e ∈ pool ∧ Employee.id e = i
              ∧ count st i < desiredOf e ∧ count st' i = count st i + 1
              ∧ count st' i ≤ desiredOf e)
    ∧ (∀ i, i ∉ new → count st' i = count st i).
Proof.
  unfold tryPool. intros H Hunder. rewrite Hunder in H.
  apply tryPoolLoop_ceiling in H as (new & -> & Hnew & Hcnt).
  exists new. split; [done|]. split.
  - intros i Hi. destruct (Hnew i Hi) as (e & He & Hid & Hlt).
    apply elem_of_List_filter in He as [He _].
    exists e. split; [done|]. split; [done|].
    specialize (Hcnt i). rewrite decide_True in Hcnt by done. lia.
  - intros i Hi. rewrite Hcnt. rewrite decide_False by done. lia.
Qed.

(** C4 amended, at the first day seat of [zeroAndHundred]: B is under
    target and eligible, and B is the one assigned. *)
Lemma hard_ceiling_per_pool_attempt_witness :
  let p := zeroAndHundred in
  let st := initState p 42 in
  let r := tryPool p 1 day 1 (ymd 2025 0 1) (primaries p) (reserves p) (primaries p)
             (st, [], []) in
  snd (fst r) = ["B"]
  ∧ ∃ new, snd (fst r) = [] ++ new
    ∧ (∀ i, i ∈ new →
         ∃ e, e ∈ primaries p ∧ Employee.id e = i
              ∧ count st i < desiredOf e ∧ count (fst (fst r)) i = count st i + 1
              ∧ count (fst (fst r)) i ≤ desiredOf e)
    ∧ (∀ i, i ∉ new → count (fst (fst r)) i = count st i).
Proof.
  intros p st r. split; [vm_compute; reflexivity|].
  apply (hard_ceiling_per_pool_attempt p 1 day 1 (ymd 2025 0 1) (primaries p) (reserves p)
           (primaries p) st [] [] (fst (fst r)) (snd (fst r)) (snd r)).
  - subst r. by destruct (tryPool _ _ _ _ _ _ _ _ _) as [[? ?] ?].
  - vm_compute. reflexivity.
Defined.

(** C4 as stated fails: at the end of the strict pass of [zeroAndHundred]
    (hard fill off) A, who wants no shift, has been assigned five, while B,
    not a reserve, has five of the hundred it wants.  On the nights of
    January 1 to 5 B was already on the day shift, hence not eligible, and
    the ceiling did not hold A back. *)
Lemma hard_ceiling_end_of_pass_counterexample :
  let st := fst (strictPass zeroAndHundred (initState zeroAndHundred 42)) in
  employees zeroAndHundred
    = [Employee.mk "A" Neither 0 false; Employee.mk "B" Neither 100 false]
  ∧ hardFill zeroAndHundred = false
  ∧ desiredOf (Employee.mk "A" Neither 0 false) < count st "A"
  ∧ count st "B" < desiredOf (Employee.mk "B" Neither 100 false).
Proof. vm_compute. repeat split. Qed.

(** ** The sequence generator *)

Lemma round53_small z : Z.abs z < 2 ^ 53 → JS.round53 z = z.
Proof. intros H. unfold JS.round53. apply Z.ltb_lt in H. cbv zeta. by rewrite H. Qed.

Lemma rng_unsigned32 st :
  0 ≤ seed st < 2 ^ 32 →
  rng st = ((JS.num (lcgNext (seed st)) / JS.num (2 ^ 32))%float, setSeed st (lcgNext (seed st)))
  ∧ 0 ≤ lcgNext (seed st) < 2 ^ 32.
Proof.
  intros H. split; [|apply Z.mod_pos_bound; lia].
  unfold rng, lcgNext, JS.rem.
  rewrite (round53_small (seed st * 1664525)) by lia.
  rewrite round53_small by lia.
  rewrite Z.rem_mod_nonneg by lia. reflexivity.
Qed.

Lemma afterDraws_unsigned32 n st :
  0 ≤ seed st < 2 ^ 32 →
  afterDraws n st = setSeed st (Nat.iter n lcgNext (seed st))
  ∧ 0 ≤ Nat.iter n lcgNext (seed st) < 2 ^ 32.
Proof.
  intros H. induction n as [|n [IH1 IH2]].
  - split; [by destruct st | done].
  - change (afterDraws (S n) st) with (snd (rng (afterDraws n st))).
    change (Nat.iter (S n) lcgNext (seed st)) with (lcgNext (Nat.iter n lcgNext (seed st))).
    rewrite IH1.
    destruct (rng_unsigned32 (setSeed st (Nat.iter n lcgNext (seed st))) IH2) as [-> Hb].
    split; [reflexivity | exact Hb].
Qed.

(** C5, as amended.  With an explicit seed the result of [generateSchedule]
    does not depend on the entropy source, for every configuration and
    every integer seed: two runs on the same input return the same table
    (dates, id lists, missing counts, diagnostics).  For a seed that is an
    unsigned 32-bit integer the state of the generator after [n] draws is
    the [n]-th iterate of [s ↦ (s * 1664525 + 1013904223) mod 2^32], it
    stays below 2^32, and the next draw returns that next state divided by
    2^32. *)
Theorem seeded_runs_are_reproducible :
  (∀ (p : Params) (s : Z) (fuel : nat) (entropy1 entropy2 : Z),
     seedIn p = Some s →
     generateSchedule p fuel entropy1 = generateSchedule p fuel entropy2)
  ∧ (∀ (n : nat) (st : State),
       0 ≤ seed st < 2 ^ 32 →
       let s := Nat.iter n lcgNext (seed st) in
       afterDraws n st = setSeed st s
       ∧ 0 ≤ s < 2 ^ 32
       ∧ rng (afterDraws n st)
         = ((JS.num (lcgNext s) / JS.num (2 ^ 32))%float, setSeed st (lcgNext s))).
Proof.
  split.
  - intros p s fuel e1 e2 H. unfold generateSchedule. by rewrite H.
  - intros n st H s.
    destruct (afterDraws_unsigned32 n st H) as [E Hb]. fold s in E, Hb.
    split; [done|]. split; [done|].
    rewrite E. by destruct (rng_unsigned32 (setSeed st s) Hb) as [-> _].
Qed.

(** C5 amended, at the self-test roster with seed 42 and at the third draw
    of seed 1869465083. *)
Lemma seeded_runs_are_reproducible_witness :
  generateSchedule selfTestA 0 1 = generateSchedule selfTestA 0 2
  ∧ seed (afterDraws 2 (initState nightFirst 1869465083)) = 634785765
  ∧ rng (afterDraws 2 (initState nightFirst 1869465083))
    = (0%float, setSeed (initState nightFirst 1869465083) 0).
Proof.
  pose proof seeded_runs_are_reproducible as [Hdet Hlcg].
  split; [apply (Hdet selfTestA 42); reflexivity|].
  destruct (Hlcg 2%nat (initState nightFirst 1869465083)) as (E & _ & Hr);
    [change (0 ≤ 1869465083 < 2 ^ 32); lia|].
  split; [rewrite E; reflexivity|].
  rewrite Hr. vm_compute. reflexivity.
Defined.

(** C5 as stated fails outside 32 bits.  From the seed -1000 the first
    state is -650620777 (the remainder keeps the sign of the dividend) where
    the recurrence modulo 2^32 gives 3644346519, and the first draw is
    negative; from the seed 2^53 the sum is rounded to a multiple of 2^21
    before the remainder is taken, and the first state is 1012924416
    instead of 1013904223. *)
Lemma generator_outside_32_bits_counterexample :
  seed (snd (rng (initState soloStaff (-1000)))) = -650620777
  ∧ lcgNext (-1000) = 3644346519
  ∧ (fst (rng (initState soloStaff (-1000))) <? 0)%float = true
  ∧ seed (snd (rng (initState soloStaff (2 ^ 53)))) = 1012924416
  ∧ lcgNext (2 ^ 53) = 1013904223.
Proof. repeat split; vm_compute; reflexivity. Qed.

(** ** Streak relaxation *)

(** C6 (the code departs from the claim).  The check
    "consecutive limit reached" is made whatever the relaxation mode: a
    candidate at the streak limit is never eligible, not even with
    [ignoreStreak].  After five days in a row and a limit of 5, the
    evaluator under full relaxation still reports one violation. *)
Theorem ignoreStreak_still_blocked :
  (∀ (p : Params) (st : State) (cand : Employee.t) (sh : Shift) (dayNum : Z)
     (dap : list string),
     (maxStreak p <=? streakOf st (Employee.id cand))
     && eligible p st cand sh dayNum dap (mkRelax true true) = false)
  ∧ streakOf (workedFirstDays soloStaff "a" 5) "a" = 5
  ∧ eligibilityReasons soloStaff (workedFirstDays soloStaff "a" 5)
      (Employee.mk "a" Neither 10 false) night 7 [] (mkRelax true true)
    = [ConsecutiveLimit 5].
Proof.
  split; [|split; vm_compute; reflexivity].
  intros p st cand sh dn dap.
  destruct (maxStreak p <=? streakOf st (Employee.id cand)) eqn:H; [|reflexivity].
  simpl. apply eligible_at_limit. lia.
Qed.

(** ** The weekly cap *)

(** The loop of [windowCount] counts the members of the set in
    [d .. d + n - 1]. *)
Lemma countFrom_size (set : gset Z) (n : nat) :
  ∀ d, countFrom set d n = Z.of_nat (size (filter (λ x, d ≤ x < d + Z.of_nat n) set)).
Proof.
  induction n as [|n IH]; intros d; simpl countFrom.
  - replace (filter _ set) with (∅ : gset Z); [done|].
    apply set_eq. intros x. rewrite elem_of_filter, elem_of_empty.
    split; [done | intros [? _]; lia].
  - rewrite IH.
    assert (Hsplit : filter (λ x, d ≤ x < d + Z.of_nat (S n)) set
              = (if bool_decide (d ∈ set) then {[d]} else ∅)
                ∪ filter (λ x, d + 1 ≤ x < d + 1 + Z.of_nat n) set).
    { apply set_eq. intros x. rewrite elem_of_union, !elem_of_filter.
      case_bool_decide; [rewrite elem_of_singleton | rewrite elem_of_empty].
      - split.
        + intros [Hx Hin]. destruct (decide (x = d)); [by left | right; split; [lia | done]].
        + intros [-> | [Hx Hin]]; split; [lia | done | lia | done].
      - split.
        + intros [Hx Hin]. right. split; [|done].
          destruct (decide (x = d)) as [-> |]; [done | lia].
        + intros [[] | [Hx Hin]]. split; [lia | done]. }
    rewrite Hsplit, size_union.
    2:{ intros x Hx Hf. apply elem_of_filter in Hf as [Hf _].
        case_bool_decide; [apply elem_of_singleton in Hx; lia | by apply elem_of_empty in Hx]. }
    case_bool_decide; [rewrite size_singleton | rewrite size_empty]; lia.
Qed.

Lemma windowCount_trailingSix st i dayNum :
  windowCount st i dayNum 7 = trailingSixCount st i dayNum.
Proof.
  unfold windowCount, trailingSixCount. rewrite countFrom_size. f_equal. f_equal.
  apply set_eq. intros x. rewrite !elem_of_filter.
  replace (dayNum - (7 - 1)) with (dayNum - 6) by lia.
  split; intros [Hx Hin]; (split; [lia | done]).
Qed.

Lemma weeklyCap_reason p st cand sh dn dap relax :
  WeeklyCapReached (weeklyCap p) ∈ eligibilityReasons p st cand sh dn dap relax
  ↔ ignoreWeeklyCap relax = false ∧ weeklyCap p ≤ windowCount st (Employee.id cand) dn 7.
Proof.
  unfold eligibilityReasons. rewrite !elem_of_app.
  destruct (includes dap _), (negb (ignoreStreak relax) && _),
    (bool_decide (sh = day) && _ && _), (maxStreak p <=? streakOf st _);
    destruct (ignoreWeeklyCap relax); simpl;
    destruct (weeklyCap p <=? windowCount st (Employee.id cand) dn 7) eqn:E;
    rewrite ?elem_of_cons, ?elem_of_nil;
    (split;
     [ intros H; repeat (destruct H as [H | H]);
       try discriminate; try done; try (split; [done | lia])
     | intros [H1 H2]; try discriminate; try lia; auto 10 ]).
Qed.

(** C7, as amended.  The weekly-cap check counts the days the candidate
    worked among [max(1, d-6) .. d-1] (six days, not seven).  The evaluator
    reports the weekly-cap violation exactly when weekly-cap relaxation is
    off and that count is at least the configured cap; the candidate is then
    ineligible, and a candidate whom no other rule excludes is ineligible
    exactly in that case. *)
Theorem weekly_cap_counts_six_days (p : Params) (st : State) (cand : Employee.t) (sh : Shift)
    (dayNum : Z) (dap : list string) (relax : Relax) :
  let i := Employee.id cand in
  windowCount st i dayNum 7 = trailingSixCount st i dayNum
  ∧ (WeeklyCapReached (weeklyCap p) ∈ eligibilityReasons p st cand sh dayNum dap relax
     ↔ ignoreWeeklyCap relax = false ∧ weeklyCap p ≤ trailingSixCount st i dayNum)
  ∧ (ignoreWeeklyCap relax = false → weeklyCap p ≤ trailingSixCount st i dayNum →
     eligible p st cand sh dayNum dap relax = false)
  ∧ ((i ∉ dap) → streakOf st i < maxStreak p →
     ¬ (sh = day ∧ enforceNoMorningAfterNight p = true
        ∧ lastNightOn st !! i = Some (ymd (year p) (monthIndex0 p) (dayNum - 1))) →
     (eligible p st cand sh dayNum dap relax = false
      ↔ ignoreWeeklyCap relax = false ∧ weeklyCap p ≤ trailingSixCount st i dayNum)).
Proof.
  intros i. rewrite <- windowCount_trailingSix.
  split; [reflexivity|]. split; [apply weeklyCap_reason|]. split.
  - intros Hr Hc. apply not_true_is_false. rewrite eligible_true. intros E.
    assert (H : WeeklyCapReached (weeklyCap p) ∈ eligibilityReasons p st cand sh dayNum dap relax)
      by (by apply weeklyCap_reason).
    rewrite E in H. by apply elem_of_nil in H.
  - intros Hdap Hstreak Hman.
    rewrite <- not_true_iff_false, eligible_true.
    unfold eligibilityReasons. fold i.
    apply includes_false in Hdap. rewrite Hdap.
    replace (maxStreak p <=? streakOf st i) with false by lia.
    rewrite andb_false_r.
    replace (bool_decide (sh = day) && enforceNoMorningAfterNight p
             && bool_decide (lastNightOn st !! i = Some (ymd (year p) (monthIndex0 p) (dayNum - 1))))
      with false.
    2:{ symmetry. apply not_true_is_false. intros H.
        apply andb_true_iff in H as [H H3]. apply andb_true_iff in H as [H1 H2].
        apply bool_decide_eq_true in H1, H3. by apply Hman. }
    simpl. rewrite app_nil_r.
    destruct (ignoreWeeklyCap relax); simpl.
    + split; [done | intros [? _]; discriminate].
    + destruct (weeklyCap p <=? windowCount st i dayNum 7) eqn:E.
      * split; [intros _; split; [done | lia] | discriminate].
      * split; [done | intros [_ H]; lia].
Qed.

(** C7 amended, at a cap of 1: having worked January 1 the employee may
    work again on January 8 but not on January 7. *)
Lemma weekly_cap_counts_six_days_witness :
  let st := workedFirstDays capOne "a" 1 in
  let a := Employee.mk "a" Neither 10 false in
  trailingSixCount st "a" 7 = 1
  ∧ eligible capOne st a day 7 [] noRelax = false
  ∧ windowCount st "a" 8 7 = 0.
Proof.
  intros st a.
  pose proof (weekly_cap_counts_six_days capOne st a day 7 [] noRelax) as (_ & _ & H & _).
  pose proof (weekly_cap_counts_six_days capOne st a day 8 [] noRelax) as (H8 & _).
  split; [vm_compute; reflexivity|]. split.
  - apply H; [reflexivity | vm_compute; discriminate].
  - cbv zeta in H8. change (Employee.id a) with "a" in H8. rewrite H8.
    vm_compute. reflexivity.
Defined.

(** C7 as stated fails: with a cap of 1 and January 1 worked, the count
    over the seven days January 1 to 7 reaches the cap, and yet the
    employee is eligible on January 8. *)
Lemma weekly_cap_seven_days_counterexample :
  weeklyCap capOne ≤ trailingSevenCount (workedFirstDays capOne "a" 1) "a" 8
  ∧ ignoreWeeklyCap noRelax = false
  ∧ eligible capOne (workedFirstDays capOne "a" 1) (Employee.mk "a" Neither 10 false)
      day 8 [] noRelax = true.
Proof. split; [vm_compute; discriminate|]. split; vm_compute; reflexivity. Qed.

(** ** Preferences in the strict pass *)

(** C8 (the code departs from the claim).  N prefers nights, so its weight
    for the day shift is 0; it is listed first, and the third draw of seed
    1869465083 (the one made by [randomPickWeighted]) is exactly 0.  The
    threshold is then 0, subtracting N's weight leaves 0, the test [r <= 0]
    holds and N is returned: N gets the day seat of January 1. *)
Theorem opposite_preference_assigned_on_zero_draw :
  Employee.preference (Employee.mk "N" Night 10 false) = Night
  ∧ fst (weightFor nightFirst (initState nightFirst 1869465083)
           (Employee.mk "N" Night 10 false) day 1 true) = 0%float
  ∧ fst (rng (afterDraws 2 (initState nightFirst 1869465083))) = 0%float
  ∧ (dayIds <$> (generateSchedule nightFirst 0 0 ≫= λ out, head (days out))) = Some ["N"].
Proof. repeat split; vm_compute; reflexivity. Qed.

(** ** The streak bias *)

Lemma consecutiveBias_cases p st e :
  consecutiveBias p st e = 1.2%float ∨ consecutiveBias p st e = 1.1%float
  ∨ consecutiveBias p st e = 0.0%float ∨ consecutiveBias p st e = 1.0%float.
Proof.
  unfold consecutiveBias.
  destruct (streakOf st (Employee.id e) =? 0) eqn:H0; [by left|].
  destruct (1 <=? streakOf st (Employee.id e)) eqn:H1; simpl.
  - destruct (streakOf st (Employee.id e) <? maxStreak p) eqn:H2; [by right; left|].
    destruct (maxStreak p <=? streakOf st (Employee.id e)) eqn:H3; [by right; right; left|].
    lia.
  - destruct (maxStreak p <=? streakOf st (Employee.id e)) eqn:H3; [by right; right; left|].
    rewrite andb_false_r. by right; right; right.
Qed.

(** C9 (the code departs from the claim).  The branch that returns 1.3
    comes after the three streak tests, which together cover every streak
    of at least 1: the bias is never 1.3.  An employee who wants two
    shifts, has one and is on a streak of 1 gets 1.1. *)
Theorem consecutiveBias_never_finishing :
  (∀ (p : Params) (st : State) (e : Employee.t),
     (consecutiveBias p st e =? 1.3)%float = false)
  ∧ streakOf (workedFirstDays shortTarget "a" 1) "a" = 1
  ∧ desiredOf (Employee.mk "a" Neither 2 false) - count (workedFirstDays shortTarget "a" 1) "a"
    = 1
  ∧ consecutiveBias shortTarget (workedFirstDays shortTarget "a" 1)
      (Employee.mk "a" Neither 2 false)
    = 1.1%float.
Proof.
  split; [|repeat split; vm_compute; reflexivity].
  intros p st e.
  destruct (consecutiveBias_cases p st e) as [-> | [-> | [-> | ->]]]; reflexivity.
Qed.

(** ** The manual override *)

Lemma assignManualRow_other_date dt sh eid row :
  date row ≠ dt → assignManualRow dt sh eid row = row.
Proof. intros H. unfold assignManualRow. by rewrite bool_decide_eq_true_2. Qed.

Lemma assignManualRow_blocked dt sh eid row :
  eid ∈ idsOf (otherShift sh) row → assignManualRow dt sh eid row = row.
Proof.
  intros H. unfold assignManualRow. destruct (bool_decide (date row ≠ dt)); [done|].
  apply includes_true in H. by rewrite H.
Qed.

Lemma assignManualRow_appends dt sh eid row :
  date row = dt → eid ∉ idsOf (otherShift sh) row →
  let row' := assignManualRow dt sh eid row in
  idsOf sh row' = idsOf sh row ++ [eid]
  ∧ missingOf row' sh = Z.max 0 (missingOf row sh - 1)
  ∧ idsOf (otherShift sh) row' = idsOf (otherShift sh) row
  ∧ missingOf row' (otherShift sh) = missingOf row (otherShift sh)
  ∧ date row' = date row ∧ dayIssues row' = dayIssues row ∧ nightIssues row' = nightIssues row.
Proof.
  intros Hd Hn. unfold assignManualRow.
  rewrite bool_decide_eq_false_2 by (intros H; by apply H).
  apply includes_false in Hn. rewrite Hn.
  destruct sh; simpl; repeat split.
Qed.

(** C10.  [assignManual] keeps the run metadata and maps the rows one to
    one.  A row of another date is unchanged.  A row of the given date is
    unchanged exactly when the employee is on the opposite shift's list;
    otherwise the id is appended to the targeted list, whose missing count
    becomes [max(0, missing - 1)] (one less when a seat was missing), the
    opposite list and its missing count are kept, and if the id was already
    on the targeted list that list now holds it twice. *)
Theorem assignManual_duplicates_same_shift (dt : Date) (sh : Shift) (eid : string)
    (prev : Schedule) :
  meta (assignManual dt sh eid prev) = meta prev
  ∧ Forall2
      (λ row row',
         (date row ≠ dt → row' = row)
         ∧ (date row = dt →
            (row' = row ↔ eid ∈ idsOf (otherShift sh) row)
            ∧ ((eid ∉ idsOf (otherShift sh) row) →
               idsOf sh row' = idsOf sh row ++ [eid]
               ∧ missingOf row' sh = Z.max 0 (missingOf row sh - 1)
               ∧ (0 < missingOf row sh → missingOf row' sh = missingOf row sh - 1)
               ∧ idsOf (otherShift sh) row' = idsOf (otherShift sh) row
               ∧ missingOf row' (otherShift sh) = missingOf row (otherShift sh)
               ∧ (eid ∈ idsOf sh row → ¬ NoDup (idsOf sh row')))))
      (days prev) (days (assignManual dt sh eid prev)).
Proof.
  split; [reflexivity|].
  unfold assignManual; simpl.
  apply Forall2_fmap_r, Forall_Forall2_diag, Forall_forall.
  intros row _. split; [apply assignManualRow_other_date|].
  intros Hd. split.
  - split; [|apply assignManualRow_blocked].
    intros Heq. destruct (decide (eid ∈ idsOf (otherShift sh) row)) as [|Hn]; [done|].
    destruct (assignManualRow_appends dt sh eid row Hd Hn) as (Hids & _).
    rewrite Heq in Hids. apply (f_equal length) in Hids.
    rewrite length_app in Hids. simpl in Hids. lia.
  - intros Hn.
    destruct (assignManualRow_appends dt sh eid row Hd Hn) as (Hids & Hm & Ho & Hmo & _).
    repeat split; try assumption.
    + intros Hpos. rewrite Hm. lia.
    + intros Hin. rewrite Hids. intros Hnd.
      apply NoDup_app in Hnd as (_ & Hdis & _).
      apply (Hdis eid Hin). by apply list_elem_of_singleton.
Qed.

(** * Further properties of the code *)

Lemma entry_setSeed st s i : entry (setSeed st s) i = entry st i.
Proof. reflexivity. Qed.

Lemma entry_updateOnAssign p st j dt dn sh i :
  i ≠ j → entry (updateOnAssign p st j dt dn sh) i = entry st i.
Proof.
  intros Hne. unfold entry, updateOnAssign. simpl.
  destruct sh; rewrite ?lookup_insert_ne by done; reflexivity.
Qed.

Lemma entry_count st st' i : entry st' i = entry st i → count st' i = count st i.
Proof. unfold entry, count. by intros [= -> _ _ _ _ _]. Qed.

Lemma entry_streakOf st st' i : entry st' i = entry st i → streakOf st' i = streakOf st i.
Proof. unfold entry, streakOf. by intros [= _ _ _ -> _ _]. Qed.

(** What an assignment records for an employee depends on the tracker
    only through that employee's own values. *)
Lemma entry_updateOnAssign_same p st st' i dt dn sh :
  entry st' i = entry st i →
  entry (updateOnAssign p st' i dt dn sh) i = entry (updateOnAssign p st i dt dn sh) i.
Proof.
  unfold entry, updateOnAssign, count, streakOf, workedDays. simpl.
  intros [= -> Hn -> -> -> ->]. destruct sh; rewrite !lookup_insert_eq; [by rewrite Hn | done].
Qed.

(** ** Eligibility, condition by condition *)

Lemma eligible_iff p st e sh dn dap relax :
  eligible p st e sh dn dap relax = true ↔
  (Employee.id e ∉ dap)
  ∧ streakOf st (Employee.id e) < maxStreak p
  ∧ ¬ (sh = day ∧ enforceNoMorningAfterNight p = true
       ∧ lastNightOn st !! Employee.id e = Some (ymd (year p) (monthIndex0 p) (dn - 1)))
  ∧ (ignoreWeeklyCap relax = true ∨ windowCount st (Employee.id e) dn 7 < weeklyCap p).
Proof.
  rewrite eligible_true. unfold eligibilityReasons.
  rewrite <- includes_false.
  destruct (includes dap (Employee.id e)); simpl.
  { split; [discriminate | intros [? _]; discriminate]. }
  destruct (maxStreak p <=? streakOf st (Employee.id e)) eqn:Es.
  { split.
    - intros E. repeat (apply app_eq_nil in E; destruct E as [_ E]). discriminate.
    - intros (_ & H & _). lia. }
  rewrite andb_false_r. simpl.
  destruct (bool_decide (sh = day)) eqn:Ed; simpl.
  - apply bool_decide_eq_true in Ed.
    destruct (enforceNoMorningAfterNight p); simpl.
    + destruct (bool_decide (lastNightOn st !! Employee.id e = Some _)) eqn:El; simpl.
      * apply bool_decide_eq_true in El.
        split; [discriminate|]. intros (_ & _ & H & _). by destruct H.
      * apply bool_decide_eq_false in El.
        destruct (ignoreWeeklyCap relax); simpl.
        { split; [|done]. intros _. repeat split; [lia | tauto | by left]. }
        destruct (weeklyCap p <=? windowCount st (Employee.id e) dn 7) eqn:Ew; simpl.
        { split; [discriminate|]. intros (_ & _ & _ & [?|?]); [discriminate | lia]. }
        split; [|done]. intros _. repeat split; [lia | tauto | right; lia].
    + destruct (ignoreWeeklyCap relax); simpl.
      { split; [|done]. intros _. repeat split; [lia | intros (_ & ? & _); discriminate | by left]. }
      destruct (weeklyCap p <=? windowCount st (Employee.id e) dn 7) eqn:Ew; simpl.
      { split; [discriminate|]. intros (_ & _ & _ & [?|?]); [discriminate | lia]. }
      split; [|done]. intros _.
      repeat split; [lia | intros (_ & ? & _); discriminate | right; lia].
  - apply bool_decide_eq_false in Ed.
    destruct (ignoreWeeklyCap relax); simpl.
    { split; [|done]. intros _. repeat split; [lia | tauto | by left]. }
    destruct (weeklyCap p <=? windowCount st (Employee.id e) dn 7) eqn:Ew; simpl.
    { split; [discriminate|]. intros (_ & _ & _ & [?|?]); [discriminate | lia]. }
    split; [|done]. intros _. repeat split; [lia | tauto | right; lia].
Qed.

Lemma entry_windowCount st st' i dn w :
  entry st' i = entry st i → windowCount st' i dn w = windowCount st i dn w.
Proof. unfold entry, windowCount, workedDays. by intros [= _ _ _ _ -> _]. Qed.

Lemma entry_lastNightOn st st' i :
  entry st' i = entry st i → lastNightOn st' !! i = lastNightOn st !! i.
Proof. unfold entry. by intros [= _ -> _ _ _ _]. Qed.

(** Eligibility reads nothing of the tracker but the candidate's own
    values, and a shorter list of the day's picks excludes nobody new. *)
Lemma eligible_entry p st st' e sh dn dap dap' relax :
  entry st' (Employee.id e) = entry st (Employee.id e) →
  (Employee.id e ∉ dap') →
  eligible p st' e sh dn dap relax = true → eligible p st e sh dn dap' relax = true.
Proof.
  intros He Hd. rewrite !eligible_iff.
  rewrite (entry_streakOf _ _ _ He), (entry_windowCount _ _ _ _ _ He),
    (entry_lastNightOn _ _ _ He).
  tauto.
Qed.

(** One run of the loop of [tryPool]: what it appends and what it leaves
    alone. *)
Lemma tryPoolLoop_new p fuel needed sh dn dt under :
  ∀ st picks dap available st' picks' dap',
    tryPoolLoop p fuel needed sh dn dt under st picks dap available = (st', picks', dap') →
    ∃ new, picks' = picks ++ new ∧ dap' = dap ++ new ∧ NoDup new
      ∧ (∀ i, i ∈ new → ∃ e, e ∈ available ∧ Employee.id e = i)
      ∧ Z.of_nat (length picks') ≤ Z.max (Z.of_nat (length picks)) needed
      ∧ (∀ i, count st' i = count st i + (if decide (i ∈ new) then 1 else 0))
      ∧ (∀ i, i ∉ new → entry st' i = entry st i)
      ∧ (∀ i, i ∈ new → entry st' i = entry (updateOnAssign p st i dt dn sh) i).
Proof.
  assert (Hnone : ∀ (st st' : State) (picks dap : list string) (available : list Employee.t),
    (∀ i, entry st' i = entry st i) →
    ∃ new : list string, picks = picks ++ new ∧ dap = dap ++ new ∧ NoDup new
      ∧ (∀ i, i ∈ new → ∃ e, e ∈ available ∧ Employee.id e = i)
      ∧ Z.of_nat (length picks) ≤ Z.max (Z.of_nat (length picks)) needed
      ∧ (∀ i, count st' i = count st i + (if decide (i ∈ new) then 1 else 0))
      ∧ (∀ i, i ∉ new → entry st' i = entry st i)
      ∧ (∀ i, i ∈ new → entry st' i = entry (updateOnAssign p st i dt dn sh) i)).
  { intros st st' picks dap available He. exists []. rewrite !app_nil_r.
    split; [done|]. split; [done|]. split; [constructor|]. split.
    { intros i Hi. by apply elem_of_nil in Hi. }
    split; [lia|]. split; [|split; [done|]].
    - intros i. rewrite decide_False by apply not_elem_of_nil.
      rewrite (entry_count _ _ _ (He i)). lia.
    - intros i Hi. by apply elem_of_nil in Hi. }
  induction fuel as [|fuel IH]; intros st picks dap available st' picks' dap'; simpl.
  - intros [= <- <- <-]. by apply Hnone.
  - destruct (Z.of_nat (length picks) <? needed) eqn:Hlen; simpl.
    2:{ intros [= <- <- <-]. by apply Hnone. }
    destruct (0 <? Z.of_nat (length available)); simpl.
    2:{ intros [= <- <- <-]. by apply Hnone. }
    destruct (weightsFor_tracking p available st sh dn under) as [s1 H1].
    destruct (weightsFor p st available sh dn under) as [ws st1]. simpl in H1. subst st1.
    destruct (randomPickWeighted_tracking available ws (setSeed st s1)) as [s2 H2].
    destruct (randomPickWeighted available ws (setSeed st s1)) as [[pk|] st2] eqn:Epick;
      simpl in H2; subst st2; rewrite setSeed_setSeed.
    2:{ intros [= <- <- <-]. apply Hnone. intros i. apply entry_setSeed. }
    apply randomPickWeighted_elem_of in Epick.
    destruct (under && _).
    + intros H. apply IH in H as (new & -> & -> & Hnd & Hnew & Hle & Hcnt & Hfr & Hup).
      exists new. split; [done|]. split; [done|]. split; [done|]. split.
      { intros i Hi. destruct (Hnew i Hi) as (e & He & <-).
        apply withoutId_elem_of in He as [He _]. eauto. }
      split; [done|]. split; [|split].
      * intros i. by rewrite Hcnt, count_setSeed.
      * intros i Hi. by rewrite Hfr, entry_setSeed.
      * intros i Hi. rewrite (Hup i Hi). apply entry_updateOnAssign_same, entry_setSeed.
    + intros H. apply IH in H as (new & -> & -> & Hnd & Hnew & Hle & Hcnt & Hfr & Hup).
      assert (Hfresh : Employee.id pk ∉ new).
      { intros Hi. destruct (Hnew _ Hi) as (e & He & Hid).
        apply withoutId_elem_of in He as [_ He]. done. }
      exists (Employee.id pk :: new). rewrite <- !app_assoc.
      split; [done|]. split; [done|]. split; [by constructor|]. split.
      { intros i [-> | Hi]%elem_of_cons; [eauto|].
        destruct (Hnew i Hi) as (e & He & <-).
        apply withoutId_elem_of in He as [He _]. eauto. }
      split.
      { apply Z.ltb_lt in Hlen. rewrite !length_app in Hle. rewrite length_app.
        simpl in *. lia. }
      split; [|split].
      * intros i. rewrite Hcnt, count_updateOnAssign, count_setSeed.
        destruct (decide (i = Employee.id pk)) as [-> | Hne].
        { rewrite decide_False by done. rewrite decide_True by left. lia. }
        destruct (decide (i ∈ new)) as [Hi | Hi].
        { rewrite decide_True by (by right). lia. }
        rewrite decide_False; [lia|]. intros [? | ?]%elem_of_cons; done.
      * intros i Hi. apply not_elem_of_cons in Hi as [Hne Hi].
        rewrite Hfr by done. rewrite entry_updateOnAssign by done. apply entry_setSeed.
      * intros i Hi. destruct (decide (i = Employee.id pk)) as [-> | Hne].
        { rewrite (Hfr _ Hfresh). apply entry_updateOnAssign_same, entry_setSeed. }
        apply elem_of_cons in Hi as [? | Hi]; [done|].
        rewrite (Hup i Hi). apply entry_updateOnAssign_same.
        rewrite entry_updateOnAssign by done. apply entry_setSeed.
Qed.

Lemma tryPool_new p needed sh dn dt prim res pool st picks dap st' picks' dap' :
  tryPool p needed sh dn dt prim res pool (st, picks, dap) = (st', picks', dap') →
  ∃ new, picks' = picks ++ new ∧ dap' = dap ++ new ∧ NoDup new
    ∧ (∀ i, i ∈ new →
         ∃ e, e ∈ pool ∧ Employee.id e = i ∧ eligible p st e sh dn dap noRelax = true)
    ∧ Z.of_nat (length picks') ≤ Z.max (Z.of_nat (length picks)) needed
    ∧ (∀ i, count st' i = count st i + (if decide (i ∈ new) then 1 else 0))
    ∧ (∀ i, i ∉ new → entry st' i = entry st i)
    ∧ (∀ i, i ∈ new → entry st' i = entry (updateOnAssign p st i dt dn sh) i).
Proof.
  unfold tryPool. intros H.
  apply tryPoolLoop_new in H as (new & -> & -> & Hnd & Hnew & Hle & Hcnt & Hfr & Hup).
  exists new. repeat split; try done.
  intros i Hi. destruct (Hnew i Hi) as (e & He & <-).
  apply elem_of_List_filter in He as [He Hel]. eauto.
Qed.

(** What [pickShift] returns: distinct ids of the allowed pool, none of
    them already picked that day, never more than needed, and the tracker
    counts each of them once more. *)
Lemma pickShift_new p st needed sh dn dt prim res dap r st' :
  0 ≤ needed →
  pickShift p st needed sh dn dt prim res dap = (r, st') →
  NoDup (picks r) ∧ picks r ## dap
  ∧ Z.of_nat (length (picks r)) ≤ needed
  ∧ missing r = Z.max 0 (needed - Z.of_nat (length (picks r)))
  ∧ (∀ i, i ∈ picks r →
       ∃ e, e ∈ (if allowReserves p then prim ++ res else prim) ∧ Employee.id e = i
            ∧ eligible p st e sh dn dap noRelax = true)
  ∧ (∀ i, count st' i = count st i + (if decide (i ∈ picks r) then 1 else 0))
  ∧ (∀ i, i ∉ picks r → entry st' i = entry st i)
  ∧ (∀ i, i ∈ picks r → entry st' i = entry (updateOnAssign p st i dt dn sh) i)
  ∧ (Z.of_nat (length (picks r)) = needed → issues r = []).
Proof.
  intros Hneed. unfold pickShift.
  destruct (tryPool p needed sh dn dt prim res prim (st, [], dap)) as [[st1 picks1] dap1] eqn:E1.
  apply tryPool_new in E1 as (new1 & -> & -> & Hnd1 & Hnew1 & Hle1 & Hc1 & Hf1 & Hu1).
  cbn [fst snd]. simpl in Hle1.
  destruct (allowReserves p) eqn:Ha; cbn [andb app].
  - destruct (Z.of_nat (length new1) <? needed) eqn:Hlt.
    + destruct (tryPool p needed sh dn dt prim res res (st1, new1, dap ++ new1))
        as [[st2 picks2] dap2] eqn:E2.
      apply tryPool_new in E2 as (new2 & -> & -> & Hnd2 & Hnew2 & Hle2 & Hc2 & Hf2 & Hu2).
      assert (Hdis : ∀ i, i ∈ new1 → i ∉ new2).
      { intros i H1 H2. destruct (Hnew2 i H2) as (e & _ & <- & He).
        apply eligible_not_picked in He. apply He, elem_of_app. by right. }
      cbn beta iota. intros [= <- <-]. simpl.
      split; [apply NoDup_app; done|]. split.
      { intros i Hi Hdap. apply elem_of_app in Hi as [Hi | Hi].
        - destruct (Hnew1 i Hi) as (e & _ & <- & He). by apply eligible_not_picked in He.
        - destruct (Hnew2 i Hi) as (e & _ & <- & He). apply eligible_not_picked in He.
          apply He, elem_of_app. by left. }
      split; [lia|]. split; [done|]. split.
      { intros i Hi. apply elem_of_app in Hi as [Hi | Hi].
        - destruct (Hnew1 i Hi) as (e & He & <- & Hel). exists e.
          split; [apply elem_of_app; by left|]. done.
        - destruct (Hnew2 i Hi) as (e & He & <- & Hel). exists e.
          split; [apply elem_of_app; by right|]. split; [done|].
          pose proof (eligible_not_picked _ _ _ _ _ _ _ Hel) as Hnp.
          apply not_elem_of_app in Hnp as [Hnd Hn1].
          eapply eligible_entry; [|exact Hnd|exact Hel]. by apply Hf1. }
      split.
      { intros i. rewrite Hc2, Hc1.
        destruct (decide (i ∈ new1)) as [H1|H1], (decide (i ∈ new2)) as [H2|H2].
        - by destruct (Hdis i H1).
        - rewrite decide_True by (apply elem_of_app; by left). lia.
        - rewrite decide_True by (apply elem_of_app; by right). lia.
        - rewrite decide_False; [lia|]. intros [?|?]%elem_of_app; done. }
      split.
      { intros i Hi. apply not_elem_of_app in Hi as [H1 H2]. rewrite Hf2, Hf1; done. }
      split.
      { intros i [Hi | Hi]%elem_of_app.
        - rewrite Hf2 by (by apply Hdis). by apply Hu1.
        - rewrite (Hu2 i Hi). apply entry_updateOnAssign_same, Hf1.
          intros H1. by apply (Hdis i). }
      intros Hfull. replace (Z.of_nat (length (new1 ++ new2)) <? needed) with false by lia. done.
    + cbn beta iota. intros [= <- <-]. simpl.
      split; [done|]. split.
      { intros i Hi Hdap. destruct (Hnew1 i Hi) as (e & _ & <- & He).
        by apply eligible_not_picked in He. }
      split; [lia|]. split; [done|]. split.
      { intros i Hi. destruct (Hnew1 i Hi) as (e & He & <- & Hel). exists e.
        split; [apply elem_of_app; by left|]. done. }
      split; [done|]. split; [done|]. split; [done|].
      intros Hfull. rewrite Hlt. done.
  - cbn beta iota. intros [= <- <-]. simpl.
    split; [done|]. split.
    { intros i Hi Hdap. destruct (Hnew1 i Hi) as (e & _ & <- & He).
      by apply eligible_not_picked in He. }
    split; [lia|]. split; [done|]. split.
    { intros i Hi. by apply Hnew1. }
    split; [done|]. split; [done|]. split; [done|].
    intros Hfull. replace (Z.of_nat (length new1) <? needed) with false by lia. done.
Qed.

Lemma appearances_app i rows1 rows2 :
  appearances i (rows1 ++ rows2) = appearances i rows1 + appearances i rows2.
Proof. unfold appearances. rewrite List.filter_app, length_app. lia. Qed.

Lemma appearances_one i row :
  appearances i [row] = if decide (i ∈ dayIds row ++ nightIds row) then 1 else 0.
Proof.
  unfold appearances, worksOn, includes. simpl.
  destruct (decide (i ∈ dayIds row ++ nightIds row)).
  - by rewrite bool_decide_eq_true_2.
  - by rewrite bool_decide_eq_false_2.
Qed.

Lemma strictDay_spec p st rows dn st' rows' :
  strictDay p (st, rows) dn = (st', rows') →
  ∃ row, rows' = rows ++ [row]
    ∧ date row = ymd (year p) (monthIndex0 p) dn
    ∧ rowSound p (allowedPool p) row
    ∧ (∀ i, count st' i = count st i + appearances i [row])
    ∧ (∀ i, i ∉ dayIds row ++ nightIds row → entry st' i = entry st i)
    ∧ (dayMissing row = 0 → dayIssues row = [])
    ∧ (nightMissing row = 0 → nightIssues row = [])
    ∧ (∀ i, i ∈ dayIds row →
         ∃ e, e ∈ allowedPool p ∧ Employee.id e = i ∧ eligible p st e day dn [] noRelax = true)
    ∧ (∀ i, i ∈ nightIds row →
         ∃ e, e ∈ allowedPool p ∧ Employee.id e = i ∧ eligible p st e night dn [] noRelax = true)
    ∧ (∀ i, i ∈ dayIds row →
         entry st' i = entry (updateOnAssign p st i (date row) dn day) i)
    ∧ (∀ i, i ∈ nightIds row →
         entry st' i = entry (updateOnAssign p st i (date row) dn night) i).
Proof.
  unfold strictDay.
  destruct (pickShift p st _ day dn _ _ _ []) as [dayRes st1] eqn:Ed.
  destruct (pickShift p st1 _ night dn _ _ _ (picks dayRes)) as [nightRes st2] eqn:En.
  apply pickShift_new in Ed as (Hnd1 & _ & Hle1 & Hm1 & Hin1 & Hc1 & Hf1 & Hu1 & Hi1); [|lia].
  apply pickShift_new in En as (Hnd2 & Hdis & Hle2 & Hm2 & Hin2 & Hc2 & Hf2 & Hu2 & Hi2); [|lia].
  intros [= <- <-]. eexists. split; [reflexivity|]. simpl.
  split; [done|]. split.
  { unfold rowSound. simpl. repeat split.
    - apply NoDup_app. repeat split; [done| |done]. intros i H1 H2. by apply (Hdis i).
    - lia.
    - lia.
    - rewrite Hm1. lia.
    - rewrite Hm2. lia.
    - intros i [Hi|Hi]%elem_of_app.
      + destruct (Hin1 i Hi) as (e & ? & ? & _). by exists e.
      + destruct (Hin2 i Hi) as (e & ? & ? & _). by exists e. }
  split.
  { intros i. rewrite appearances_one. simpl. rewrite Hc2, Hc1.
    destruct (decide (i ∈ picks dayRes)) as [H1|H1], (decide (i ∈ picks nightRes)) as [H2|H2].
    - by destruct (Hdis i H2).
    - rewrite decide_True by (apply elem_of_app; by left). lia.
    - rewrite decide_True by (apply elem_of_app; by right). lia.
    - rewrite decide_False; [lia|]. intros [?|?]%elem_of_app; done. }
  split.
  { intros i Hi. apply not_elem_of_app in Hi as [H1 H2]. rewrite Hf2, Hf1; done. }
  split.
  { intros Hz. apply Hi1. rewrite Hm1 in Hz. lia. }
  split.
  { intros Hz. apply Hi2. rewrite Hm2 in Hz. lia. }
  split; [exact Hin1|].
  split.
  { intros i Hi. destruct (Hin2 i Hi) as (e & He & <- & Hel). exists e.
    split; [done|]. split; [done|].
    eapply eligible_entry; [|apply not_elem_of_nil|exact Hel].
    apply Hf1. exact (Hdis _ Hi). }
  split.
  - intros i Hi. rewrite Hf2; [by apply Hu1|]. intros Hn. exact (Hdis _ Hn Hi).
  - intros i Hi. rewrite (Hu2 i Hi). apply entry_updateOnAssign_same, Hf1. exact (Hdis _ Hi).
Qed.

(** The strict pass over a list of days, from any state. *)
Lemma strictDays_spec p l :
  ∀ st rows st' rows',
    fold_left (strictDay p) l (st, rows) = (st', rows') →
    ∃ news, rows' = rows ++ news
      ∧ map date news = map (ymd (year p) (monthIndex0 p)) l
      ∧ Forall (rowSound p (allowedPool p)) news
      ∧ (∀ i, count st' i = count st i + appearances i news)
      ∧ (∀ i, appearances i news = 0 → entry st' i = entry st i)
      ∧ Forall (λ row, (dayMissing row = 0 → dayIssues row = [])
                       ∧ (nightMissing row = 0 → nightIssues row = [])) news.
Proof.
  induction l as [|dn l IH]; intros st rows st' rows'; cbn [fold_left].
  - intros [= <- <-]. exists []. rewrite app_nil_r. repeat split; try done.
    intros i. unfold appearances. simpl. lia.
  - destruct (strictDay p (st, rows) dn) as [st1 rows1] eqn:E1.
    apply strictDay_spec in E1 as (row & -> & Hdate & Hs & Hc & Hf & Hi1 & Hi2 & _).
    intros H. apply IH in H as (news & -> & Hdates & Hss & Hcs & Hfs & His).
    exists (row :: news). rewrite <- app_assoc. split; [done|].
    split; [simpl; by rewrite Hdate, Hdates|].
    split; [by constructor|]. split.
    { intros i. rewrite Hcs, Hc. change (row :: news) with ([row] ++ news).
      rewrite appearances_app. lia. }
    split.
    { intros i. change (row :: news) with ([row] ++ news). rewrite appearances_app.
      intros Hz.
      assert (H0 : appearances i [row] = 0 ∧ appearances i news = 0).
      { unfold appearances in *. lia. }
      destruct H0 as [H1 H2]. rewrite Hfs by done. apply Hf.
      rewrite appearances_one in H1. destruct (decide _); [lia | done]. }
    by constructor.
Qed.

(** ** The hard fill, stage by stage *)

Lemma sortInsert_head {A} (cmp : A → A → Z) (x : A) (l : list A) (h : A) (t : list A) :
  sortInsert cmp x l = h :: t →
  (h = x ∧ t = l ∧ ∀ y l', l = y :: l' → cmp x y ≤ 0)
  ∨ (∃ l', l = h :: l' ∧ 0 < cmp x h).
Proof.
  destruct l as [|y l']; simpl.
  - intros [= <- <-]. left. repeat split. intros ? ? [=].
  - destruct (cmp x y <=? 0) eqn:E.
    + intros [= <- <-]. left. repeat split. intros ? ? [= <- <-]. lia.
    + intros [= <- <-]. right. exists l'. split; [done | lia].
Qed.

(** The first element of the sorted array is least for the comparator, and
    first among its equals in the original order. *)
Lemma jsSort_head_least {A} (cmp : A → A → Z) :
  (∀ a, cmp a a ≤ 0) →
  (∀ a b, 0 < cmp a b → cmp b a ≤ 0) →
  (∀ a b c, cmp a b ≤ 0 → cmp b c ≤ 0 → cmp a c ≤ 0) →
  ∀ l h t, jsSort cmp l = h :: t → ∀ x, x ∈ l → cmp h x ≤ 0.
Proof.
  intros Hrefl Htot Htrans. induction l as [|a l IH]; intros h t; simpl.
  - discriminate.
  - intros H x Hx. apply sortInsert_head in H as [(-> & -> & Hle) | (l' & Hl & Hlt)].
    + apply elem_of_cons in Hx as [-> | Hx]; [apply Hrefl|].
      destruct (jsSort cmp l) as [|y l'] eqn:E.
      { destruct l as [|b l]; [by apply elem_of_nil in Hx|].
        simpl in E. destruct (jsSort cmp l); simpl in E; [discriminate|].
        destruct (cmp b a0 <=? 0); discriminate. }
      eapply Htrans; [exact (Hle y l' eq_refl)|]. by eapply IH.
    + apply elem_of_cons in Hx as [-> | Hx]; [by apply Htot|]. by eapply IH.
Qed.

(** The shifts an employee still wants. *)
Lemma neediest_le st a b :
  neediest st a b ≤ 0 ↔
  desiredOf b - count st (Employee.id b) < desiredOf a - count st (Employee.id a)
  ∨ (desiredOf b - count st (Employee.id b) = desiredOf a - count st (Employee.id a)
     ∧ count st (Employee.id a) ≤ count st (Employee.id b)).
Proof.
  unfold neediest.
  destruct (desiredOf b - count st (Employee.id b) =? desiredOf a - count st (Employee.id a)) eqn:E;
    simpl; lia.
Qed.

Lemma neediest_head st l h t :
  jsSort (neediest st) l = h :: t → ∀ x, x ∈ l → neediest st h x ≤ 0.
Proof.
  apply jsSort_head_least.
  - intros a. apply neediest_le. lia.
  - intros a b H. apply neediest_le.
    assert (¬ neediest st a b ≤ 0) as Hn by lia. rewrite neediest_le in Hn. lia.
  - intros a b c. rewrite !neediest_le. lia.
Qed.

(** What one stage of [fillSlot] does when it picks someone. *)
Lemma pickStage_spec p sh dn dt other relax st already st' already' :
  pickStage p sh dn dt other relax st already = Some (st', already') →
  ∃ chosen,
    chosen ∈ primaries p ++ reserves p
    ∧ already' = already ++ [Employee.id chosen]
    ∧ st' = updateOnAssign p st (Employee.id chosen) dt dn sh
    ∧ (Employee.id chosen ∉ already) ∧ (Employee.id chosen ∉ other)
    ∧ eligible p st chosen sh dn (already ++ other) relax = true
    ∧ ((∃ e, e ∈ primaries p ++ reserves p ∧ count st (Employee.id e) < desiredOf e) →
       count st (Employee.id chosen) < desiredOf chosen)
    ∧ (∀ e, e ∈ primaries p ++ reserves p →
         (Employee.id e ∉ already) → (Employee.id e ∉ other) →
         eligible p st e sh dn (already ++ other) relax = true →
         neediest st chosen e ≤ 0).
Proof.
  unfold pickStage.
  destruct (jsSort _ _) as [|chosen rest] eqn:E; [discriminate|].
  intros [= <- <-]. exists chosen.
  match type of E with
  | jsSort ?c ?l = _ =>
      assert (Hin : chosen ∈ l) by (apply (jsSort_elem_of c); rewrite E; left);
      pose proof (neediest_head st l chosen rest E) as Hleast
  end.
  apply elem_of_List_filter in Hin as [Hin Hf].
  apply andb_true_iff in Hf as [Hf Hel]. apply andb_true_iff in Hf as [Ha Ho].
  apply negb_true_iff in Ha, Ho. rewrite includes_false in Ha, Ho.
  set (pools := primaries p ++ reserves p) in *.
  set (under := List.filter (λ e, count st (Employee.id e) <? desiredOf e) pools) in *.
  assert (Hpool : chosen ∈ pools).
  { destruct under eqn:Eu; [done|]. rewrite <- Eu in Hin.
    by apply elem_of_List_filter in Hin as [? _]. }
  split; [done|]. split; [done|]. split; [done|]. split; [done|]. split; [done|].
  split; [done|]. split.
  - intros (e & He & Hlt).
    assert (Hu : e ∈ under).
    { apply elem_of_List_filter. split; [done | lia]. }
    destruct under eqn:Eu; [by apply elem_of_nil in Hu|]. rewrite <- Eu in Hin.
    apply elem_of_List_filter in Hin as [_ Hc]. lia.
  - intros e He Hea Heo Hee.
    assert (Hcond : negb (includes already (Employee.id e))
                    && negb (includes other (Employee.id e))
                    && eligible p st e sh dn (already ++ other) relax = true).
    { rewrite Hee. apply includes_false in Hea, Heo. by rewrite Hea, Heo. }
    destruct (decide (count st (Employee.id e) < desiredOf e)) as [Hlt | Hge].
    + apply Hleast.
      assert (Hu : e ∈ under).
      { apply elem_of_List_filter. split; [done | lia]. }
      apply elem_of_List_filter. split; [|done].
      destruct under eqn:Eu; [by apply elem_of_nil in Hu|]. exact Hu.
    + destruct under eqn:Eu.
      * apply Hleast. apply elem_of_List_filter. by split.
      * rewrite <- Eu in Hin. apply elem_of_List_filter in Hin as [_ Hc].
        apply neediest_le. left. lia.
Qed.

(** ** The hard fill, seat by seat *)

Lemma pools_employees p e : e ∈ primaries p ++ reserves p ↔ e ∈ employees p.
Proof.
  unfold primaries, reserves. rewrite elem_of_app, !elem_of_List_filter.
  destruct (Employee.isReserve e); simpl; intuition congruence.
Qed.

Lemma allowedPool_employees p e : e ∈ allowedPool p → e ∈ primaries p ++ reserves p.
Proof.
  unfold allowedPool. destruct (allowReserves p); [done|].
  intros H. apply elem_of_app. by left.
Qed.

Lemma rowSound_roster p (r1 r2 : list Employee.t) row :
  (∀ e, e ∈ r1 → e ∈ r2) → rowSound p r1 row → rowSound p r2 row.
Proof.
  intros Hsub (H1 & H2 & H3 & H4 & H5 & H6). repeat split; try done.
  intros i Hi. destruct (H6 i Hi) as (e & He & Hid). exists e. split; [by apply Hsub | done].
Qed.

Lemma rowExtends_refl r : rowExtends r r.
Proof. by repeat split. Qed.

Lemma rowExtends_trans r1 r2 r3 : rowExtends r1 r2 → rowExtends r2 r3 → rowExtends r1 r3.
Proof.
  intros (Ha & Hb & Hc & Hd & He) (Ha' & Hb' & Hc' & Hd' & He').
  repeat split; try congruence; by etrans.
Qed.

Lemma relaxStages_spec p sh dn dt other st already st' already' :
  relaxStages p sh dn dt other st already = (st', already') →
  (st' = st ∧ already' = already)
  ∨ ∃ relax, pickStage p sh dn dt other relax st already = Some (st', already').
Proof.
  unfold relaxStages.
  destruct (pickStage p sh dn dt other noRelax st already) as [[? ?]|] eqn:E1.
  { intros [= <- <-]. right. by exists noRelax. }
  destruct (pickStage p sh dn dt other (mkRelax true false) st already) as [[? ?]|] eqn:E2.
  { intros [= <- <-]. right. by exists (mkRelax true false). }
  destruct (pickStage p sh dn dt other (mkRelax true true) st already) as [[? ?]|] eqn:E3.
  { intros [= <- <-]. right. by exists (mkRelax true true). }
  intros [= <- <-]. by left.
Qed.

(** One call of [fillSlot]: the row keeps its date, its diagnostics and
    its other shift; the missing count of the shift is recomputed from the
    list; the list is unchanged or one stage has pushed its choice. *)
Lemma fillSlot_spec p st row idx sh st' row' :
  fillSlot p st row idx sh = (st', row') →
  date row' = date row ∧ dayIssues row' = dayIssues row ∧ nightIssues row' = nightIssues row
  ∧ idsOf (otherShift sh) row' = idsOf (otherShift sh) row
  ∧ missingOf row' (otherShift sh) = missingOf row (otherShift sh)
  ∧ missingOf row' sh = Z.max 0 (slotsOf p sh - Z.of_nat (length (idsOf sh row')))
  ∧ ((st' = st ∧ idsOf sh row' = idsOf sh row)
     ∨ ∃ relax,
         pickStage p sh (Z.of_nat idx + 1) (date row) (idsOf (otherShift sh) row) relax st
           (idsOf sh row) = Some (st', idsOf sh row')).
Proof.
  unfold fillSlot.
  destruct (relaxStages p sh _ _ _ st _) as [st1 al1] eqn:E.
  apply relaxStages_spec in E.
  intros [= <- <-]. destruct sh; simpl in *; repeat split; done.
Qed.

(** A call made while a seat is missing keeps the row sound. *)
Lemma fillSlot_sound p st row idx sh st' row' :
  rowSound p (primaries p ++ reserves p) row →
  0 < missingOf row sh →
  fillSlot p st row idx sh = (st', row') →
  rowSound p (primaries p ++ reserves p) row' ∧ rowExtends row row'
  ∧ (∀ i, count st' i - appearances i [row'] = count st i - appearances i [row]).
Proof.
  intros (Hnd & Hld & Hln & Hmd & Hmn & Hro) Hmiss H.
  apply fillSlot_spec in H as (Hdt & Hid & Hin & Hoth & Hmo & Hms & Hcase).
  destruct Hcase as [[-> Hsame] | [relax Hst]].
  - assert (Hd : dayIds row' = dayIds row) by (destruct sh; simpl in *; done).
    assert (Hn : nightIds row' = nightIds row) by (destruct sh; simpl in *; done).
    split.
    { unfold rowSound. rewrite Hd, Hn.
      destruct sh; simpl in *; rewrite ?Hd, ?Hn in *; repeat split; try done; congruence. }
    split.
    { unfold rowExtends. rewrite Hd, Hn. by repeat split. }
    intros i. rewrite !appearances_one, Hd, Hn. done.
  - apply pickStage_spec in Hst
      as (chosen & Hpool & Happ & -> & Hna & Hno & _).
    set (c := Employee.id chosen) in *.
    assert (Hfresh : c ∉ dayIds row ++ nightIds row).
    { destruct sh; simpl in *; intros [?|?]%elem_of_app; done. }
    assert (Hlen : Z.of_nat (length (idsOf sh row)) < slotsOf p sh).
    { destruct sh; simpl in *; lia. }
    split.
    { unfold rowSound. destruct sh; simpl in *; rewrite ?Happ, ?Hoth in *.
      - repeat split; try done.
        + rewrite <- app_assoc. apply NoDup_app in Hnd as (Hd1 & Hd2 & Hd3).
          apply not_elem_of_app in Hfresh as [Hf1 Hf2].
          apply NoDup_app. repeat split; [done| |].
          * intros i Hi [->%list_elem_of_singleton | Hn]%elem_of_app; [done|].
            by apply (Hd2 i).
          * apply NoDup_cons. split; [done|done].
        + rewrite length_app. simpl. lia.
        + congruence.
        + intros i [[Hi | ->%list_elem_of_singleton]%elem_of_app | Hi]%elem_of_app.
          * apply Hro, elem_of_app. by left.
          * by exists chosen.
          * apply Hro, elem_of_app. by right.
      - repeat split; try done.
        + rewrite app_assoc. apply NoDup_app. repeat split; [done| |apply NoDup_singleton].
          intros i Hi ->%list_elem_of_singleton. done.
        + rewrite length_app. simpl. lia.
        + congruence.
        + intros i [Hi | [Hi | ->%list_elem_of_singleton]%elem_of_app]%elem_of_app.
          * apply Hro, elem_of_app. by left.
          * apply Hro, elem_of_app. by right.
          * by exists chosen. }
    split.
    { unfold rowExtends. destruct sh; simpl in *; rewrite ?Happ, ?Hoth;
        repeat split; try done; by apply prefix_app_r. }
    intros i. rewrite !appearances_one, count_updateOnAssign.
    assert (Hiff : i ∈ dayIds row' ++ nightIds row' ↔ i = c ∨ i ∈ dayIds row ++ nightIds row).
    { destruct sh; simpl in *; rewrite ?Happ, ?Hoth, !elem_of_app, ?list_elem_of_singleton; tauto. }
    destruct (decide (i = c)) as [-> | Hne].
    + rewrite decide_True by (apply Hiff; by left). rewrite decide_False by done. lia.
    + destruct (decide (i ∈ dayIds row ++ nightIds row)) as [Hi | Hi].
      * rewrite decide_True by (apply Hiff; by right). lia.
      * rewrite decide_False; [lia|]. rewrite Hiff. tauto.
Qed.

Lemma appearances_cons i row rows :
  appearances i (row :: rows) = appearances i [row] + appearances i rows.
Proof. change (row :: rows) with ([row] ++ rows). apply appearances_app. Qed.

Lemma appearances_nil i : appearances i [] = 0.
Proof. reflexivity. Qed.

(** The [while] loop of a seat, when it ends: nothing is missing on that
    shift any more. *)
Lemma fillWhile_spec p fuel idx sh :
  ∀ st row st' row',
    rowSound p (primaries p ++ reserves p) row →
    fillWhile p fuel idx sh st row = Some (st', row') →
    rowSound p (primaries p ++ reserves p) row' ∧ rowExtends row row'
    ∧ missingOf row' sh = 0
    ∧ idsOf (otherShift sh) row' = idsOf (otherShift sh) row
    ∧ (∀ i, count st' i - appearances i [row'] = count st i - appearances i [row]).
Proof.
  assert (Hend : ∀ st row, rowSound p (primaries p ++ reserves p) row →
            (0 <? missingOf row sh) = false →
            rowSound p (primaries p ++ reserves p) row ∧ rowExtends row row
            ∧ missingOf row sh = 0
            ∧ idsOf (otherShift sh) row = idsOf (otherShift sh) row
            ∧ (∀ i, count st i - appearances i [row] = count st i - appearances i [row])).
  { intros st row Hs Hm. split; [done|]. split; [apply rowExtends_refl|].
    split; [|done]. destruct Hs as (_ & _ & _ & Hd & Hn & _).
    destruct sh; simpl in *; lia. }
  induction fuel as [|fuel IH]; intros st row st' row' Hs; simpl.
  - destruct (0 <? missingOf row sh) eqn:Hm; [discriminate|].
    intros [= <- <-]. by apply Hend.
  - destruct (0 <? missingOf row sh) eqn:Hm; [|intros [= <- <-]; by apply Hend].
    destruct (fillSlot p st row idx sh) as [st1 row1] eqn:E.
    pose proof E as E'.
    apply fillSlot_sound in E as (Hs1 & Hx1 & Hc1); [|done|lia].
    apply fillSlot_spec in E' as (_ & _ & _ & Ho1 & _).
    intros H. apply IH in H as (Hs2 & Hx2 & Hm2 & Ho2 & Hc2); [|done].
    split; [done|]. split; [by eapply rowExtends_trans|]. split; [done|].
    split; [congruence|]. intros i. by rewrite Hc2, Hc1.
Qed.

(** The hard fill over the rows, when it ends. *)
Lemma hardFillRows_spec p fuel rows :
  ∀ idx st st' rows',
    Forall (rowSound p (primaries p ++ reserves p)) rows →
    hardFillRows p fuel idx st rows = Some (st', rows') →
    Forall (rowSound p (primaries p ++ reserves p)) rows'
    ∧ Forall2 rowExtends rows rows'
    ∧ Forall (λ r, dayMissing r = 0 ∧ nightMissing r = 0) rows'
    ∧ (∀ i, count st' i - appearances i rows' = count st i - appearances i rows).
Proof.
  induction rows as [|row rest IH]; intros idx st st' rows' Hs; simpl.
  - intros [= <- <-]. repeat split; constructor.
  - apply Forall_cons in Hs as [Hrow Hrest].
    destruct (fillWhile p fuel idx day st row) as [[st1 row1]|] eqn:E1; [|discriminate].
    destruct (fillWhile p fuel idx night st1 row1) as [[st2 row2]|] eqn:E2; [|discriminate].
    destruct (hardFillRows p fuel (S idx) st2 rest) as [[st3 rest']|] eqn:E3; [|discriminate].
    intros [= <- <-].
    apply fillWhile_spec in E1 as (Hs1 & Hx1 & Hm1 & Ho1 & Hc1); [|done].
    pose proof E2 as E2'.
    apply fillWhile_spec in E2 as (Hs2 & Hx2 & Hm2 & Ho2 & Hc2); [|done].
    apply IH in E3 as (Hs3 & Hx3 & Hm3 & Hc3); [|done].
    split; [by constructor|].
    split; [constructor; [by eapply rowExtends_trans | done]|].
    split.
    { constructor; [|done]. simpl in *. split; [|done].
      destruct Hs2 as (_ & _ & _ & Hd2 & _). destruct Hs1 as (_ & _ & _ & Hd1 & _).
      rewrite Hd2, Ho2, <- Hd1. done. }
    intros i. rewrite (appearances_cons i row2), (appearances_cons i row).
    specialize (Hc1 i). specialize (Hc2 i). specialize (Hc3 i). lia.
Qed.

(** ** The two passes together *)

Lemma initState_count p s i : count (initState p s) i = 0.
Proof.
  unfold count, initState. simpl.
  destruct (list_to_map _ !! i) as [z|] eqn:E; [|done]. simpl.
  apply elem_of_list_to_map_2 in E.
  apply list_elem_of_fmap in E as (j & [= _ ->] & _). done.
Qed.

(** What the strict pass returns. *)
Lemma strictPass_spec p st st' rows :
  strictPass p st = (st', rows) →
  map date rows = map (ymd (year p) (monthIndex0 p)) (dayNumbers p)
  ∧ Forall (rowSound p (allowedPool p)) rows
  ∧ (∀ i, count st' i = count st i + appearances i rows)
  ∧ Forall (λ row, (dayMissing row = 0 → dayIssues row = [])
                   ∧ (nightMissing row = 0 → nightIssues row = [])) rows.
Proof.
  unfold strictPass. intros H.
  apply strictDays_spec in H as (news & -> & Hd & Hs & Hc & _ & Hi). done.
Qed.

(** The two ways [generateSchedule] returns. *)
Lemma generateSchedule_cases p fuel entropy out :
  generateSchedule p fuel entropy = Some out →
  ∃ st rows,
    strictPass p (initState p (seedOf p entropy)) = (st, rows)
    ∧ meta out = mkMeta (totalDemandOf p) (sumDesiredPrimariesOf p) (allowReserves p)
    ∧ ((hardFill p = false ∧ days out = rows)
       ∨ (hardFill p = true ∧ ∃ st', hardFillRows p fuel 0 st rows = Some (st', days out))).
Proof.
  unfold generateSchedule, seedOf.
  destruct (strictPass p _) as [st rows] eqn:E.
  destruct (hardFill p).
  - destruct (hardFillRows p fuel 0 st rows) as [[st' rows']|] eqn:E2; [|discriminate].
    intros [= <-]. exists st, rows. split; [done|]. split; [done|]. right. split; [done|].
    by exists st'.
  - intros [= <-]. exists st, rows. split; [done|]. split; [done|]. by left.
Qed.

Lemma Forall2_rowExtends_dates rows rows' :
  Forall2 rowExtends rows rows' → map date rows' = map date rows.
Proof.
  induction 1 as [|r r' rows rows' Hx _ IH]; [done|].
  simpl. destruct Hx as (-> & _). by rewrite IH.
Qed.

Lemma generateSchedule_sound p fuel entropy out :
  generateSchedule p fuel entropy = Some out →
  map date (days out) = map (ymd (year p) (monthIndex0 p)) (dayNumbers p)
  ∧ Forall (rowSound p (primaries p ++ reserves p)) (days out)
  ∧ (hardFill p = false → Forall (rowSound p (allowedPool p)) (days out)).
Proof.
  intros H. apply generateSchedule_cases in H as (st & rows & Hs & _ & Hcase).
  apply strictPass_spec in Hs as (Hd & Hs & _ & _).
  assert (Hs' : Forall (rowSound p (primaries p ++ reserves p)) rows).
  { eapply Forall_impl; [exact Hs|]. intros r. apply rowSound_roster, allowedPool_employees. }
  destruct Hcase as [[Hh ->] | [Hh [st' Hf]]].
  - done.
  - apply hardFillRows_spec in Hf as (Hs2 & Hx & _ & _); [|done].
    split; [|split; [done | congruence]].
    by rewrite (Forall2_rowExtends_dates _ _ Hx).
Qed.

Lemma dayNumbers_lookup p (k : nat) d :
  dayNumbers p !! k = Some d → d = Z.of_nat k + 1 ∧ 1 ≤ d ≤ dInM p.
Proof.
  unfold dayNumbers. rewrite list_lookup_fmap.
  destruct (seq 1 (Z.to_nat (dInM p)) !! k) as [n|] eqn:E; [|discriminate].
  apply lookup_seq in E as [-> Hk]. intros [= <-]. lia.
Qed.

Lemma ymd_in_month y m0 d :
  1 ≤ d ≤ daysInMonth y m0 → ymd y m0 d = mkDate y (m0 + 1) d.
Proof. intros H. unfold ymd. f_equal. lia. Qed.

(** ** The strict pass, employee by employee *)

Lemma worksOn_true i row : worksOn i row = true ↔ i ∈ dayIds row ++ nightIds row.
Proof. apply includes_true. Qed.

Lemma worksOn_false i row : worksOn i row = false ↔ i ∉ dayIds row ++ nightIds row.
Proof. apply includes_false. Qed.

Lemma entry_workedDays st st' i : entry st' i = entry st i → workedDays st' i = workedDays st i.
Proof. unfold entry, workedDays. by intros [= _ _ _ _ -> _]. Qed.


Lemma workedDays_updateOnAssign p st i dt dn sh :
  workedDays (updateOnAssign p st i dt dn sh) i = {[dn]} ∪ workedDays st i.
Proof. unfold workedDays at 1. simpl. by rewrite lookup_insert_eq. Qed.



(** One day of the strict pass, seen from one employee: either the new row
    does not list the employee and the tracker keeps the employee's
    values, or it does, the employee was eligible for that shift when the
    day started, and the tracker holds what the assignment records. *)
Lemma strictDay_employee p st rows dn st' rows' i :
  strictDay p (st, rows) dn = (st', rows') →
  ∃ row, rows' = rows ++ [row]
    ∧ ((worksOn i row = false ∧ entry st' i = entry st i)
       ∨ (worksOn i row = true
          ∧ ∃ e sh, Employee.id e = i ∧ eligible p st e sh dn [] noRelax = true
              ∧ entry st' i
                = entry (updateOnAssign p st i (ymd (year p) (monthIndex0 p) dn) dn sh) i)).
Proof.
  intros H. apply strictDay_spec in H
    as (row & -> & Hdate & _ & _ & Hf & _ & _ & Hed & Hen & Hud & Hun).
  exists row. split; [done|].
  destruct (worksOn i row) eqn:Hw.
  - right. split; [done|]. apply worksOn_true in Hw. rewrite <- Hdate.
    apply elem_of_app in Hw as [Hw | Hw].
    + destruct (Hed i Hw) as (e & _ & Hid & Hel). exists e, day. eauto.
    + destruct (Hen i Hw) as (e & _ & Hid & Hel). exists e, night. eauto.
  - left. split; [done|]. apply Hf. by apply worksOn_false.
Qed.

(** Induction over the days of the strict pass. *)
Lemma strictPass_ind p (I : State → list Row → Prop) st0 :
  I st0 [] →
  (∀ st rows st' rows',
     I st rows → (length rows < Z.to_nat (dInM p))%nat →
     strictDay p (st, rows) (Z.of_nat (S (length rows))) = (st', rows') → I st' rows') →
  ∀ st rows, strictPass p st0 = (st, rows) → I st rows.
Proof.
  intros H0 Hstep. unfold strictPass, dayNumbers.
  assert (Hgen : ∀ n st rows, I st rows → (length rows + n ≤ Z.to_nat (dInM p))%nat →
            ∀ st' rows',
              fold_left (strictDay p) (map Z.of_nat (seq (S (length rows)) n)) (st, rows)
              = (st', rows') → I st' rows').
  { induction n as [|n IH]; intros st rows Hi Hlen st' rows'; cbn [seq map fold_left].
    - by intros [= <- <-].
    - destruct (strictDay p (st, rows) (Z.of_nat (S (length rows)))) as [st1 rows1] eqn:E.
      assert (Hlt : (length rows < Z.to_nat (dInM p))%nat) by (clear -Hlen; lia).
      pose proof (Hstep _ _ _ _ Hi Hlt E) as Hi1.
      apply strictDay_spec in E as (row & -> & _).
      intros H. apply (IH st1 (rows ++ [row])); [done | rewrite length_app; simpl; clear -Hlen; lia |].
      rewrite length_app. simpl. by rewrite Nat.add_1_r. }
  intros st rows H. apply (Hgen (Z.to_nat (dInM p)) st0 [] H0); [simpl; lia | exact H].
Qed.

(** ** The weekly cap in the strict pass *)

Lemma appearances_nonneg i rows : 0 ≤ appearances i rows.
Proof. unfold appearances. lia. Qed.

Lemma appearances_snoc i rows row :
  appearances i (rows ++ [row]) = appearances i rows + (if worksOn i row then 1 else 0).
Proof.
  rewrite appearances_app. f_equal. unfold appearances. simpl. by destruct (worksOn i row).
Qed.

Lemma appearances_drop_le i (a : nat) rows : appearances i (drop a rows) ≤ appearances i rows.
Proof.
  rewrite <- (take_drop a rows) at 2. rewrite appearances_app.
  pose proof (appearances_nonneg i (take a rows)). lia.
Qed.

(** The loop of [windowCount] over a stretch of days, counted on the rows
    of those days. *)
Lemma countFrom_appearances i (set : gset Z) :
  ∀ (rows : list Row) (a : nat),
    (∀ (k : nat) r, rows !! k = Some r →
       (Z.of_nat a + Z.of_nat k + 1 ∈ set ↔ worksOn i r = true)) →
    countFrom set (Z.of_nat a + 1) (length rows) = appearances i rows.
Proof.
  induction rows as [|r rows IH]; intros a H; [done|].
  cbn [length countFrom]. rewrite appearances_cons.
  replace (Z.of_nat a + 1 + 1) with (Z.of_nat (S a) + 1) by lia.
  rewrite IH.
  2:{ intros k r' Hk. rewrite <- (H (S k) r' Hk). f_equiv. lia. }
  f_equal. pose proof (H 0%nat r eq_refl) as H0.
  replace (Z.of_nat a + Z.of_nat 0 + 1) with (Z.of_nat a + 1) in H0 by lia.
  unfold appearances. simpl.
  destruct (worksOn i r); case_bool_decide; simpl; try done.
  - destruct H0 as [_ H0]. by specialize (H0 eq_refl).
  - destruct H0 as [H0 _]. by specialize (H0 ltac:(done)).
Qed.

(** Appending a row keeps every window of seven rows within [c] listings
    when the last six rows hold fewer than [c] of them, or the new row does
    not list the employee. *)
Lemma window_snoc i (c : Z) rows row :
  0 ≤ c →
  (∀ a : nat, appearances i (take 7 (drop a rows)) ≤ c) →
  (worksOn i row = true → appearances i (drop (length rows - 6) rows) < c) →
  ∀ a : nat, appearances i (take 7 (drop a (rows ++ [row]))) ≤ c.
Proof.
  intros Hc Hwin Hlast a.
  destruct (decide (a + 7 ≤ length rows)%nat) as [Hfar | Hnear].
  { rewrite drop_app_le by lia. rewrite take_app_le by (rewrite length_drop; lia). apply Hwin. }
  destruct (decide (a ≤ length rows)%nat) as [Hin | Hout].
  2:{ rewrite drop_ge by (rewrite length_app; simpl; lia). by rewrite take_nil. }
  rewrite drop_app_le by lia.
  rewrite take_ge by (rewrite length_app, length_drop; simpl; lia).
  rewrite appearances_snoc.
  destruct (worksOn i row) eqn:Hw.
  - specialize (Hlast eq_refl).
    replace (drop a rows) with (drop (a - (length rows - 6)) (drop (length rows - 6) rows)).
    2:{ rewrite drop_drop. f_equal. lia. }
    pose proof (appearances_drop_le i (a - (length rows - 6)) (drop (length rows - 6) rows)).
    lia.
  - specialize (Hwin a). rewrite take_ge in Hwin by (rewrite length_drop; lia). lia.
Qed.

Lemma initState_workedDays p s i : workedDays (initState p s) i = ∅.
Proof.
  unfold workedDays, initState. simpl.
  destruct (list_to_map _ !! i) as [z|] eqn:E; [|done]. simpl.
  apply elem_of_list_to_map_2 in E.
  apply list_elem_of_fmap in E as (j & [= _ ->] & _). done.
Qed.

(** The days recorded for an employee are the days of the rows that list
    the employee, and no seven consecutive rows list the employee more than
    [max 0 weeklyCap] times. *)
Lemma strictPass_weekly p s st rows i :
  strictPass p (initState p s) = (st, rows) →
  (∀ d, d ∈ workedDays st i ↔
        ∃ (k : nat) r, d = Z.of_nat k + 1 ∧ rows !! k = Some r ∧ worksOn i r = true)
  ∧ ∀ a : nat, appearances i (take 7 (drop a rows)) ≤ Z.max 0 (weeklyCap p).
Proof.
  apply (strictPass_ind p (λ st rows,
    (∀ d, d ∈ workedDays st i ↔
          ∃ (k : nat) r, d = Z.of_nat k + 1 ∧ rows !! k = Some r ∧ worksOn i r = true)
    ∧ ∀ a : nat, appearances i (take 7 (drop a rows)) ≤ Z.max 0 (weeklyCap p))).
  - split.
    + intros d. rewrite initState_workedDays. split; [set_solver|].
      intros (k & r & _ & Hk & _). by rewrite lookup_nil in Hk.
    + intros a. rewrite drop_nil, take_nil. unfold appearances. simpl. lia.
  - clear st rows. intros st rows st' rows' [Hw Hwin] Hlen Hday.
    apply (strictDay_employee _ _ _ _ _ _ i) in Hday as (row & -> & Hcase).
    assert (Hsnoc : ∀ d (b : bool), worksOn i row = b →
              (d ∈ (if b then {[Z.of_nat (S (length rows))]} ∪ workedDays st i
                    else workedDays st i) ↔
               ∃ (k : nat) r, d = Z.of_nat k + 1 ∧ (rows ++ [row]) !! k = Some r
                              ∧ worksOn i r = true)).
    { intros d b Hb. split.
      - intros Hd.
        assert (Hor : (b = true ∧ d = Z.of_nat (S (length rows))) ∨ d ∈ workedDays st i).
        { destruct b; [|by right]. apply elem_of_union in Hd as [Hd | Hd]; [|by right].
          left. split; [done|]. by apply elem_of_singleton in Hd. }
        destruct Hor as [[-> ->] | Hd'].
        + exists (length rows), row. split; [lia|]. split; [|done].
          by rewrite lookup_app_r, Nat.sub_diag by lia.
        + apply Hw in Hd' as (k & r & -> & Hk & Hr). exists k, r. split; [done|].
          split; [|done]. rewrite lookup_app_l; [done|]. by eapply lookup_lt_Some.
      - intros (k & r & -> & Hk & Hr).
        destruct (decide (k < length rows)%nat) as [Hlt | Hge].
        + rewrite lookup_app_l in Hk by done.
          assert (Hd : Z.of_nat k + 1 ∈ workedDays st i) by (apply Hw; eauto).
          destruct b; [apply elem_of_union; by right | done].
        + assert (k = length rows) as ->.
          { apply lookup_lt_Some in Hk. rewrite length_app in Hk. simpl in Hk. lia. }
          rewrite lookup_app_r, Nat.sub_diag in Hk by lia. injection Hk as <-.
          rewrite Hr in Hb. subst b. apply elem_of_union. left. apply elem_of_singleton. lia. }
    destruct Hcase as [[Hno Hent] | [Hyes (e & sh & Hid & Hel & Hent)]].
    + split.
      * intros d. rewrite (entry_workedDays _ _ _ Hent). exact (Hsnoc d false Hno).
      * apply window_snoc; [lia | done | congruence].
    + split.
      * intros d. rewrite (entry_workedDays _ _ _ Hent), workedDays_updateOnAssign.
        exact (Hsnoc d true Hyes).
      * apply window_snoc; [lia | done |]. intros _.
        apply eligible_iff in Hel as (_ & _ & _ & [Hrel | Hcap]); [discriminate|].
        rewrite Hid in Hcap.
        assert (Hcount : windowCount st i (Z.of_nat (S (length rows))) 7
                         = appearances i (drop (length rows - 6) rows)).
        { unfold windowCount.
          replace (Z.max 1 (Z.of_nat (S (length rows)) - (7 - 1)))
            with (Z.of_nat (length rows - 6) + 1) by lia.
          replace (Z.to_nat (Z.of_nat (S (length rows)) - 1 - (Z.of_nat (length rows - 6) + 1) + 1))
            with (length (drop (length rows - 6) rows)) by (rewrite length_drop; lia).
          apply countFrom_appearances. intros k r Hk. rewrite lookup_drop in Hk.
          rewrite Hw. split.
          - intros (k' & r' & Heq & Hk' & Hr').
            assert (k' = (length rows - 6 + k)%nat) as -> by lia. congruence.
          - intros Hr. exists (length rows - 6 + k)%nat, r. split; [lia | done]. }
        lia.
Qed.

(** ** The consecutive-day limit in the strict pass *)






(** ** The iterations of the hard fill *)

(** A call of [fillSlot] that picks nobody returns the row it was given. *)
Lemma fillSlot_nobody p st row idx sh st' row' :
  rowSound p (primaries p ++ reserves p) row →
  fillSlot p st row idx sh = (st', row') →
  idsOf sh row' = idsOf sh row → row' = row.
Proof.
  intros (_ & _ & _ & Hmd & Hmn & _) H Hsame.
  apply fillSlot_spec in H as (Hdt & Hid & Hin & Hoth & Hmo & Hms & _).
  rewrite Hsame in Hms.
  destruct row, row', sh; simpl in *; subst; f_equal; lia.
Qed.

Lemma fillSlot_total p st row idx sh :
  rowSound p (primaries p ++ reserves p) row →
  0 < missingOf row sh →
  ∃ st' row', fillSlot p st row idx sh = (st', row')
    ∧ ((st' = st ∧ row' = row)
       ∨ (rowSound p (primaries p ++ reserves p) row'
          ∧ missingOf row' sh = missingOf row sh - 1)).
Proof.
  intros Hs Hm. destruct (fillSlot p st row idx sh) as [st' row'] eqn:E.
  exists st', row'. split; [done|].
  pose proof (fillSlot_spec _ _ _ _ _ _ _ E) as (_ & _ & _ & _ & _ & Hms & Hcase).
  destruct Hcase as [[-> Hsame] | [relax Hst]].
  - left. split; [done|]. by eapply fillSlot_nobody.
  - right. split; [by eapply fillSlot_sound|].
    apply pickStage_spec in Hst as (chosen & _ & Happ & _).
    rewrite Hms, Happ, length_app. simpl.
    destruct Hs as (_ & _ & _ & Hmd & Hmn & _). destruct sh; simpl in *; lia.
Qed.

(** The loop of a seat ends within as many iterations as seats are missing,
    or not at all. *)
Lemma fillWhile_stable p idx sh :
  ∀ (m fuel : nat) st row,
    rowSound p (primaries p ++ reserves p) row →
    missingOf row sh ≤ Z.of_nat m → (m ≤ fuel)%nat →
    fillWhile p fuel idx sh st row = fillWhile p m idx sh st row.
Proof.
  induction m as [|m IH]; intros fuel st row Hs Hm Hf.
  - by rewrite !fillWhile_done by lia.
  - destruct (decide (missingOf row sh ≤ 0)) as [Hz | Hpos].
    { by rewrite !fillWhile_done by lia. }
    destruct fuel as [|fuel]; [lia|]. cbn [fillWhile].
    replace (0 <? missingOf row sh) with true by lia.
    destruct (fillSlot_total p st row idx sh Hs ltac:(lia)) as (st1 & row1 & E & Hcase).
    rewrite E. destruct Hcase as [[-> ->] | [Hs1 Hm1]].
    + by rewrite !fillWhile_stuck by (done || lia).
    + apply IH; [done | lia | lia].
Qed.

Lemma hardFillRows_stable p (m fuel : nat) :
  (m ≤ fuel)%nat →
  ∀ rows idx st,
    Forall (rowSound p (primaries p ++ reserves p)) rows →
    Forall (λ row, dayMissing row ≤ Z.of_nat m ∧ nightMissing row ≤ Z.of_nat m) rows →
    hardFillRows p fuel idx st rows = hardFillRows p m idx st rows.
Proof.
  intros Hf. induction rows as [|row rest IH]; intros idx st Hs Hm; [done|].
  apply Forall_cons in Hs as [Hrow Hrest]. apply Forall_cons in Hm as [[Hd Hn] Hmrest].
  cbn [hardFillRows].
  rewrite (fillWhile_stable p idx day m fuel st row) by done.
  destruct (fillWhile p m idx day st row) as [[st1 row1]|] eqn:E1; [|done].
  apply fillWhile_spec in E1 as (Hs1 & _ & _ & Ho1 & _); [|done].
  assert (Hn1 : nightMissing row1 ≤ Z.of_nat m).
  { destruct Hs1 as (_ & _ & _ & _ & Hn1 & _). destruct Hrow as (_ & _ & _ & _ & Hn0 & _).
    simpl in Ho1. rewrite Hn1, Ho1, <- Hn0. done. }
  rewrite (fillWhile_stable p idx night m fuel st1 row1) by done.
  destruct (fillWhile p m idx night st1 row1) as [[st2 row2]|]; [|done].
  by rewrite IH.
Qed.

(** ** Month lengths *)

Lemma yearStart_succ y : yearStart y - yearStart (y - 1) = if isLeap y then 366 else 365.
Proof.
  unfold yearStart, isLeap. cbv zeta.
  destruct (y mod 4 =? 0) eqn:E4; destruct (y mod 100 =? 0) eqn:E100;
    destruct (y mod 400 =? 0) eqn:E400; simpl;
    rewrite ?Z.eqb_eq, ?Z.eqb_neq in *; Z.div_mod_to_equations; lia.
Qed.

Lemma daysFromCivil_yearStart y m :
  1 ≤ m ≤ 12 →
  daysFromCivil y m
  = yearStart (if m <=? 2 then y - 1 else y) + (153 * ((m + 9) mod 12) + 2) / 5 - 719468.
Proof. intros _. unfold daysFromCivil, yearStart. cbv zeta. lia. Qed.

Lemma daysInMonth_gregorianLength y m0 :
  daysInMonth y m0 = gregorianLength (jsYear y + m0 / 12) (m0 mod 12).
Proof.
  unfold daysInMonth, dateIndex.
  pose proof (Z.mod_pos_bound m0 12 ltac:(lia)) as Hr.
  pose proof (Z.div_mod m0 12 ltac:(lia)) as Hq.
  assert (Hnext : ((m0 + 1) / 12 = m0 / 12 ∧ (m0 + 1) mod 12 = m0 mod 12 + 1 ∧ m0 mod 12 < 11)
                  ∨ ((m0 + 1) / 12 = m0 / 12 + 1 ∧ (m0 + 1) mod 12 = 0 ∧ m0 mod 12 = 11)).
  { Z.div_mod_to_equations. lia. }
  set (q := m0 / 12) in *. set (r := m0 mod 12) in *.
  rewrite !daysFromCivil_yearStart by lia.
  destruct Hnext as [(-> & -> & Hlt) | (-> & -> & H11)].
  - assert (Hc : r = 0 ∨ r = 1 ∨ r = 2 ∨ r = 3 ∨ r = 4 ∨ r = 5 ∨ r = 6 ∨ r = 7 ∨ r = 8
                 ∨ r = 9 ∨ r = 10) by lia.
    clearbody r q. clear Hq Hr Hlt.
    pose proof (yearStart_succ (jsYear y + q)) as Hy.
    repeat (destruct Hc as [-> | Hc]); try subst r; unfold gregorianLength; simpl;
      destruct (isLeap (jsYear y + q)); Z.div_mod_to_equations; lia.
  - rewrite H11. unfold gregorianLength. simpl.
    replace (jsYear y + (q + 1) - 1) with (jsYear y + q) by lia.
    Z.div_mod_to_equations. lia.
Qed.

(** ** Edits by hand *)

Lemma filter_ne_not_in (i : string) (l : list string) :
  i ∉ l → List.filter (λ j, bool_decide (j ≠ i)) l = l.
Proof.
  induction l as [|x l IH]; intros Hi; [done|]. simpl.
  apply not_elem_of_cons in Hi as [Hne Hi].
  rewrite bool_decide_eq_true_2 by done. by rewrite IH.
Qed.

Lemma filter_ne_snoc (i : string) (l : list string) :
  i ∉ l → List.filter (λ j, bool_decide (j ≠ i)) (l ++ [i]) = l.
Proof.
  intros Hi. rewrite List.filter_app, filter_ne_not_in by done. simpl.
  rewrite bool_decide_eq_false_2 by (intros H; by apply H). apply app_nil_r.
Qed.

Lemma filter_ne_length (i : string) (l : list string) :
  NoDup l → i ∈ l →
  S (length (List.filter (λ j, bool_decide (j ≠ i)) l)) = length l.
Proof.
  induction l as [|x l IH]; intros Hnd Hi; [by apply elem_of_nil in Hi|].
  apply NoDup_cons in Hnd as [Hx Hnd]. simpl.
  destruct (decide (x = i)) as [-> | Hne].
  - rewrite bool_decide_eq_false_2 by (intros H; by apply H).
    by rewrite filter_ne_not_in.
  - rewrite bool_decide_eq_true_2 by done. simpl. f_equal. apply IH; [done|].
    apply elem_of_cons in Hi as [-> | Hi]; done.
Qed.

(** ** The counters *)

Lemma tallyDay_lookup m j i :
  tallyDay m j !! i
  = match m !! i with
    | Some (des, d, n) => Some (des, d + (if decide (j = i) then 1 else 0), n)
    | None => None
    end.
Proof.
  unfold tallyDay. destruct (decide (j = i)) as [-> | Hne].
  - destruct (m !! i) as [[[des d] n]|] eqn:E; [by rewrite lookup_insert_eq | by rewrite E].
  - destruct (m !! j) as [[[des d] n]|] eqn:E.
    + rewrite lookup_insert_ne by done. destruct (m !! i) as [[[? ?] ?]|]; [|done].
      do 2 f_equal. f_equal. lia.
    + destruct (m !! i) as [[[? ?] ?]|]; [|done]. do 2 f_equal. f_equal. lia.
Qed.

Lemma tallyNight_lookup m j i :
  tallyNight m j !! i
  = match m !! i with
    | Some (des, d, n) => Some (des, d, n + (if decide (j = i) then 1 else 0))
    | None => None
    end.
Proof.
  unfold tallyNight. destruct (decide (j = i)) as [-> | Hne].
  - destruct (m !! i) as [[[des d] n]|] eqn:E; [by rewrite lookup_insert_eq | by rewrite E].
  - destruct (m !! j) as [[[des d] n]|] eqn:E.
    + rewrite lookup_insert_ne by done. destruct (m !! i) as [[[? ?] ?]|]; [|done].
      do 2 f_equal. lia.
    + destruct (m !! i) as [[[? ?] ?]|]; [|done]. do 2 f_equal. lia.
Qed.

Lemma occurrences_cons i j l :
  occurrences i (j :: l) = (if decide (j = i) then 1 else 0) + occurrences i l.
Proof.
  unfold occurrences. simpl. destruct (decide (j = i)).
  - rewrite bool_decide_eq_true_2 by done. simpl. lia.
  - rewrite bool_decide_eq_false_2 by done. lia.
Qed.

Lemma tallyDay_fold i l :
  ∀ m, fold_left tallyDay l m !! i
       = match m !! i with
         | Some (des, d, n) => Some (des, d + occurrences i l, n)
         | None => None
         end.
Proof.
  induction l as [|j l IH]; intros m; simpl.
  - destruct (m !! i) as [[[? ?] ?]|]; [|done]. do 2 f_equal. f_equal.
    unfold occurrences. simpl. lia.
  - rewrite IH, tallyDay_lookup. destruct (m !! i) as [[[? ?] ?]|]; [|done].
    rewrite occurrences_cons. do 2 f_equal. f_equal. lia.
Qed.

Lemma tallyNight_fold i l :
  ∀ m, fold_left tallyNight l m !! i
       = match m !! i with
         | Some (des, d, n) => Some (des, d, n + occurrences i l)
         | None => None
         end.
Proof.
  induction l as [|j l IH]; intros m; simpl.
  - destruct (m !! i) as [[[? ?] ?]|]; [|done]. do 2 f_equal.
    unfold occurrences. simpl. lia.
  - rewrite IH, tallyNight_lookup. destruct (m !! i) as [[[? ?] ?]|]; [|done].
    rewrite occurrences_cons. do 2 f_equal. lia.
Qed.

Lemma occurrences_NoDup i l :
  NoDup l → occurrences i l = if includes l i then 1 else 0.
Proof.
  induction l as [|j l IH]; intros Hnd; [done|].
  apply NoDup_cons in Hnd as [Hj Hnd]. rewrite occurrences_cons, IH by done.
  unfold includes. destruct (decide (j = i)) as [-> | Hne].
  - rewrite (bool_decide_eq_false_2 (i ∈ l)) by done.
    rewrite bool_decide_eq_true_2 by left. done.
  - destruct (decide (i ∈ l)).
    + rewrite !bool_decide_eq_true_2; [done | by right | done].
    + rewrite !bool_decide_eq_false_2; [done | | done].
      intros [? | ?]%elem_of_cons; [by subst | done].
Qed.

(** The tallies after all rows, for rows that list nobody twice. *)
Lemma tallyRow_fold i rows :
  Forall (λ r, NoDup (dayIds r ++ nightIds r)) rows →
  ∀ m, fold_left tallyRow rows m !! i
       = match m !! i with
         | Some (des, d, n) =>
             Some (des, d + shiftAppearances day i rows, n + shiftAppearances night i rows)
         | None => None
         end.
Proof.
  induction 1 as [|r rows Hr _ IH]; intros m; simpl.
  - destruct (m !! i) as [[[? ?] ?]|]; [|done].
    apply (f_equal Some), pair_equal_spec. split; [apply pair_equal_spec; split; [done|]|];
      unfold shiftAppearances; simpl; lia.
  - rewrite IH. unfold tallyRow. rewrite tallyNight_fold, tallyDay_fold.
    destruct (m !! i) as [[[? ?] ?]|]; [|done].
    apply NoDup_app in Hr as (Hd & _ & Hn).
    rewrite !occurrences_NoDup by done.
    unfold shiftAppearances. simpl.
    apply (f_equal Some), pair_equal_spec. split; [apply pair_equal_spec; split; [done|]|].
    + destruct (includes (dayIds r) i); simpl; lia.
    + destruct (includes (nightIds r) i); simpl; lia.
Qed.

Lemma counterMap_fold emps i :
  ∀ m : gmap string (Z * Z * Z), i ∉ map Employee.id emps →
       fold_left (λ m e, <[Employee.id e := (Employee.desiredShifts e, 0, 0)]> m) emps m !! i
       = m !! i.
Proof.
  induction emps as [|x emps IH]; intros m Hi; [done|]. simpl in *.
  apply not_elem_of_cons in Hi as [Hne Hi]. rewrite IH by done.
  by rewrite lookup_insert_ne.
Qed.

Lemma counterMap_lookup emps e :
  NoDup (map Employee.id emps) → e ∈ emps →
  counterMap emps !! Employee.id e = Some (Employee.desiredShifts e, 0, 0).
Proof.
  unfold counterMap. generalize (∅ : gmap string (Z * Z * Z)).
  induction emps as [|x emps IH]; intros m Hnd He; [by apply elem_of_nil in He|].
  simpl in *. apply NoDup_cons in Hnd as [Hx Hnd].
  apply elem_of_cons in He as [-> | He].
  - rewrite counterMap_fold by done. by rewrite lookup_insert_eq.
  - by apply IH.
Qed.

Lemma shiftAppearances_cons sh i r rows :
  shiftAppearances sh i (r :: rows)
  = (if includes (idsOf sh r) i then 1 else 0) + shiftAppearances sh i rows.
Proof.
  unfold shiftAppearances. simpl. destruct (includes (idsOf sh r) i); simpl; lia.
Qed.

Lemma shiftAppearances_sum i rows :
  Forall (λ r, NoDup (dayIds r ++ nightIds r)) rows →
  shiftAppearances day i rows + shiftAppearances night i rows = appearances i rows.
Proof.
  induction 1 as [|r rows Hr _ IH]; [done|].
  rewrite !shiftAppearances_cons, appearances_cons, appearances_one, <- IH. simpl.
  apply NoDup_app in Hr as (_ & Hdis & _).
  destruct (includes (dayIds r) i) eqn:Hd, (includes (nightIds r) i) eqn:Hn.
  - apply includes_true in Hd, Hn. by destruct (Hdis i).
  - apply includes_true in Hd. rewrite decide_True by (apply elem_of_app; by left). lia.
  - apply includes_true in Hn. rewrite decide_True by (apply elem_of_app; by right). lia.
  - apply includes_false in Hd, Hn.
    rewrite decide_False by (intros [?|?]%elem_of_app; done). lia.
Qed.

(** ** The rows and their dates *)

(** Row [k] of a returned table carries the date of day [k + 1]. *)
Lemma generateSchedule_dates p fuel entropy out (k : nat) r :
  generateSchedule p fuel entropy = Some out →
  days out !! k = Some r →
  date r = mkDate (year p) (monthIndex0 p + 1) (Z.of_nat k + 1).
Proof.
  intros H Hk. apply generateSchedule_sound in H as (Hd & _).
  apply (f_equal (λ l, l !! k)) in Hd. rewrite !list_lookup_fmap, Hk in Hd. simpl in Hd.
  destruct (dayNumbers p !! k) as [d|] eqn:E; [|discriminate].
  apply dayNumbers_lookup in E as [-> Hr]. injection Hd as ->.
  by apply ymd_in_month.
Qed.

(** [find] returns the only row of a date. *)
Lemma findRow_unique rows dt :
  ∀ (k : nat) r,
    rows !! k = Some r → date r = dt →
    (∀ (k' : nat) r', rows !! k' = Some r' → date r' = dt → k' = k) →
    findRow rows dt = Some r.
Proof.
  unfold findRow. induction rows as [|x rows IH]; intros k r Hk Hd Huniq; [done|].
  simpl. destruct k as [|k].
  - injection Hk as ->. by rewrite bool_decide_eq_true_2.
  - case_bool_decide as Hx.
    + by specialize (Huniq 0%nat x eq_refl Hx).
    + apply (IH k); [done | done |].
      intros k' r' Hk' Hd'. specialize (Huniq (S k') r' Hk' Hd'). lia.
Qed.

(** ** The week buckets *)

Lemma getDay_range y m0 d : 0 ≤ getDay y m0 d < 7.
Proof. unfold getDay. apply Z.mod_pos_bound. lia. Qed.

Lemma dInM_range p : 28 ≤ dInM p ≤ 31.
Proof.
  unfold dInM. rewrite daysInMonth_gregorianLength. unfold gregorianLength.
  destruct (_ =? 1); [destruct (isLeap _); lia|]. destruct (_ || _); lia.
Qed.

(** ** Seats and demand *)

Lemma seatsOf_sound p roster rows :
  Forall (rowSound p roster) rows →
  seatsOf rows = Z.of_nat (length rows) * (Z.max 0 (daySlots p) + Z.max 0 (nightSlots p)).
Proof.
  induction 1 as [|r rows (_ & Hld & Hln & Hmd & Hmn & _) _ IH]; [simpl; lia|].
  cbn [seatsOf fold_right length]. fold (seatsOf rows). rewrite IH. lia.
Qed.

(** ** CSV fields *)

Lemma readQuoted_doubleQuotes s :
  CSV.readQuoted (CSV.doubleQuotes s +:+ String CSV.quote EmptyString) = s.
Proof.
  induction s as [|x s IH]; [done|]. simpl.
  destruct (Ascii.eqb x CSV.quote) eqn:E.
  - apply Ascii.eqb_eq in E as ->. simpl. by rewrite IH.
  - simpl. rewrite E. by rewrite IH.
Qed.

(** ** The relaxation of the streak *)

(** Eligibility does not depend on [ignoreStreak]. *)
Lemma eligible_ignoreStreak p st e sh dn dap w b :
  eligible p st e sh dn dap (mkRelax w b) = eligible p st e sh dn dap (mkRelax w false).
Proof.
  destruct (eligible p st e sh dn dap (mkRelax w false)) eqn:E.
  - apply eligible_iff. apply eligible_iff in E. exact E.
  - apply not_true_is_false. intros H. apply eligible_iff in H.
    apply not_true_iff_false in E. apply E. apply eligible_iff. exact H.
Qed.

(** ** The diagnostics *)

Lemma bump_keys r l : ∀ r', r' ∈ map fst (bump r l) ↔ r' = r ∨ r' ∈ map fst l.
Proof.
  induction l as [|[k n] l IH]; intros r'; simpl.
  - rewrite list_elem_of_singleton, elem_of_nil. tauto.
  - case_bool_decide as Hk; simpl.
    + subst k. rewrite !elem_of_cons. tauto.
    + rewrite !elem_of_cons, IH. tauto.
Qed.

Lemma bump_NoDup r l : NoDup (map fst l) → NoDup (map fst (bump r l)).
Proof.
  induction l as [|[k n] l IH]; intros Hnd; simpl.
  - apply NoDup_singleton.
  - apply NoDup_cons in Hnd as [Hk Hnd]. simpl in Hk.
    case_bool_decide as Hkr; simpl.
    + by apply NoDup_cons.
    + apply NoDup_cons. split; [|by apply IH].
      rewrite bump_keys. intros [-> | H]; done.
Qed.

Lemma bump_countOf r l r' :
  countOf r' (bump r l) = countOf r' l + (if decide (r = r') then 1 else 0).
Proof.
  induction l as [|[k n] l IH]; simpl.
  - destruct (decide (r = r')); [by rewrite bool_decide_eq_true_2
                                | by rewrite bool_decide_eq_false_2].
  - case_bool_decide as Hkr; simpl.
    + subst k. destruct (decide (r = r')).
      * by rewrite bool_decide_eq_true_2.
      * rewrite bool_decide_eq_false_2 by done. lia.
    + case_bool_decide as Hk'; [|exact IH].
      subst k. rewrite decide_False by (intros ->; done). lia.
Qed.

Lemma bump_positive r l : Forall (λ x, 0 < snd x) l → Forall (λ x, 0 < snd x) (bump r l).
Proof.
  induction l as [|[k n] l IH]; intros H; simpl.
  - apply Forall_singleton. simpl. lia.
  - apply Forall_cons in H as [Hn H]. simpl in Hn.
    case_bool_decide; apply Forall_cons; (split; [simpl; lia|]); [done | by apply IH].
Qed.

(** A key is in the summary exactly when its count is positive. *)
Lemma countOf_positive l r :
  Forall (λ x, 0 < snd x) l → (r ∈ map fst l ↔ 0 < countOf r l).
Proof.
  induction l as [|[k n] l IH]; intros H; simpl.
  - rewrite elem_of_nil. lia.
  - apply Forall_cons in H as [Hn H]. simpl in Hn. rewrite elem_of_cons.
    case_bool_decide as Hk.
    + subst k. split; [lia | by left].
    + rewrite <- (IH H). split; [intros [-> | ?]; done | by right].
Qed.

Lemma countOf_elem_of l r n :
  NoDup (map fst l) → ((r, n) ∈ l ↔ r ∈ map fst l ∧ countOf r l = n).
Proof.
  induction l as [|[k m] l IH]; intros Hnd; simpl.
  - rewrite !elem_of_nil. tauto.
  - apply NoDup_cons in Hnd as [Hk Hnd]. simpl in Hk. rewrite !elem_of_cons, (IH Hnd).
    case_bool_decide as Hkr.
    + subst k. split.
      * intros [[= ->] | [Hin _]]; [split; [by left | done] | done].
      * intros [_ ->]. by left.
    + split.
      * intros [[= -> ->] | [Hin Hc]]; [done | split; [by right | done]].
      * intros [[-> | Hin] Hc]; [done | right; done].
Qed.

(** The summary after the reasons of a list of candidates have been
    counted. *)
Lemma bump_fold_reasons (rs : list Reason) :
  ∀ l, NoDup (map fst l) → Forall (λ x, 0 < snd x) l →
    NoDup (map fst (fold_left (λ acc r, bump r acc) rs l))
    ∧ Forall (λ x, 0 < snd x) (fold_left (λ acc r, bump r acc) rs l)
    ∧ ∀ r', countOf r' (fold_left (λ acc r, bump r acc) rs l)
            = countOf r' l + Z.of_nat (length (List.filter (λ r, bool_decide (r = r')) rs)).
Proof.
  induction rs as [|r rs IH]; intros l Hnd Hpos; simpl.
  - split; [done|]. split; [done|]. intros r'. lia.
  - destruct (IH (bump r l) (bump_NoDup _ _ Hnd) (bump_positive _ _ Hpos)) as (H1 & H2 & H3).
    split; [done|]. split; [done|]. intros r'. rewrite H3, bump_countOf.
    destruct (decide (r = r')).
    + rewrite bool_decide_eq_true_2 by done. simpl. lia.
    + rewrite bool_decide_eq_false_2 by done. lia.
Qed.

Lemma eligibilityReasons_NoDup p st cand sh dn dap relax :
  NoDup (eligibilityReasons p st cand sh dn dap relax ++ [HardCeiling])
  ∧ NoDup (eligibilityReasons p st cand sh dn dap relax).
Proof.
  unfold eligibilityReasons.
  destruct (includes dap _), (negb (ignoreStreak relax) && _),
    (bool_decide (sh = day) && _ && _), (negb (ignoreWeeklyCap relax) && _),
    (maxStreak p <=? streakOf st _); simpl;
    split; repeat (apply NoDup_cons; split;
                   [rewrite ?elem_of_cons, elem_of_nil; intros H;
                    repeat destruct H as [H | H]; done |]);
    apply NoDup_nil; done.
Qed.

Lemma blockers_NoDup p st pools sh dn dap cand : NoDup (blockers p st pools sh dn dap cand).
Proof.
  unfold blockers. destruct (eligibilityReasons_NoDup p st cand sh dn dap noRelax).
  by destruct (_ && _).
Qed.

Lemma filter_eq_NoDup (r : Reason) (rs : list Reason) :
  NoDup rs →
  Z.of_nat (length (List.filter (λ x, bool_decide (x = r)) rs))
  = if bool_decide (r ∈ rs) then 1 else 0.
Proof.
  induction rs as [|x rs IH]; intros Hnd; [done|].
  apply NoDup_cons in Hnd as [Hx Hnd]. simpl. specialize (IH Hnd).
  destruct (decide (x = r)) as [-> | Hne].
  - rewrite bool_decide_eq_true_2 by done. simpl.
    rewrite (bool_decide_eq_false_2 (r ∈ rs)) in IH by done.
    rewrite (bool_decide_eq_true_2 (r ∈ r :: rs)) by left. lia.
  - rewrite bool_decide_eq_false_2 by done. rewrite IH.
    destruct (decide (r ∈ rs)).
    + rewrite !bool_decide_eq_true_2; [done | by right | done].
    + rewrite !bool_decide_eq_false_2; [done | | done].
      intros [? | ?]%elem_of_cons; [by subst | done].
Qed.

(** The summary of the diagnostics, before it is rendered. *)
Lemma reasonCounts_spec p st pools sh dn dap (cands : list Employee.t) :
  ∀ l, NoDup (map fst l) → Forall (λ x, 0 < snd x) l →
    let l' := fold_left
                (λ acc cand,
                   fold_left (λ acc' r, bump r acc') (blockers p st pools sh dn dap cand) acc)
                cands l in
    NoDup (map fst l') ∧ Forall (λ x, 0 < snd x) l'
    ∧ ∀ r, countOf r l'
           = countOf r l
             + Z.of_nat (length (List.filter
                                   (λ cand, bool_decide (r ∈ blockers p st pools sh dn dap cand))
                                   cands)).
Proof.
  induction cands as [|c cands IH]; intros l Hnd Hpos; simpl.
  - split; [done|]. split; [done|]. intros r. lia.
  - destruct (bump_fold_reasons (blockers p st pools sh dn dap c) l Hnd Hpos) as (H1 & H2 & H3).
    destruct (IH _ H1 H2) as (H4 & H5 & H6).
    split; [done|]. split; [done|]. intros r. rewrite H6, H3.
    rewrite (filter_eq_NoDup r _ (blockers_NoDup p st pools sh dn dap c)).
    destruct (bool_decide (r ∈ blockers p st pools sh dn dap c)); simpl; lia.
Qed.

Lemma diagnostics_blockers p st pools sh dn dap :
  diagnostics p st pools sh dn dap
  = let l := fold_left
               (λ acc cand,
                  fold_left (λ acc' r, bump r acc') (blockers p st pools sh dn dap cand) acc)
               pools [] in
    match l with [] => [] | _ => [l] end.
Proof. reflexivity. Qed.

(** ** Hard fill as an option *)

Lemma strictPass_withHardFill p b s :
  strictPass (withHardFill p b) (initState (withHardFill p b) s) = strictPass p (initState p s).
Proof. destruct p. reflexivity. Qed.

Lemma meta_withHardFill p b :
  mkMeta (totalDemandOf (withHardFill p b)) (sumDesiredPrimariesOf (withHardFill p b))
         (allowReserves (withHardFill p b))
  = mkMeta (totalDemandOf p) (sumDesiredPrimariesOf p) (allowReserves p).
Proof. destruct p. reflexivity. Qed.

Lemma seedOf_withHardFill p b entropy : seedOf (withHardFill p b) entropy = seedOf p entropy.
Proof. reflexivity. Qed.

Lemma generateSchedule_strict p fuel entropy :
  hardFill p = false →
  generateSchedule p fuel entropy
  = Some (mkSchedule (snd (strictPass p (initState p (seedOf p entropy))))
            (mkMeta (totalDemandOf p) (sumDesiredPrimariesOf p) (allowReserves p))).
Proof.
  intros Hh. unfold generateSchedule, seedOf. rewrite Hh.
  by destruct (strictPass p _) as [st rows].
Qed.

(** ** Properties of every returned table *)

(** X1.  Every table returned by [generateSchedule] has one row per day of
    the month, in calendar order: their number is [daysInMonth], and row
    [k] (from 0) carries the date of day [k + 1] of the requested month. *)
Theorem rows_follow_the_calendar (p : Params) (fuel : nat) (entropy : Z) (out : Schedule) :
  generateSchedule p fuel entropy = Some out →
  length (days out) = Z.to_nat (daysInMonth (year p) (monthIndex0 p))
  ∧ ∀ (k : nat) (r : Row), days out !! k = Some r →
      date r = mkDate (year p) (monthIndex0 p + 1) (Z.of_nat k + 1).
Proof.
  intros H. split.
  - apply generateSchedule_sound in H as (Hd & _).
    apply (f_equal length) in Hd. rewrite !length_map in Hd. rewrite Hd.
    unfold dayNumbers. by rewrite length_map, length_seq.
  - intros k r Hk. by eapply generateSchedule_dates.
Qed.

Lemma rows_follow_the_calendar_witness :
  ∃ out, generateSchedule selfTestA 0 0 = Some out
    ∧ length (days out) = 31%nat
    ∧ ∀ (k : nat) (r : Row), days out !! k = Some r → date r = mkDate 2025 1 (Z.of_nat k + 1).
Proof.
  pose proof (rows_follow_the_calendar selfTestA 0 0) as H.
  remember (generateSchedule selfTestA 0 0) as g eqn:E.
  vm_compute in E. subst g.
  eexists. split; [reflexivity|]. exact (H _ eq_refl).
Defined.

(** X2.  No employee is listed twice in a row of a returned table, neither
    within a shift nor across the two shifts, with or without hard fill. *)
Theorem no_employee_twice_in_a_row (p : Params) (fuel : nat) (entropy : Z) (out : Schedule) :
  generateSchedule p fuel entropy = Some out →
  Forall (λ row, NoDup (dayIds row ++ nightIds row)) (days out).
Proof.
  intros H. apply generateSchedule_sound in H as (_ & Hs & _).
  eapply Forall_impl; [exact Hs|]. by intros r (H & _).
Qed.

Lemma no_employee_twice_in_a_row_witness :
  ∃ out, generateSchedule fourStaff 1 0 = Some out
    ∧ Forall (λ row, NoDup (dayIds row ++ nightIds row)) (days out).
Proof.
  pose proof (no_employee_twice_in_a_row fourStaff 1 0) as H.
  remember (generateSchedule fourStaff 1 0) as g eqn:E.
  vm_compute in E. subst g.
  eexists. split; [reflexivity|]. exact (H _ eq_refl).
Defined.

(** X3.  A returned table never seats more employees on a shift than the
    configured number of seats (none when that number is negative), and the
    missing counts of a row are the seats its lists leave open:
    [max(0, slots - ids.length)]. *)
Theorem seats_never_overfilled (p : Params) (fuel : nat) (entropy : Z) (out : Schedule) :
  generateSchedule p fuel entropy = Some out →
  Forall (λ row,
            Z.of_nat (length (dayIds row)) ≤ Z.max 0 (daySlots p)
            ∧ Z.of_nat (length (nightIds row)) ≤ Z.max 0 (nightSlots p)
            ∧ dayMissing row = Z.max 0 (daySlots p - Z.of_nat (length (dayIds row)))
            ∧ nightMissing row = Z.max 0 (nightSlots p - Z.of_nat (length (nightIds row))))
         (days out).
Proof.
  intros H. apply generateSchedule_sound in H as (_ & Hs & _).
  eapply Forall_impl; [exact Hs|]. by intros r (_ & ? & ? & ? & ? & _).
Qed.

Lemma seats_never_overfilled_witness :
  ∃ out, generateSchedule selfTestC 0 0 = Some out
    ∧ Forall (λ row,
                Z.of_nat (length (dayIds row)) ≤ 1
                ∧ Z.of_nat (length (nightIds row)) ≤ 1
                ∧ dayMissing row = Z.max 0 (1 - Z.of_nat (length (dayIds row)))
                ∧ nightMissing row = Z.max 0 (1 - Z.of_nat (length (nightIds row))))
             (days out).
Proof.
  pose proof (seats_never_overfilled selfTestC 0 0) as H.
  remember (generateSchedule selfTestC 0 0) as g eqn:E.
  vm_compute in E. subst g.
  eexists. split; [reflexivity|]. exact (H _ eq_refl).
Defined.

(** X4.  Every id in a returned table is the id of an employee of the
    input list.  When hard fill is off and the returned [meta] says that
    reserves were not allowed ([allowReservesInNormal] false: auto-reserves
    off, or the primaries' desired shifts below the demand), it is the id
    of an employee who is not a reserve. *)
Theorem assigned_ids_belong_to_roster (p : Params) (fuel : nat) (entropy : Z) (out : Schedule) :
  generateSchedule p fuel entropy = Some out →
  Forall (λ row, ∀ i, i ∈ dayIds row ++ nightIds row →
            ∃ e, e ∈ employees p ∧ Employee.id e = i) (days out)
  ∧ (hardFill p = false → allowReservesInNormal (meta out) = false →
     Forall (λ row, ∀ i, i ∈ dayIds row ++ nightIds row →
               ∃ e, e ∈ employees p ∧ Employee.isReserve e = false ∧ Employee.id e = i)
            (days out)).
Proof.
  intros H. pose proof H as H'.
  apply generateSchedule_sound in H as (_ & Hs & Hstrict).
  apply generateSchedule_cases in H' as (_ & _ & _ & Hm & _).
  split.
  - eapply Forall_impl; [exact Hs|]. intros r (_ & _ & _ & _ & _ & Hr) i Hi.
    destruct (Hr i Hi) as (e & He & Hid). exists e. split; [by apply pools_employees | done].
  - intros Hh Ha. rewrite Hm in Ha. simpl in Ha.
    eapply Forall_impl; [exact (Hstrict Hh)|]. intros r (_ & _ & _ & _ & _ & Hr) i Hi.
    destruct (Hr i Hi) as (e & He & Hid). exists e.
    unfold allowedPool in He. rewrite Ha in He. unfold primaries in He.
    apply elem_of_List_filter in He as [He Hres]. apply negb_true_iff in Hres. done.
Qed.

Lemma assigned_ids_belong_to_roster_witness :
  ∃ out, generateSchedule selfTestA 0 0 = Some out
    ∧ Forall (λ row, ∀ i, i ∈ dayIds row ++ nightIds row →
                ∃ e, e ∈ employees selfTestA ∧ Employee.isReserve e = false
                     ∧ Employee.id e = i) (days out).
Proof.
  pose proof (assigned_ids_belong_to_roster selfTestA 0 0) as H.
  remember (generateSchedule selfTestA 0 0) as g eqn:E.
  vm_compute in E. subst g.
  eexists. split; [reflexivity|].
  exact (proj2 (H _ eq_refl) eq_refl eq_refl).
Defined.

(** X5.  With hard fill on, a table that [generateSchedule] returns has no
    open seat: every row has both missing counts at 0 and exactly
    [max(0, daySlots)] ids on the day shift and [max(0, nightSlots)] on
    the night shift. *)
Theorem hardFill_result_is_complete (p : Params) (fuel : nat) (entropy : Z) (out : Schedule) :
  hardFill p = true →
  generateSchedule p fuel entropy = Some out →
  Forall (λ row,
            dayMissing row = 0 ∧ nightMissing row = 0
            ∧ Z.of_nat (length (dayIds row)) = Z.max 0 (daySlots p)
            ∧ Z.of_nat (length (nightIds row)) = Z.max 0 (nightSlots p))
         (days out).
Proof.
  intros Hh H. pose proof H as H'.
  apply generateSchedule_sound in H as (_ & Hs & _).
  apply generateSchedule_cases in H' as (st & rows & Hp & _ & [[Hf _] | [_ [st' Hf]]]);
    [congruence|].
  apply strictPass_spec in Hp as (_ & Hs0 & _ & _).
  apply hardFillRows_spec in Hf as (_ & _ & Hz & _).
  2:{ eapply Forall_impl; [exact Hs0|]. intros r. apply rowSound_roster, allowedPool_employees. }
  rewrite Forall_forall in Hs, Hz. apply Forall_forall. intros r Hr.
  destruct (Hs r Hr) as (_ & H1 & H2 & H3 & H4 & _). destruct (Hz r Hr) as [Hd Hn].
  repeat split; [done | done | lia | lia].
Qed.

Lemma hardFill_result_is_complete_witness :
  ∃ out, generateSchedule fourStaff 1 0 = Some out
    ∧ Forall (λ row,
                dayMissing row = 0 ∧ nightMissing row = 0
                ∧ Z.of_nat (length (dayIds row)) = 1
                ∧ Z.of_nat (length (nightIds row)) = 1)
             (days out).
Proof.
  pose proof (hardFill_result_is_complete fourStaff 1 0) as H.
  remember (generateSchedule fourStaff 1 0) as g eqn:E.
  vm_compute in E. subst g.
  eexists. split; [reflexivity|]. exact (H _ eq_refl eq_refl).
Defined.

(** X6.  Hard fill only appends.  When the run with hard fill on returns,
    the run of the same parameters with hard fill off returns a table of
    which it is an extension, row by row: same date, the ids of the strict
    pass first and in the same order on each shift, the same diagnostics
    (a seat filled by the hard fill keeps the issue reported for it), and
    the same [meta]. *)
Theorem hardFill_only_appends (p : Params) (fuel : nat) (entropy : Z) (out : Schedule) :
  generateSchedule (withHardFill p true) fuel entropy = Some out →
  ∃ strict,
    generateSchedule (withHardFill p false) fuel entropy = Some strict
    ∧ meta out = meta strict
    ∧ Forall2 (λ r r',
                 date r' = date r
                 ∧ dayIds r `prefix_of` dayIds r' ∧ nightIds r `prefix_of` nightIds r'
                 ∧ dayIssues r' = dayIssues r ∧ nightIssues r' = nightIssues r)
              (days strict) (days out).
Proof.
  intros H.
  apply generateSchedule_cases in H as (st & rows & Hp & Hm & [[Hf _] | [_ [st' Hf]]]);
    [discriminate|].
  rewrite seedOf_withHardFill, strictPass_withHardFill in Hp.
  rewrite meta_withHardFill in Hm.
  exists (mkSchedule rows (meta out)).
  split.
  { rewrite generateSchedule_strict by reflexivity.
    rewrite seedOf_withHardFill, strictPass_withHardFill, meta_withHardFill, Hp, Hm. done. }
  split; [done|]. simpl.
  apply strictPass_spec in Hp as (_ & Hs0 & _ & _).
  pose proof (hardFillRows_spec (withHardFill p true) fuel rows 0 st st' (days out)) as Hx.
  apply Hx in Hf as (_ & Hx' & _ & _); [done|].
  eapply Forall_impl; [exact Hs0|]. intros r Hr.
  apply (rowSound_roster p _ _ r (allowedPool_employees p)) in Hr.
  destruct Hr as (H1 & H2 & H3 & H4 & H5 & H6). repeat split; try done.
Qed.

Lemma hardFill_only_appends_witness :
  ∃ out strict,
    generateSchedule (withHardFill twoSpecialists true) 1 0 = Some out
    ∧ generateSchedule (withHardFill twoSpecialists false) 1 0 = Some strict
    ∧ meta out = meta strict
    ∧ Forall2 (λ r r',
                 date r' = date r
                 ∧ dayIds r `prefix_of` dayIds r' ∧ nightIds r `prefix_of` nightIds r'
                 ∧ dayIssues r' = dayIssues r ∧ nightIssues r' = nightIssues r)
              (days strict) (days out).
Proof.
  pose proof (hardFill_only_appends twoSpecialists 1 0) as H.
  remember (generateSchedule (withHardFill twoSpecialists true) 1 0) as g eqn:E.
  vm_compute in E. subst g.
  destruct (H _ eq_refl) as (strict & Hs & Hrest).
  eexists _, strict. split; [reflexivity|]. split; [exact Hs|]. exact Hrest.
Defined.

(** X7.  The tally [assignedCount] that drives the hard ceiling and the
    fairness weights is exact: after the strict pass, and after the hard
    fill when it ends, the count recorded for an id is the number of rows
    of the table that list it. *)
Theorem assignedCount_matches_table (p : Params) (s : Z) (st : State) (rows : list Row) :
  strictPass p (initState p s) = (st, rows) →
  (∀ i, count st i = appearances i rows)
  ∧ ∀ fuel st' rows', hardFillRows p fuel 0 st rows = Some (st', rows') →
      ∀ i, count st' i = appearances i rows'.
Proof.
  intros H. apply strictPass_spec in H as (_ & Hs & Hc & _).
  assert (Hc' : ∀ i, count st i = appearances i rows).
  { intros i. rewrite Hc, initState_count. lia. }
  split; [done|]. intros fuel st' rows' Hf i.
  apply hardFillRows_spec in Hf as (_ & _ & _ & Hc2).
  - specialize (Hc2 i). specialize (Hc' i). lia.
  - eapply Forall_impl; [exact Hs|]. intros r. apply rowSound_roster, allowedPool_employees.
Qed.

Lemma assignedCount_matches_table_witness :
  (∀ i, count (fst (strictPass fourStaff (initState fourStaff 42))) i
        = appearances i (snd (strictPass fourStaff (initState fourStaff 42))))
  ∧ ∀ fuel st' rows',
      hardFillRows fourStaff fuel 0 (fst (strictPass fourStaff (initState fourStaff 42)))
        (snd (strictPass fourStaff (initState fourStaff 42))) = Some (st', rows') →
      ∀ i, count st' i = appearances i rows'.
Proof.
  apply (assignedCount_matches_table fourStaff 42). apply surjective_pairing.
Defined.

(** ** The rules in the tables of the strict pass *)

(** X8.  Without hard fill, no employee is listed more than
    [max(0, weeklyCap)] times in any seven consecutive rows of a returned
    table: the check of the six days before an assignment bounds every
    seven-day window, not only the calendar weeks. *)
Theorem strict_pass_weekly_cap (p : Params) (fuel : nat) (entropy : Z) (out : Schedule) :
  hardFill p = false →
  generateSchedule p fuel entropy = Some out →
  ∀ (i : string) (a : nat),
    appearances i (take 7 (drop a (days out))) ≤ Z.max 0 (weeklyCap p).
Proof.
  intros Hh H i a.
  apply generateSchedule_cases in H as (st & rows & Hp & _ & [[_ ->] | [Hf _]]);
    [|congruence].
  destruct (strictPass_weekly _ _ _ _ i Hp) as [_ Hw]. apply Hw.
Qed.

Lemma strict_pass_weekly_cap_witness :
  ∃ out, generateSchedule (withHardFill twoSpecialists false) 0 0 = Some out
    ∧ ∀ (i : string) (a : nat), appearances i (take 7 (drop a (days out))) ≤ 3.
Proof.
  pose proof (strict_pass_weekly_cap (withHardFill twoSpecialists false) 0 0) as H.
  remember (generateSchedule (withHardFill twoSpecialists false) 0 0) as g eqn:E.
  vm_compute in E. subst g.
  eexists. split; [reflexivity|]. exact (H _ eq_refl eq_refl).
Defined.





(** X11.  Without hard fill and with the rule enabled, no returned table
    has an employee on the night list of a row and on the day list of the
    next row ([strict_pass_no_morning_after_night], here at the roster of
    the self-test of the source). *)
Lemma strict_pass_no_morning_after_night_witness :
  ∃ out, generateSchedule selfTestA 0 0 = Some out ∧ noMorningAfterNight (days out).
Proof.
  pose proof (strict_pass_no_morning_after_night selfTestA 0 0) as H.
  remember (generateSchedule selfTestA 0 0) as g eqn:E.
  vm_compute in E. subst g.
  eexists. split; [reflexivity|]. exact (H _ eq_refl eq_refl eq_refl).
Defined.


(** ** The loops of the hard fill *)

(** X12.  A [while] loop of the hard fill ends within as many iterations
    as the shift has seats, or never: the run in which every loop is given
    [fuel >= max(daySlots, nightSlots)] iterations returns what every
    longer run returns.  When it returns nothing, no bound does, and the
    code does not return. *)
Theorem hardFill_iterations_bounded (p : Params) (entropy : Z) (fuel fuel' : nat) :
  Z.max (daySlots p) (nightSlots p) ≤ Z.of_nat fuel →
  (fuel ≤ fuel')%nat →
  generateSchedule p fuel' entropy = generateSchedule p fuel entropy.
Proof.
  intros Hslots Hf. unfold generateSchedule.
  destruct (strictPass p _) as [st rows] eqn:E.
  apply strictPass_spec in E as (_ & Hs & _ & _).
  destruct (hardFill p); [|done].
  rewrite (hardFillRows_stable p fuel fuel' Hf); [done| |].
  - eapply Forall_impl; [exact Hs|]. intros r. apply rowSound_roster, allowedPool_employees.
  - eapply Forall_impl; [exact Hs|]. intros r (_ & _ & _ & Hd & Hn & _). lia.
Qed.

Lemma hardFill_iterations_bounded_witness :
  Z.max (daySlots fourStaff) (nightSlots fourStaff) ≤ Z.of_nat 1
  ∧ generateSchedule fourStaff 7 0 = generateSchedule fourStaff 1 0.
Proof.
  assert (H : Z.max (daySlots fourStaff) (nightSlots fourStaff) ≤ Z.of_nat 1)
    by (vm_compute; discriminate).
  split; [exact H|]. apply (hardFill_iterations_bounded fourStaff 0 1 7 H). lia.
Defined.

(** X13.  What one call of [fillSlot] can do.  Either no stage finds a
    candidate and the lists and the tracker are unchanged, or exactly one
    id is appended to the list of the shift: the id of an employee of the
    input list who is on neither list of the row, whose recorded streak is
    below [maxStreak] (whatever the stage), whose last recorded night is
    not the day before when a day seat is filled under the
    morning-after-night rule, and who is under the desired count whenever
    any employee at all is under it; the other list, the date and the
    diagnostics are kept, and the missing count of the shift is recomputed
    from the list. *)
Theorem fillSlot_appends_at_most_one (p : Params) (st : State) (row : Row) (idx : nat)
    (sh : Shift) (st' : State) (row' : Row) :
  fillSlot p st row idx sh = (st', row') →
  (date row' = date row ∧ dayIssues row' = dayIssues row ∧ nightIssues row' = nightIssues row
   ∧ idsOf (otherShift sh) row' = idsOf (otherShift sh) row
   ∧ missingOf row' (otherShift sh) = missingOf row (otherShift sh)
   ∧ missingOf row' sh = Z.max 0 (slotsOf p sh - Z.of_nat (length (idsOf sh row'))))
  ∧ ((st' = st ∧ idsOf sh row' = idsOf sh row)
     ∨ ∃ chosen,
         chosen ∈ employees p
         ∧ idsOf sh row' = idsOf sh row ++ [Employee.id chosen]
         ∧ st' = updateOnAssign p st (Employee.id chosen) (date row) (Z.of_nat idx + 1) sh
         ∧ (Employee.id chosen ∉ dayIds row ++ nightIds row)
         ∧ streakOf st (Employee.id chosen) < maxStreak p
         ∧ ¬ (sh = day ∧ enforceNoMorningAfterNight p = true
              ∧ lastNightOn st !! Employee.id chosen
                = Some (ymd (year p) (monthIndex0 p) (Z.of_nat idx + 1 - 1)))
         ∧ ((∃ e, e ∈ employees p ∧ count st (Employee.id e) < desiredOf e) →
            count st (Employee.id chosen) < desiredOf chosen)).
Proof.
  intros H. apply fillSlot_spec in H as (Hdt & Hid & Hin & Hoth & Hmo & Hms & Hcase).
  split; [done|]. destruct Hcase as [Hsame | [relax Hst]]; [by left | right].
  apply pickStage_spec in Hst as (chosen & Hpool & Happ & Hst & Hna & Hno & Hel & Hunder & _).
  exists chosen. split; [by apply pools_employees|]. split; [done|]. split; [done|].
  split.
  { destruct sh; simpl in *; intros [?|?]%elem_of_app; done. }
  apply eligible_iff in Hel as (_ & Hs & Hman & _).
  split; [done|]. split; [done|].
  intros (e & He & Hlt). apply Hunder. exists e. split; [by apply pools_employees | done].
Qed.

Lemma fillSlot_appends_at_most_one_witness :
  ∃ chosen,
    chosen ∈ employees fourStaff
    ∧ idsOf day (snd (fillSlot fourStaff (initState fourStaff 42)
                        (mkRow (ymd 2025 0 1) [] [] 1 1 [] []) 0 day))
      = [Employee.id chosen]
    ∧ count (initState fourStaff 42) (Employee.id chosen) < desiredOf chosen.
Proof.
  destruct (fillSlot_appends_at_most_one fourStaff (initState fourStaff 42)
              (mkRow (ymd 2025 0 1) [] [] 1 1 [] []) 0 day _ _ (surjective_pairing _))
    as [_ [[_ Hsame] | (chosen & Hin & Happ & _ & _ & _ & _ & Hunder)]].
  - exfalso. revert Hsame. vm_compute. discriminate.
  - exists chosen. split; [done|]. split; [done|]. apply Hunder.
    exists (Employee.mk "D1" Day 31 false). split; [apply list_elem_of_here|].
    vm_compute. reflexivity.
Defined.

(** X14.  The choice of a stage.  When [pickStage] picks, the chosen
    employee is a neediest candidate: among the employees of the input
    list who are on neither list of the row and eligible under the stage's
    relaxation, none has more desired shifts left, and none with as many
    left has a smaller assigned count. *)
Theorem pickStage_picks_neediest (p : Params) (sh : Shift) (dn : Z) (dt : Date)
    (other : list string) (relax : Relax) (st : State) (already : list string)
    (st' : State) (already' : list string) :
  pickStage p sh dn dt other relax st already = Some (st', already') →
  ∃ chosen,
    chosen ∈ employees p
    ∧ already' = already ++ [Employee.id chosen]
    ∧ eligible p st chosen sh dn (already ++ other) relax = true
    ∧ ∀ e, e ∈ employees p →
        (Employee.id e ∉ already) → (Employee.id e ∉ other) →
        eligible p st e sh dn (already ++ other) relax = true →
        desiredOf e - count st (Employee.id e)
          ≤ desiredOf chosen - count st (Employee.id chosen)
        ∧ (desiredOf e - count st (Employee.id e)
             = desiredOf chosen - count st (Employee.id chosen) →
           count st (Employee.id chosen) ≤ count st (Employee.id e)).
Proof.
  intros H.
  apply pickStage_spec in H as (chosen & Hpool & Happ & _ & _ & _ & Hel & _ & Hleast).
  exists chosen. split; [by apply pools_employees|]. split; [done|]. split; [done|].
  intros e He Hna Hno Hee.
  pose proof (Hleast e (proj2 (pools_employees p e) He) Hna Hno Hee) as Hn.
  apply neediest_le in Hn. lia.
Qed.

Lemma pickStage_picks_neediest_witness :
  ∃ st' chosen,
    pickStage fourStaff day 1 (ymd 2025 0 1) [] noRelax (initState fourStaff 42) []
      = Some (st', [Employee.id chosen])
    ∧ chosen ∈ employees fourStaff
    ∧ ∀ e, e ∈ employees fourStaff →
        eligible fourStaff (initState fourStaff 42) e day 1 [] noRelax = true →
        desiredOf e - count (initState fourStaff 42) (Employee.id e)
          ≤ desiredOf chosen - count (initState fourStaff 42) (Employee.id chosen).
Proof.
  destruct (pickStage fourStaff day 1 (ymd 2025 0 1) [] noRelax (initState fourStaff 42) [])
    as [[st' already']|] eqn:E.
  - destruct (pickStage_picks_neediest _ _ _ _ _ _ _ _ _ _ E)
      as (chosen & Hin & -> & _ & Hleast).
    exists st', chosen. split; [done|]. split; [done|].
    intros e He Hel. apply (Hleast e He); [apply not_elem_of_nil | apply not_elem_of_nil | done].
  - exfalso. revert E. vm_compute. discriminate.
Defined.

(** ** The calendar *)

(** X15.  [daysInMonth] is the Gregorian length of the month: the month
    index is normalised into the year ([m0 = 12] is January of the next
    year, [m0 = -1] December of the year before), a year from 0 to 99 is
    read as 1900 + year (as [new Date(y, m, d)] does), February has 29 days
    in the years divisible by 4 and not by 100 unless by 400; the result
    is always between 28 and 31. *)
Theorem daysInMonth_gregorian (y m0 : Z) :
  daysInMonth y m0 = gregorianLength (jsYear y + m0 / 12) (m0 mod 12)
  ∧ 28 ≤ daysInMonth y m0 ≤ 31.
Proof.
  pose proof (daysInMonth_gregorianLength y m0) as H. split; [done|].
  rewrite H. unfold gregorianLength.
  destruct (_ =? 1); [destruct (isLeap _); lia|]. destruct (_ || _); lia.
Qed.

(** ** Edits by hand on a table *)

(** X16.  Assigning an employee by hand and removing the same employee
    again.  On a row of the given date that lists the employee on neither
    shift, [removeFromShift] after [assignManual] restores the lists, the
    date, the diagnostics and the other shift's missing count, and leaves
    the missing count of the shift at [max(1, missing)]: the row is
    restored exactly when a seat was missing, and a shift that had no open
    seat shows one afterwards. *)
Theorem assign_then_remove (dt : Date) (sh : Shift) (eid : string) (row : Row) :
  date row = dt →
  eid ∉ dayIds row ++ nightIds row →
  let row' := removeFromShiftRow dt sh eid (assignManualRow dt sh eid row) in
  date row' = date row ∧ dayIds row' = dayIds row ∧ nightIds row' = nightIds row
  ∧ dayIssues row' = dayIssues row ∧ nightIssues row' = nightIssues row
  ∧ missingOf row' (otherShift sh) = missingOf row (otherShift sh)
  ∧ missingOf row' sh = Z.max 1 (missingOf row sh)
  ∧ (row' = row ↔ 0 < missingOf row sh).
Proof.
  intros Hd Hi. apply not_elem_of_app in Hi as [Hday Hnight].
  unfold removeFromShiftRow, assignManualRow.
  rewrite (bool_decide_eq_false_2 (date row ≠ dt)) by (intros H; by apply H).
  assert (Hother : includes (idsOf (otherShift sh) row) eid = false).
  { apply includes_false. by destruct sh. }
  rewrite Hother.
  destruct row as [d di ni dm nm dis nis]. destruct sh; simpl in *; subst d.
  - rewrite (bool_decide_eq_false_2 (dt ≠ dt)) by (intros H; by apply H).
    simpl. rewrite filter_ne_snoc by done.
    repeat split; try done; try lia.
    + intros [= H]. lia.
    + intros H. f_equal. lia.
  - rewrite (bool_decide_eq_false_2 (dt ≠ dt)) by (intros H; by apply H).
    simpl. rewrite filter_ne_snoc by done.
    repeat split; try done; try lia.
    + intros [= H]. lia.
    + intros H. f_equal. lia.
Qed.

Lemma assign_then_remove_witness :
  let row := mkRow (ymd 2025 0 3) ["e1"] [] 0 1 [] [] in
  removeFromShiftRow (ymd 2025 0 3) night "e2" (assignManualRow (ymd 2025 0 3) night "e2" row)
  = row
  ∧ missingOf (removeFromShiftRow (ymd 2025 0 3) day "e2"
                 (assignManualRow (ymd 2025 0 3) day "e2" row)) day = 1.
Proof.
  split.
  - apply (assign_then_remove (ymd 2025 0 3) night "e2"
             (mkRow (ymd 2025 0 3) ["e1"] [] 0 1 [] [])); [done | | simpl; lia].
    simpl. by intros [= ]%list_elem_of_singleton.
  - vm_compute. reflexivity.
Defined.

(** X17.  Edits by hand on a generated table.  The rows of a table
    returned by [generateSchedule] have missing counts equal to the open
    seats, [max(0, slots - ids.length)]; this is kept by every
    [assignManual], and by every [removeFromShift] of an employee who is
    listed on the shift in the rows of the given date (the only removal
    the table offers). *)
Theorem manual_edits_keep_missing_counts (p : Params) (fuel : nat) (entropy : Z)
    (out : Schedule) (dt : Date) (sh : Shift) (eid : string) :
  generateSchedule p fuel entropy = Some out →
  Forall (missingConsistent p) (days (assignManual dt sh eid out))
  ∧ (Forall (λ row, date row = dt → eid ∈ idsOf sh row) (days out) →
     Forall (missingConsistent p) (days (removeFromShift dt sh eid out))).
Proof.
  intros H. apply generateSchedule_sound in H as (_ & Hs & _).
  unfold assignManual, removeFromShift. simpl. split.
  - apply Forall_fmap. eapply Forall_impl; [exact Hs|].
    intros row (_ & _ & _ & Hmd & Hmn & _). unfold missingConsistent, assignManualRow. simpl.
    case_bool_decide; [done|]. destruct (includes _ eid); [done|].
    destruct sh; simpl; rewrite ?length_app; simpl; split; try done; lia.
  - intros Hl. apply Forall_fmap. rewrite Forall_forall in Hs, Hl. apply Forall_forall.
    intros row Hrow. destruct (Hs row Hrow) as (Hnd & Hld & Hln & Hmd & Hmn & _).
    specialize (Hl row Hrow). unfold missingConsistent, removeFromShiftRow. simpl.
    case_bool_decide as Hdt; [done|].
    assert (Hin : eid ∈ idsOf sh row) by (apply Hl; by destruct (decide (date row = dt))).
    apply NoDup_app in Hnd as (Hnd1 & _ & Hnd2).
    destruct sh; simpl in *.
    + pose proof (filter_ne_length eid (dayIds row) Hnd1 Hin). split; [lia | done].
    + pose proof (filter_ne_length eid (nightIds row) Hnd2 Hin). split; [done | lia].
Qed.

Lemma manual_edits_keep_missing_counts_witness :
  ∃ out, generateSchedule selfTestC 0 0 = Some out
    ∧ Forall (missingConsistent selfTestC) (days (assignManual (ymd 2025 0 9) day "e2" out))
    ∧ Forall (missingConsistent selfTestC) (days (removeFromShift (ymd 2025 0 1) day "e1" out)).
Proof.
  pose proof (manual_edits_keep_missing_counts selfTestC 0 0) as H.
  remember (generateSchedule selfTestC 0 0) as g eqn:E.
  vm_compute in E. subst g.
  eexists. split; [reflexivity|]. split.
  - exact (proj1 (H _ (ymd 2025 0 9) day "e2" eq_refl)).
  - apply (proj2 (H _ (ymd 2025 0 1) day "e1" eq_refl)).
    repeat (apply Forall_cons; split;
            [intros Hd; first [discriminate Hd | apply list_elem_of_here] |]).
    apply Forall_nil. done.
Defined.

(** ** When the hard fill cannot end *)

(** X18.  With hard fill on, [generateSchedule] does not return when the
    input list has fewer employees than a day has seats
    ([max(0, daySlots) + max(0, nightSlots)]): a returned table would list
    that many different employees in each row. *)
Theorem hardFill_needs_enough_staff (p : Params) :
  hardFill p = true →
  Z.of_nat (length (employees p)) < Z.max 0 (daySlots p) + Z.max 0 (nightSlots p) →
  ∀ (fuel : nat) (entropy : Z), generateSchedule p fuel entropy = None.
Proof.
  intros Hh Hfew fuel entropy.
  destruct (generateSchedule p fuel entropy) as [out|] eqn:E; [exfalso | done].
  pose proof (generateSchedule_sound _ _ _ _ E) as (Hd & Hs & _).
  pose proof (generateSchedule_cases _ _ _ _ E)
    as (st & rows & Hp & _ & [[Hf _] | [_ [st' Hf]]]); [congruence|].
  apply strictPass_spec in Hp as (_ & Hs0 & _ & _).
  apply hardFillRows_spec in Hf as (_ & _ & Hz & _).
  2:{ eapply Forall_impl; [exact Hs0|]. intros r. apply rowSound_roster, allowedPool_employees. }
  assert (Hlen : length (days out) = Z.to_nat (dInM p)).
  { apply (f_equal length) in Hd. rewrite !length_map in Hd. rewrite Hd.
    unfold dayNumbers. by rewrite length_map, length_seq. }
  pose proof (daysInMonth_gregorianLength (year p) (monthIndex0 p)) as Hg.
  assert (Hpos : 28 ≤ dInM p).
  { unfold dInM. rewrite Hg. unfold gregorianLength.
    destruct (_ =? 1); [destruct (isLeap _); lia|]. destruct (_ || _); lia. }
  destruct (days out) as [|row rest] eqn:Eo; [simpl in Hlen; lia|].
  apply Forall_cons in Hs as [(Hnd & Hld & Hln & Hmd & Hmn & Hro) _].
  apply Forall_cons in Hz as [[Hzd Hzn] _].
  assert (Hsub : dayIds row ++ nightIds row ⊆+ map Employee.id (employees p)).
  { apply NoDup_submseteq; [done|]. intros i Hi. destruct (Hro i Hi) as (e & He & <-).
    apply list_elem_of_fmap. exists e. split; [done|]. by apply pools_employees. }
  apply submseteq_length in Hsub. rewrite length_app, length_map in Hsub. lia.
Qed.

Lemma hardFill_needs_enough_staff_witness :
  let p := january2025 [Employee.mk "a" Neither 10 false; Employee.mk "b" Day 3 true]
             2 1 5 5 7 true in
  Z.of_nat (length (employees p)) < Z.max 0 (daySlots p) + Z.max 0 (nightSlots p)
  ∧ ∀ (fuel : nat) (entropy : Z), generateSchedule p fuel entropy = None.
Proof.
  assert (H : Z.of_nat 2 < Z.max 0 2 + Z.max 0 1) by (vm_compute; reflexivity).
  split; [exact H|].
  exact (hardFill_needs_enough_staff
           (january2025 [Employee.mk "a" Neither 10 false; Employee.mk "b" Day 3 true]
              2 1 5 5 7 true) eq_refl H).
Defined.

(** ** The loop of the strict pass *)

(** X19.  The [while] loop of [tryPool] ends within as many iterations as
    candidates were available when it started ([tryPoolLoop_fuel]: every
    iteration that continues removes the drawn candidate); here at the
    first day of the self-test roster. *)
Lemma tryPoolLoop_fuel_witness :
  (length (primaries selfTestA) ≤ 3)%nat ∧ (length (primaries selfTestA) ≤ 9)%nat
  ∧ tryPoolLoop selfTestA 3 1 day 1 (ymd 2025 0 1) true (initState selfTestA 42) [] []
      (primaries selfTestA)
    = tryPoolLoop selfTestA 9 1 day 1 (ymd 2025 0 1) true (initState selfTestA 42) [] []
        (primaries selfTestA).
Proof.
  assert (H3 : (length (primaries selfTestA) ≤ 3)%nat) by (vm_compute; lia).
  assert (H9 : (length (primaries selfTestA) ≤ 9)%nat) by (vm_compute; lia).
  split; [exact H3|]. split; [exact H9|].
  exact (tryPoolLoop_fuel selfTestA 1 day 1 (ymd 2025 0 1) true 3%nat 9%nat
           (initState selfTestA 42) [] [] (primaries selfTestA) H3 H9).
Defined.

(** ** The counters beside a generated table *)

(** X20.  For a table returned by [generateSchedule] and any list of
    employees with pairwise different ids (the list of the form, which may
    hold more employees than were passed to the generator), [counters]
    yields one entry per employee, in order: its day and night tallies are
    the numbers of rows that list the employee on that shift, its total is
    the number of rows that list the employee at all, and its delta is that
    number minus the employee's [desiredShifts] (not clamped at 0, unlike
    the generator's [desiredOf]). *)
Theorem counters_of_generated_table (p : Params) (fuel : nat) (entropy : Z) (out : Schedule)
    (emps : list Employee.t) :
  NoDup (map Employee.id emps) →
  generateSchedule p fuel entropy = Some out →
  Forall2 (λ e c,
             cId c = Employee.id e ∧ cDesired c = Employee.desiredShifts e
             ∧ cDay c = shiftAppearances day (Employee.id e) (days out)
             ∧ cNight c = shiftAppearances night (Employee.id e) (days out)
             ∧ cTotal c = appearances (Employee.id e) (days out)
             ∧ cDelta c = appearances (Employee.id e) (days out) - Employee.desiredShifts e
             ∧ cIsReserve c = Employee.isReserve e)
          emps (counters emps (days out)).
Proof.
  intros Hnd H. apply generateSchedule_sound in H as (_ & Hs & _).
  assert (Hrows : Forall (λ r, NoDup (dayIds r ++ nightIds r)) (days out)).
  { eapply Forall_impl; [exact Hs|]. by intros r (? & _). }
  unfold counters. apply Forall2_fmap_r, Forall_Forall2_diag, Forall_forall.
  intros e He. unfold compose. cbv beta.
  rewrite (tallyRow_fold _ _ Hrows), (counterMap_lookup _ _ Hnd He). simpl.
  pose proof (shiftAppearances_sum (Employee.id e) _ Hrows).
  repeat split; lia.
Qed.

Lemma counters_of_generated_table_witness :
  ∃ out, generateSchedule selfTestA 0 0 = Some out
    ∧ Forall2 (λ e c,
                 cId c = Employee.id e ∧ cDesired c = Employee.desiredShifts e
                 ∧ cDay c = shiftAppearances day (Employee.id e) (days out)
                 ∧ cNight c = shiftAppearances night (Employee.id e) (days out)
                 ∧ cTotal c = appearances (Employee.id e) (days out)
                 ∧ cDelta c
                   = appearances (Employee.id e) (days out) - Employee.desiredShifts e
                 ∧ cIsReserve c = Employee.isReserve e)
              (employees selfTestA) (counters (employees selfTestA) (days out)).
Proof.
  pose proof (counters_of_generated_table selfTestA 0 0) as H.
  remember (generateSchedule selfTestA 0 0) as g eqn:E.
  vm_compute in E. subst g.
  eexists. split; [reflexivity|]. apply H; [|reflexivity].
  apply (bool_decide_unpack _). vm_compute. exact I.
Defined.

(** ** The menu of the manual assignment *)

(** X21.  Whoever the menu of a shift offers can be assigned by hand to a
    generated table without listing anyone twice: [availableEmployees]
    leaves out the employees already on either shift of the row of that
    date, and a generated table has one row per date, so after
    [assignManual] of an offered employee no row lists an employee twice.
    (The check is the menu's: [assignManual] itself appends an id that is
    already on the shift.) *)
Theorem menu_assignment_keeps_rows_distinct (hasName : Employee.t → bool) (p : Params)
    (fuel : nat) (entropy : Z) (out : Schedule) (emps : list Employee.t) (dt : Date)
    (sh : Shift) (e : Employee.t) :
  generateSchedule p fuel entropy = Some out →
  e ∈ availableEmployees hasName emps (days out) dt sh →
  Forall (λ row, NoDup (dayIds row ++ nightIds row))
         (days (assignManual dt sh (Employee.id e) out)).
Proof.
  intros H He. pose proof (generateSchedule_sound _ _ _ _ H) as (_ & Hs & _).
  unfold assignManual. simpl. apply Forall_fmap, Forall_lookup. intros k row Hk.
  rewrite Forall_lookup in Hs. destruct (Hs k row Hk) as (Hnd & _). simpl.
  unfold assignManualRow. case_bool_decide as Hdt; [done|].
  assert (Hdate : date row = dt) by (by destruct (decide (date row = dt))).
  assert (Hfind : findRow (days out) dt = Some row).
  { apply (findRow_unique _ _ k); [done | done |]. intros k' r' Hk' Hd'.
    pose proof (generateSchedule_dates _ _ _ _ _ _ H Hk) as E1.
    pose proof (generateSchedule_dates _ _ _ _ _ _ H Hk') as E2.
    rewrite Hdate in E1. rewrite Hd' in E2. rewrite E1 in E2. injection E2 as E2. lia. }
  apply elem_of_List_filter in He as [_ He]. rewrite Hfind in He.
  destruct (negb (hasName e)); [discriminate|].
  destruct (includes (idsOf sh row) (Employee.id e)) eqn:Hcur; [discriminate|].
  destruct (includes (idsOf (otherShift sh) row) (Employee.id e)) eqn:Hoth; [discriminate|].
  apply includes_false in Hcur, Hoth.
  apply NoDup_app in Hnd as (Hd & Hdis & Hn).
  destruct sh; simpl in *.
  - rewrite <- app_assoc. apply NoDup_app. repeat split; [done| |].
    + intros i Hi [->%list_elem_of_singleton | Hin]%elem_of_app; [done|]. by apply (Hdis i).
    + apply NoDup_cons. by split.
  - rewrite app_assoc. apply NoDup_app. repeat split.
    + apply NoDup_app. by repeat split.
    + intros i [Hi | Hi]%elem_of_app ->%list_elem_of_singleton; done.
    + apply NoDup_singleton.
Qed.

Lemma menu_assignment_keeps_rows_distinct_witness :
  ∃ out, generateSchedule selfTestC 0 0 = Some out
    ∧ Employee.mk "e2" Night 2 false
      ∈ availableEmployees (λ _, true) (employees selfTestC) (days out) (ymd 2025 0 9) day
    ∧ Forall (λ row, NoDup (dayIds row ++ nightIds row))
             (days (assignManual (ymd 2025 0 9) day "e2" out)).
Proof.
  pose proof (menu_assignment_keeps_rows_distinct (λ _, true) selfTestC 0 0) as H.
  remember (generateSchedule selfTestC 0 0) as g eqn:E.
  vm_compute in E. subst g.
  eexists. split; [reflexivity|].
  match goal with |- ?A ∧ _ => assert (He : A) end.
  { vm_compute. apply list_elem_of_further, list_elem_of_here. }
  split; [exact He|].
  exact (H _ (employees selfTestC) (ymd 2025 0 9) day _ eq_refl He).
Defined.

(** ** The week buckets of the spread bias *)

(** X22.  The bucket [dayToWeekIdx(dayNum)] that [updateOnAssign]
    increments is an index of the array [weekCount[id]] for every day
    number of the month: it lies between 0 and [weeksInMonth - 1], and the
    month has between 4 and 6 buckets. *)
Theorem weekCount_index_in_range (p : Params) :
  Forall (λ d, 0 ≤ dayToWeekIdx p d < weeksInMonth p) (dayNumbers p)
  ∧ 4 ≤ weeksInMonth p ≤ 6.
Proof.
  pose proof (getDay_range (year p) (monthIndex0 p) 1) as Hw.
  pose proof (dInM_range p) as Hd.
  unfold weeksInMonth, dayToWeekIdx, firstWeekday. split.
  - apply Forall_lookup. intros k d Hk. apply dayNumbers_lookup in Hk as [_ Hk].
    Z.div_mod_to_equations. lia.
  - Z.div_mod_to_equations. lia.
Qed.

(** ** Seats and demand *)

(** X23.  In every returned table the seats filled and the seats reported
    missing add up to the demand of the month: the sum over the rows of
    [dayIds.length + dayMissing + nightIds.length + nightMissing] is
    [meta.totalDemand]. *)
Theorem filled_plus_missing_is_demand (p : Params) (fuel : nat) (entropy : Z)
    (out : Schedule) :
  generateSchedule p fuel entropy = Some out →
  seatsOf (days out) = totalDemand (meta out).
Proof.
  intros H. pose proof (generateSchedule_sound _ _ _ _ H) as (Hd & Hs & _).
  apply generateSchedule_cases in H as (_ & _ & _ & -> & _). simpl.
  rewrite (seatsOf_sound _ _ _ Hs). unfold totalDemandOf.
  apply (f_equal length) in Hd. rewrite !length_map in Hd. rewrite Hd.
  unfold dayNumbers. rewrite length_map, length_seq.
  pose proof (dInM_range p). lia.
Qed.

Lemma filled_plus_missing_is_demand_witness :
  ∃ out, generateSchedule selfTestC 0 0 = Some out
    ∧ seatsOf (days out) = 62 ∧ totalDemand (meta out) = 62.
Proof.
  pose proof (filled_plus_missing_is_demand selfTestC 0 0) as H.
  remember (generateSchedule selfTestC 0 0) as g eqn:E.
  vm_compute in E. subst g.
  eexists. split; [reflexivity|]. split; [exact (H _ eq_refl) | reflexivity].
Defined.

(** ** The CSV export *)

(** X24.  [escapeCSV] loses nothing: a reader that takes a field starting
    with a quote up to the first quote that is not doubled, and any other
    field as it stands, gets back the text that was escaped; so two
    different texts never give the same field. *)
Theorem escapeCSV_round_trip (s : string) :
  CSV.readField (CSV.escapeCSV s) = s
  ∧ ∀ s', CSV.escapeCSV s = CSV.escapeCSV s' → s = s'.
Proof.
  assert (Hread : ∀ t, CSV.readField (CSV.escapeCSV t) = t).
  { intros t. unfold CSV.escapeCSV.
    destruct (CSV.includesChar CSV.comma t || CSV.includesChar CSV.quote t
              || CSV.includesChar CSV.newline t) eqn:E.
    - simpl. apply readQuoted_doubleQuotes.
    - apply orb_false_iff in E as [E _]. apply orb_false_iff in E as [_ E].
      destruct t as [|x t]; [done|]. simpl in *.
      apply orb_false_iff in E as [E _]. by rewrite E. }
  split; [apply Hread|]. intros s' H.
  rewrite <- (Hread s), <- (Hread s'). by rewrite H.
Qed.

(** ** The stages of the hard fill *)

(** X25.  The third stage of [fillSlot] never finds anyone the second did
    not: [pickStage({ ignoreWeeklyCap: true, ignoreStreak: true })] returns
    what [pickStage({ ignoreWeeklyCap: true })] returns, for every state,
    row and shift, because the evaluator checks the streak a second time
    whatever the relaxation. *)
Theorem third_stage_is_redundant (p : Params) (sh : Shift) (dn : Z) (dt : Date)
    (other : list string) (st : State) (already : list string) :
  pickStage p sh dn dt other (mkRelax true true) st already
  = pickStage p sh dn dt other (mkRelax true false) st already.
Proof.
  unfold pickStage.
  match goal with
  | |- match jsSort _ (List.filter ?f1 ?l) with _ => _ end
       = match jsSort _ (List.filter ?f2 _) with _ => _ end =>
      replace (List.filter f1 l) with (List.filter f2 l); [reflexivity|]
  end.
  apply List.filter_ext. intros e. f_equal. symmetry. apply eligible_ignoreStreak.
Qed.

(** ** The diagnostics of a blank seat *)

(** X26.  The summary "Insufficient eligible staff: reason (n), ..." counts
    candidates.  When [pickShift] reports an issue for a seat, the summary
    mentions every reason once, with a positive count, and the count of a
    reason is the number of candidates of the pool for whom the evaluator
    reports it (for the hard-ceiling reason: whom the ceiling excludes);
    when it reports none, no candidate has a reason. *)
Theorem diagnostics_count_candidates (p : Params) (st : State) (pools : list Employee.t)
    (sh : Shift) (dn : Z) (dap : list string) :
  let blocked r :=
    Z.of_nat (length (List.filter
                        (λ cand, bool_decide (r ∈ blockers p st pools sh dn dap cand))
                        pools)) in
  match diagnostics p st pools sh dn dap with
  | [] => ∀ r, blocked r = 0
  | summary :: more =>
      more = [] ∧ NoDup (map fst summary)
      ∧ ∀ r n, (r, n) ∈ summary ↔ 0 < n ∧ n = blocked r
  end.
Proof.
  intros blocked. rewrite diagnostics_blockers. cbv zeta.
  pose proof (reasonCounts_spec p st pools sh dn dap pools [] NoDup_nil_2
                (Forall_nil_2 _)) as H.
  cbv zeta in H.
  destruct (fold_left _ pools []) as [|x L'].
  - destruct H as (_ & _ & Hcount). intros r. specialize (Hcount r).
    simpl in Hcount. unfold blocked. lia.
  - destruct H as (Hnd & Hpos & Hcount).
    split; [done|]. split; [done|]. intros r n.
    rewrite (countOf_elem_of _ _ _ Hnd), (countOf_positive _ _ Hpos), Hcount.
    unfold blocked. cbn [countOf].
    split; [intros [? <-]; split; [lia | done] | intros [? ->]; split; [lia | done]].
Qed.
